(** * StoreKnowledge client: a verification development

    The repository is a React/TypeScript client of a markdown editing
    application.  This file embeds the handlers and effects of its
    components as Rocq functions over explicit component state and proves
    the properties the specification states about them. *)

From Stdlib Require Import Floats ZArith Bool.
From stdpp Require Import base list strings gmap pretty.
From Equations Require Import Equations.

(** ** JavaScript strings *)

(** A JavaScript string is a sequence of UTF-16 code units.  Keys, routes
    and endpoints, which the code writes as ASCII literals and only ever
    compares, are kept as [string]; text that the code inspects is a list
    of code units. *)
Module Js.

Abbreviation JsString := (list N).

Definition lit (s : string) : JsString :=
  Ascii.N_of_ascii <$> String.list_ascii_of_string s.

(** The characters [\s] matches: ECMAScript's WhiteSpace and
    LineTerminator productions. *)
Definition isWhiteSpace (c : N) : bool :=
  bool_decide (c ∈ [0x9; 0xA; 0xB; 0xC; 0xD; 0x20; 0xA0; 0x1680; 0x2028; 0x2029;
                    0x202F; 0x205F; 0x3000; 0xFEFF]%N)
  || ((0x2000 <=? c)%N && (c <=? 0x200A)%N).

(** [s.startsWith(p)], returning what follows the prefix. *)
Fixpoint stripPrefix (p s : JsString) : option JsString :=
  match p, s with
  | [], _ => Some s
  | _ :: _, [] => None
  | a :: p', b :: s' => if decide (a = b) then stripPrefix p' s' else None
  end.

(** [hay.includes(needle)] *)
Fixpoint includes (needle hay : JsString) : bool :=
  match stripPrefix needle hay with
  | Some _ => true
  | None => match hay with
            | [] => false
            | _ :: hay' => includes needle hay'
            end
  end.

End Js.

(** ** Kanban board: the drop handler ([KanbanBoard], in [src/components/Toast.tsx]) *)

Module KanbanBoard.

#[local] Open Scope Z_scope.

Inductive Priority := low | medium | high.

Record KanbanItem := {
  item_id : string;
  content : string;
  tags : list string;
  dueDate : option string;
  priority : option Priority
}.

(** A cell of the [items] array.  [None] is JavaScript's [undefined]:
    destructuring [const [movedItem] = items.splice(i, 1)] yields it when
    nothing was removed, and the handler inserts it all the same. *)
Abbreviation Cell := (option KanbanItem).

Record KanbanColumn := {
  id : string;
  title : string;
  items : list Cell
}.

Definition withItems (column : KanbanColumn) (newItems : list Cell) : KanbanColumn :=
  {| id := id column; title := title column; items := newItems |}.

(** The part of react-beautiful-dnd's [DropResult] the handler reads. *)
Record DraggableLocation := {
  droppableId : string;
  index : Z
}.

Record DropResult := {
  source : DraggableLocation;
  destination : option DraggableLocation
}.

(** [Array.prototype.splice]: a negative [start] counts from the end, and
    the start position is clamped to the array. *)
Definition relativeStart {A} (arr : list A) (start : Z) : nat :=
  let len := Z.of_nat (length arr) in
  if start <? 0 then Z.to_nat (Z.max (len + start) 0)
  else Z.to_nat (Z.min start len).

(** [arr.splice(start, 1)]: the removed elements and the array afterwards. *)
Definition splice_delete1 {A} (arr : list A) (start : Z) : list A * list A :=
  let k := relativeStart arr start in
  (take 1 (drop k arr), take k arr ++ drop (S k) arr).

(** [arr.splice(start, 0, x)]: the array afterwards. *)
Definition splice_insert {A} (arr : list A) (start : Z) (x : A) : list A :=
  let k := relativeStart arr start in
  take k arr ++ x :: drop k arr.

(** How a call of the handler ends, with the content of the [columns]
    state afterwards.  The column objects are shared between the old state
    and the shallow copy [{ ...columns }], so a [splice] done before a
    [TypeError] is visible in the state even though [setColumns] was not
    reached. *)
Inductive Outcome :=
  | Returned (columns : gmap string KanbanColumn)
  | Threw (columns : gmap string KanbanColumn).

Definition sameLocation (a b : DraggableLocation) : bool :=
  bool_decide (droppableId a = droppableId b) && bool_decide (index a = index b).

(** [handleDragEnd], up to [setColumns(newColumns)].  Both splices mutate
    the arrays in place: when source and destination are the same column
    the insertion acts on the array the removal has already shortened,
    which is why the destination is looked up after the source is updated.
    The request to [/api/kanban/toMarkdown] that follows does not touch
    [columns]. *)
Definition handleDragEnd (readOnly : bool) (columns : gmap string KanbanColumn)
    (result : DropResult) : Outcome :=
  if readOnly then Returned columns
  else match destination result with
  | None => Returned columns
  | Some dest =>
    if sameLocation (source result) dest then Returned columns
    else match columns !! droppableId (source result) with
    | None => Threw columns
    | Some sourceColumn =>
      let '(removed, rest) := splice_delete1 (items sourceColumn) (index (source result)) in
      let movedItem : Cell := mjoin (head removed) in
      let afterRemoval := <[droppableId (source result) := withItems sourceColumn rest]> columns in
      match afterRemoval !! droppableId dest with
      | None => Threw afterRemoval
      | Some destColumn =>
        Returned (<[droppableId dest :=
                    withItems destColumn (splice_insert (items destColumn) (index dest) movedItem)]>
                  afterRemoval)
      end
    end
  end.

(** The request of [parseMarkdownToKanban]. *)
Record ParseRequest := {
  parse_url : string;
  parse_content : string
}.

Definition parseRequest (markdownContent : string) : ParseRequest :=
  {| parse_url := "/api/kanban/parse"; parse_content := markdownContent |}.

(** The items of column [k] on a board, [[]] when there is no such column. *)
Definition itemsOf (columns : gmap string KanbanColumn) (k : string) : list Cell :=
  default [] (items <$> columns !! k).

(** Column [k] with the cell at position [i] taken out. *)
Definition removeAt (columns : gmap string KanbanColumn) (k : string) (i : nat)
    : gmap string KanbanColumn :=
  alter (fun c => withItems c (delete i (items c))) k columns.

(** A drop as the drag-and-drop library reports it on the rendered board:
    the source names a card that is there, and the destination names a
    column of the board and a position among its other cards. *)
Record validDrop (columns : gmap string KanbanColumn) (src dest : DraggableLocation)
    (card : KanbanItem) : Prop := {
  source_index_nonneg : 0 <= index src;
  source_card : itemsOf columns (droppableId src) !! Z.to_nat (index src) = Some (Some card);
  destination_column : is_Some (columns !! droppableId dest);
  destination_index :
    0 <= index dest
      <= Z.of_nat (length (itemsOf (removeAt columns (droppableId src) (Z.to_nat (index src)))
                             (droppableId dest)))
}.

(** A board with two columns, and the drop of its first "todo" card at
    the end of "done". *)
Definition card (name : string) : KanbanItem :=
  {| item_id := name; content := name; tags := []; dueDate := None; priority := None |}.

Definition board : gmap string KanbanColumn :=
  <["todo" := {| id := "todo"; title := "To do";
                 items := [Some (card "a"); Some (card "b"); Some (card "c")] |}]>
  (<["done" := {| id := "done"; title := "Done"; items := [Some (card "d")] |}]> ∅).

Definition dropAtDone : DropResult :=
  {| source := {| droppableId := "todo"; index := 0 |};
     destination := Some {| droppableId := "done"; index := 1 |} |}.

End KanbanBoard.

(** ** Dataview panel: extraction and execution of queries ([DataView], in [src/unnamed/part_000]) *)

Module DataView.
Import Js.

Record DataviewQuery := {
  type : string;
  source : JsString;
  id : string
}.

(** *** The extraction regular expression

    [/```dataview\s+([\s\S]*?)```/g] matches, at a position, the opening
    fence, then white space, then lazily any text up to the next closing
    fence.  [\s+] is greedy and the text after the white space it takes
    starts with a character that is not white space, so giving white space
    back never finds a closing fence that the first attempt has missed:
    the capture group is the text between the end of the white space and
    the first closing fence after it. *)

Definition fence : JsString := lit "```".
Definition openingFence : JsString := lit "```dataview".

Fixpoint skipWhiteSpace (s : JsString) : JsString :=
  match s with
  | c :: s' => if isWhiteSpace c then skipWhiteSpace s' else s
  | [] => []
  end.

(** The text before the first closing fence, and the text after it. *)
Fixpoint splitAtFence (s : JsString) : option (JsString * JsString) :=
  match stripPrefix fence s with
  | Some after => Some ([], after)
  | None => match s with
            | [] => None
            | c :: s' => match splitAtFence s' with
                         | Some (before, after) => Some (c :: before, after)
                         | None => None
                         end
            end
  end.

(** A match that starts at the first character of [s]: its capture group
    and the text after the match. *)
Definition matchHere (s : JsString) : option (JsString * JsString) :=
  match stripPrefix openingFence s with
  | Some (c :: s') => if isWhiteSpace c then splitAtFence (skipWhiteSpace s') else None
  | _ => None
  end.

(** [dataviewRegex.exec] on the text from [lastIndex] on: the leftmost
    match, as its capture group and the text from the new [lastIndex]. *)
Fixpoint exec (s : JsString) : option (JsString * JsString) :=
  match matchHere s with
  | Some m => Some m
  | None => match s with
            | [] => None
            | _ :: s' => exec s'
            end
  end.

Lemma stripPrefix_length (p s rest : JsString) :
  stripPrefix p s = Some rest -> length s = length p + length rest.
Proof.
  revert s. induction p as [|a p IH]; intros s H.
  - by injection H as ->.
  - destruct s as [|b s]; simpl in H; [discriminate|].
    destruct (decide (a = b)); [|discriminate]. simpl. rewrite (IH _ H). lia.
Qed.

Lemma skipWhiteSpace_length (s : JsString) : length (skipWhiteSpace s) <= length s.
Proof.
  induction s as [|c s IH]; simpl; [lia|].
  destruct (isWhiteSpace c); simpl; lia.
Qed.

Lemma splitAtFence_unfold (s : JsString) :
  splitAtFence s =
    match stripPrefix fence s with
    | Some after => Some ([], after)
    | None => match s with
              | [] => None
              | c :: s' => match splitAtFence s' with
                           | Some (before, after) => Some (c :: before, after)
                           | None => None
                           end
              end
    end.
Proof. by destruct s. Qed.

Lemma exec_unfold (s : JsString) :
  exec s =
    match matchHere s with
    | Some m => Some m
    | None => match s with
              | [] => None
              | _ :: s' => exec s'
              end
    end.
Proof. by destruct s. Qed.

Lemma splitAtFence_length (s before after : JsString) :
  splitAtFence s = Some (before, after) -> length after < length s.
Proof.
  revert before. induction s as [|c s IH]; intros before; rewrite splitAtFence_unfold.
  - destruct (stripPrefix fence []) as [rest|] eqn:E; [|discriminate].
    apply stripPrefix_length in E. discriminate E.
  - destruct (stripPrefix fence (c :: s)) as [rest|] eqn:E.
    + intros H. injection H as <- <-. apply stripPrefix_length in E.
      change (length fence) with 3 in E. lia.
    + destruct (splitAtFence s) as [[b a]|]; [|discriminate].
      intros H. injection H as <- <-. specialize (IH _ eq_refl). simpl. lia.
Qed.

Lemma matchHere_length (s capture after : JsString) :
  matchHere s = Some (capture, after) -> length after < length s.
Proof.
  unfold matchHere. destruct (stripPrefix openingFence s) as [[|c s']|] eqn:E; try discriminate.
  destruct (isWhiteSpace c); [|discriminate].
  intros H%splitAtFence_length. apply stripPrefix_length in E.
  pose proof (skipWhiteSpace_length s'). simpl in E. lia.
Qed.

Lemma exec_length (s capture after : JsString) :
  exec s = Some (capture, after) -> length after < length s.
Proof.
  induction s as [|c s IH]; rewrite exec_unfold.
  - intros H. by vm_compute in H.
  - destruct (matchHere (c :: s)) as [m|] eqn:E.
    + intros H. injection H as ->. apply matchHere_length in E. exact E.
    + intros H. specialize (IH H). simpl. lia.
Qed.

(** *** [extractQueries] *)

Definition table : JsString := lit "TABLE".
Definition list_ : JsString := lit "LIST".

(** The [while] loop of [extractQueries]: [rest] is the content from the
    regular expression's [lastIndex] on, which every match moves forward. *)
Equations extractLoop (rest : JsString) (extractedQueries : list DataviewQuery)
    : list DataviewQuery by wf (length rest) lt :=
extractLoop rest extractedQueries with Logic.inspect (exec rest) := {
  | exist _ None _ => extractedQueries
  | exist _ (Some (queryContent, rest')) Hexec =>
      let id := "query-" +:+ pretty (length extractedQueries) in
      if includes table queryContent
      then extractLoop rest'
             (extractedQueries ++ [{| type := "table"; source := queryContent; id := id |}])
      else if includes list_ queryContent
      then extractLoop rest'
             (extractedQueries ++ [{| type := "list"; source := queryContent; id := id |}])
      else extractLoop rest' extractedQueries
}.
Next Obligation. eapply exec_length. exact Hexec. Qed.
Next Obligation. eapply exec_length. exact Hexec. Qed.
Next Obligation. eapply exec_length. exact Hexec. Qed.

(** The [queries] state that [extractQueries] sets for a [content]. *)
Definition extractQueries (content : JsString) : list DataviewQuery :=
  extractLoop content [].

(** The capture groups of all matches of the regular expression in a
    text, in order of appearance: the fenced dataview blocks of the text. *)
Equations matchAll (rest : JsString) : list JsString by wf (length rest) lt :=
matchAll rest with Logic.inspect (exec rest) := {
  | exist _ None _ => []
  | exist _ (Some (capture, rest')) Hexec => capture :: matchAll rest'
}.
Next Obligation. eapply exec_length. exact Hexec. Qed.

(** A block is kept when its text mentions [TABLE] or [LIST]; the first
    test decides the type. *)
Definition isQuery (capture : JsString) : bool :=
  includes table capture || includes list_ capture.

Definition typeOf (capture : JsString) : string :=
  if includes table capture then "table" else "list".

(** The query made of a kept block, the [n]-th one kept. *)
Definition numbered (n : nat) (capture : JsString) : DataviewQuery :=
  {| type := typeOf capture; source := capture; id := "query-" +:+ pretty n |}.

(** *** [executeQueries] *)

(** The body and the target of an [axios.post]. *)
Record ExecuteBody := {
  query : JsString;
  filePath : string;
  contextPath : string
}.

Record PostRequest := {
  url : string;
  body : ExecuteBody
}.

(** [response.data] of a fulfilled request; either field may be absent. *)
Record ResponseData := {
  response_columns : option (list JsString);
  response_data : option (list (list JsString))
}.

(** How a request settles.  A fulfilled response may come without
    [data]; a rejection carries [err.response?.data?.error] when the
    server has sent one. *)
Inductive Settled :=
  | Fulfilled (data : option ResponseData)
  | Rejected (serverError : option JsString).

Record DataviewResult := {
  result_id : string;
  columns : list JsString;
  data : list (list JsString);
  error : option JsString
}.

(** [a || b] on strings: the empty string is falsy. *)
Definition orElse (a : option JsString) (b : JsString) : JsString :=
  match a with
  | Some (c :: a') => c :: a'
  | _ => b
  end.

Definition failedToExecute : JsString := lit "Failed to execute query".

Definition errorResult (q : DataviewQuery) (serverError : option JsString) : DataviewResult :=
  {| result_id := id q; columns := []; data := [];
     error := Some (orElse serverError failedToExecute) |}.

(** The entry [queryResults[query.id]] that the loop body writes: the
    [try] block's on success, the [catch] block's on a rejection.  Reading
    [response.data.columns] of a response without data throws inside the
    [try] and ends in the same [catch], with an error that has no
    [response]. *)
Definition resultOf (q : DataviewQuery) (outcome : Settled) : DataviewResult :=
  match outcome with
  | Fulfilled (Some d) =>
      {| result_id := id q;
         columns := default [] (response_columns d);
         data := default [] (response_data d);
         error := None |}
  | Fulfilled None => errorResult q None
  | Rejected serverError => errorResult q serverError
  end.

Definition requestOf (path : string) (q : DataviewQuery) : PostRequest :=
  {| url := "/api/dataview/execute";
     body := {| query := source q; filePath := path; contextPath := path |} |}.

(** The state of the [for] loop: the requests sent so far and the
    [queryResults] object. *)
Record Execution := {
  sent : list PostRequest;
  queryResults : gmap string DataviewResult
}.

(** One iteration.  The backend is any function from the position of a
    request among those of this run, and the request, to its outcome. *)
Definition executeQuery (path : string) (backend : nat -> PostRequest -> Settled)
    (run : Execution) (q : DataviewQuery) : Execution :=
  let request := requestOf path q in
  {| sent := sent run ++ [request];
     queryResults :=
       <[id q := resultOf q (backend (length (sent run)) request)]> (queryResults run) |}.

(** [executeQueries]: the requests it posts and the [results] state it
    sets.  Nothing outside the inner [try] can throw, so the outer [catch]
    is never entered. *)
Definition executeQueries (path : string) (queries : list DataviewQuery)
    (backend : nat -> PostRequest -> Settled) : Execution :=
  foldl (executeQuery path backend) {| sent := []; queryResults := ∅ |} queries.

(** The effect on [queries]: nothing is executed for an empty list. *)
Definition onQueriesChange (path : string) (queries : list DataviewQuery)
    (backend : nat -> PostRequest -> Settled) : option Execution :=
  if decide (0 < length queries) then Some (executeQueries path queries backend) else None.

(** A content with two queries, and a backend that rejects the first
    request of a run and answers every other one. *)
Definition twoQueries : JsString :=
  lit "```dataview TABLE a``` and ```dataview LIST b```".

Definition failFirst (n : nat) (request : PostRequest) : Settled :=
  match n with
  | 0 => Rejected None
  | _ => Fulfilled (Some {| response_columns := Some [lit "File"];
                            response_data := Some [[lit "b.md"]] |})
  end.

End DataView.

(** ** Authentication and application contexts ([AuthContext], [AppContext], in [src/unnamed/part_004]) *)

Module Contexts.

Record User := {
  username : string;
  email : option string;
  full_name : option string;
  disabled : option bool
}.

Inductive Theme := light | dark.

Definition themeName (t : Theme) : string :=
  match t with light => "light" | dark => "dark" end.

(** What the two providers hold and what they reach in the browser:
    [window.localStorage], the router's location, the [data-theme]
    attribute of the document element, and their [useState] cells. *)
Record Client := {
  localStorage : gmap string string;
  location : string;
  dataTheme : option string;
  user : option User;
  authLoading : bool;
  authError : option string;
  theme : Theme;
  isLeftNavCollapsed : bool
}.

(** *** [AppProvider] *)

(** The lazy initial states of [theme] and [isLeftNavCollapsed]. *)
Definition initialTheme (storage : gmap string string) : Theme :=
  if decide (storage !! "theme" = Some "dark") then dark else light.

Definition initialLeftNavCollapsed (storage : gmap string string) : bool :=
  bool_decide (storage !! "leftNavCollapsed" = Some "true").

Definition toggleTheme (c : Client) : Client :=
  let newTheme := match theme c with light => dark | dark => light end in
  {| localStorage := <["theme" := themeName newTheme]> (localStorage c);
     location := location c;
     dataTheme := Some (themeName newTheme);
     user := user c; authLoading := authLoading c; authError := authError c;
     theme := newTheme;
     isLeftNavCollapsed := isLeftNavCollapsed c |}.

(** [String(b)] *)
Definition String_of_bool (b : bool) : string := if b then "true" else "false".

Definition toggleLeftNav (c : Client) : Client :=
  {| localStorage :=
       <["leftNavCollapsed" := String_of_bool (negb (isLeftNavCollapsed c))]> (localStorage c);
     location := location c;
     dataTheme := dataTheme c;
     user := user c; authLoading := authLoading c; authError := authError c;
     theme := theme c;
     isLeftNavCollapsed := negb (isLeftNavCollapsed c) |}.

(** *** [AuthProvider] *)

(** [error.response] of an axios error: its status and the [detail] of
    its body when there is one.  The client leaves axios's
    [validateStatus] as it is, so every response with a status outside
    200-299, a 401 among them, reaches the caller as a rejection that
    carries the response.  An error without response is a network
    failure. *)
Record ErrorResponse := {
  status : Z;
  detail : option string
}.

Record AxiosError := {
  response : option ErrorResponse
}.

Inductive Settled (A : Type) :=
  | Fulfilled (data : A)
  | Rejected (error : AxiosError).
Arguments Fulfilled {A} data.
Arguments Rejected {A} error.

Definition navigate (to : string) (c : Client) : Client :=
  {| localStorage := localStorage c; location := to; dataTheme := dataTheme c;
     user := user c; authLoading := authLoading c; authError := authError c;
     theme := theme c; isLeftNavCollapsed := isLeftNavCollapsed c |}.

Definition setUser (u : option User) (c : Client) : Client :=
  {| localStorage := localStorage c; location := location c; dataTheme := dataTheme c;
     user := u; authLoading := authLoading c; authError := authError c;
     theme := theme c; isLeftNavCollapsed := isLeftNavCollapsed c |}.

Definition setIsLoading (b : bool) (c : Client) : Client :=
  {| localStorage := localStorage c; location := location c; dataTheme := dataTheme c;
     user := user c; authLoading := b; authError := authError c;
     theme := theme c; isLeftNavCollapsed := isLeftNavCollapsed c |}.

Definition setError (e : option string) (c : Client) : Client :=
  {| localStorage := localStorage c; location := location c; dataTheme := dataTheme c;
     user := user c; authLoading := authLoading c; authError := e;
     theme := theme c; isLeftNavCollapsed := isLeftNavCollapsed c |}.

Definition localStorage_setItem (key value : string) (c : Client) : Client :=
  {| localStorage := <[key := value]> (localStorage c);
     location := location c; dataTheme := dataTheme c;
     user := user c; authLoading := authLoading c; authError := authError c;
     theme := theme c; isLeftNavCollapsed := isLeftNavCollapsed c |}.

Definition localStorage_removeItem (key : string) (c : Client) : Client :=
  {| localStorage := delete key (localStorage c);
     location := location c; dataTheme := dataTheme c;
     user := user c; authLoading := authLoading c; authError := authError c;
     theme := theme c; isLeftNavCollapsed := isLeftNavCollapsed c |}.

Definition logout (c : Client) : Client :=
  navigate "/login" (setUser None (localStorage_removeItem "token" c)).

(** The rejection handler of the response interceptor.  The error is
    passed on to the caller in every case ([Promise.reject(error)]). *)
Definition onResponseError (error : AxiosError) (c : Client) : Client :=
  match response error with
  | Some r => if decide (status r = 401%Z) then navigate "/login" (logout c) else c
  | None => c
  end.

(** A response on its way to the caller: fulfilled ones pass the
    interceptor unchanged, rejected ones run its rejection handler. *)
Definition intercept {A} (outcome : Settled A) (c : Client) : Client :=
  match outcome with
  | Fulfilled _ => c
  | Rejected error => onResponseError error c
  end.

(** [err.response?.data?.detail || 'Failed to login. Please try again.'] *)
Definition loginErrorMessage (error : AxiosError) : string :=
  match response error with
  | Some {| detail := Some (String a d) |} => String a d
  | _ => "Failed to login. Please try again."
  end.

(** [login], given how the token request and the user request settle. *)
Definition login (tokenResponse : Settled string) (userResponse : Settled User)
    (c : Client) : Client :=
  let c := setError None (setIsLoading true c) in
  let c := intercept tokenResponse c in
  match tokenResponse with
  | Rejected error => setIsLoading false (setError (Some (loginErrorMessage error)) c)
  | Fulfilled access_token =>
      let c := localStorage_setItem "token" access_token c in
      let c := intercept userResponse c in
      match userResponse with
      | Rejected error => setIsLoading false (setError (Some (loginErrorMessage error)) c)
      | Fulfilled userData =>
          setIsLoading false (navigate "/dashboard" (setUser (Some userData) c))
      end
  end.

(** [checkAuth], run once when the provider mounts.  [!token] holds for
    a missing token and for the empty string. *)
Definition checkAuth (userResponse : Settled User) (c : Client) : Client :=
  match localStorage c !! "token" with
  | None | Some EmptyString => setIsLoading false c
  | Some _ =>
      let c := intercept userResponse c in
      match userResponse with
      | Fulfilled userData => setIsLoading false (setUser (Some userData) c)
      | Rejected _ => setIsLoading false (localStorage_removeItem "token" c)
      end
  end.

(** *** The operations of the two providers *)

Inductive Operation :=
  | ToggleTheme
  | ToggleLeftNav
  | Login (tokenResponse : Settled string) (userResponse : Settled User)
  | Logout
  | CheckAuth (userResponse : Settled User)
  | ResponseError (error : AxiosError).

Definition step (c : Client) (op : Operation) : Client :=
  match op with
  | ToggleTheme => toggleTheme c
  | ToggleLeftNav => toggleLeftNav c
  | Login tokenResponse userResponse => login tokenResponse userResponse c
  | Logout => logout c
  | CheckAuth userResponse => checkAuth userResponse c
  | ResponseError error => onResponseError error c
  end.

(** The state of the two providers once they are mounted on a page
    loaded at [url] with a given local storage: the initial [useState]
    values, and the [data-theme] attribute the mount effect sets. *)
Definition load (storage : gmap string string) (url : string) : Client :=
  {| localStorage := storage; location := url;
     dataTheme := Some (themeName (initialTheme storage));
     user := None; authLoading := true; authError := None;
     theme := initialTheme storage;
     isLeftNavCollapsed := initialLeftNavCollapsed storage |}.

(** The keys the client writes in local storage. *)
Definition ownedKeys : list string := ["token"; "theme"; "leftNavCollapsed"].

(** A signed-in client, and a response that the server refuses. *)
Definition signedIn : Client :=
  {| localStorage := <["token" := "abc"]> (<["theme" := "dark"]> ∅);
     location := "/editor/notes.md"; dataTheme := Some "dark";
     user := Some {| username := "ada"; email := None; full_name := None; disabled := None |};
     authLoading := false; authError := None;
     theme := dark; isLeftNavCollapsed := false |}.

Definition unauthorized : AxiosError :=
  {| response := Some {| status := 401; detail := Some "Not authenticated" |} |}.

End Contexts.

(** ** Reader: rendered markdown ([Reader], in [src/unnamed/part_003]) *)

Module Reader.
Import Js.

Record RenderRequest := {
  url : string;
  content : JsString;
  filePath : option string;
  includeDataViews : bool;
  resolveLinks : bool
}.

(** The request of [renderMarkdown]. *)
Definition renderRequest (content : JsString) (filePath : option string) : RenderRequest :=
  {| url := "/api/render/markdown";
     content := content; filePath := filePath;
     includeDataViews := true; resolveLinks := true |}.

Record State := {
  renderedContent : JsString;
  loading : bool;
  error : option string;
  posted : list RenderRequest
}.

Definition initial : State :=
  {| renderedContent := []; loading := false; error := None; posted := [] |}.

(** What happens to a mounted reader: the effect on [content] and
    [filePath] runs, or one of its requests settles.  Requests are not
    cancelled and settle in any order. *)
Inductive Event :=
  | ContentChanged (content : JsString) (filePath : option string)
  | RenderFulfilled (html : JsString)
  | RenderRejected.

Definition step (st : State) (ev : Event) : State :=
  match ev with
  | ContentChanged [] _ =>
      {| renderedContent := []; loading := loading st; error := error st;
         posted := posted st |}
  | ContentChanged content filePath =>
      {| renderedContent := renderedContent st; loading := true; error := error st;
         posted := posted st ++ [renderRequest content filePath] |}
  | RenderFulfilled html =>
      {| renderedContent := html; loading := false; error := None; posted := posted st |}
  | RenderRejected =>
      {| renderedContent := renderedContent st; loading := false;
         error := Some "Failed to render content"; posted := posted st |}
  end.

Definition run (events : list Event) : State := foldl step initial events.

(** What the component returns: one of the two notices, or the element
    whose [dangerouslySetInnerHTML] is the given HTML. *)
Inductive View :=
  | Rendering
  | ErrorText (message : string)
  | InnerHTML (html : JsString).

Section WithSanitizer.

(** [DOMPurify.sanitize] *)
Variable sanitize : JsString -> JsString.

Definition view (st : State) : View :=
  if loading st then Rendering
  else match error st with
       | Some message => ErrorText message
       | None => InnerHTML (sanitize (renderedContent st))
       end.

End WithSanitizer.

(** A sanitizer for the examples: it drops every [<]. *)
Definition dropAngles (html : JsString) : JsString :=
  filter (fun c => c <> 60%N) html.

End Reader.

(** ** Debouncing ([useDebounce], imported from [../hooks/useDebounce]) *)

Module Debounce.

Section Hook.

Context {A : Type} `{EqDecision A}.

(** The [delay] argument, in milliseconds. *)
Variable delay : nat.

(** Modelled from the spec: the hook [useDebounce], whose file
    [hooks/useDebounce] is not among the sources.  The specification says
    that a debounce delays the input by a fixed interval: the hook returns
    its initial argument until the argument has stayed the same for
    [delay] milliseconds, and then returns that argument.  [timer] is the
    time left before the pending update, if one is pending. *)
Record Hook := {
  value : A;
  debouncedValue : A;
  timer : option nat
}.

(** Modelled from the spec: the hook at the first render, before any
    delay has passed. *)
Definition useDebounce (initialValue : A) : Hook :=
  {| value := initialValue; debouncedValue := initialValue; timer := None |}.

(** What the hook sees: a render with a new argument, a millisecond that
    passes, or anything else. *)
Inductive Input :=
  | Change (v : A)
  | Elapse
  | Other.

(** Modelled from the spec: a render with a different argument restarts
    the delay, a render with the same argument does not, and the update
    happens when the delay has passed. *)
Definition hookStep (h : Hook) (i : Input) : Hook :=
  match i with
  | Change v =>
      if decide (v = value h) then h
      else {| value := v; debouncedValue := debouncedValue h; timer := Some delay |}
  | Elapse =>
      match timer h with
      | Some r =>
          if decide (r <= 1)
          then {| value := value h; debouncedValue := value h; timer := None |}
          else {| value := value h; debouncedValue := debouncedValue h;
                  timer := Some (r - 1) |}
      | None => h
      end
  | Other => h
  end.

(** The input and the time for which it has been unchanged, read off a
    sequence of inputs alone. *)
Definition quietStep (s : A * nat) (i : Input) : A * nat :=
  match i with
  | Change v => if decide (v = s.1) then s else (v, 0)
  | Elapse => (s.1, S s.2)
  | Other => s
  end.

Definition current (initialValue : A) (inputs : list Input) : A :=
  (foldl quietStep (initialValue, 0) inputs).1.

Definition quiet (initialValue : A) (inputs : list Input) : nat :=
  (foldl quietStep (initialValue, 0) inputs).2.

(** The hook after a sequence of inputs. *)
Definition hookAfter (initialValue : A) (inputs : list Input) : Hook :=
  foldl hookStep (useDebounce initialValue) inputs.

End Hook.

Arguments Hook A : clear implicits.
Arguments Input A : clear implicits.

End Debounce.

(** ** Editor: auto-save ([Editor], in [src/unnamed/part_000]) *)

Module Editor.
Import Js Debounce.

Record SaveRequest := {
  url : string;
  path : string;
  content : JsString
}.

(** [useDebounce(content, 1000)] *)
Definition autoSaveDelay : nat := 1000.

(** The state of a mounted editor.  The [content] cell is the argument
    of the debounce hook, and is kept there; [inFlight] is the
    [contentToSave] of the call of [saveContent] that awaits its
    response, and [saves] are the requests posted so far.  The [filePath]
    property is a parameter of the functions below, empty when the
    property is missing. *)
Record State := {
  debounce : Hook JsString;
  originalContent : JsString;
  saving : bool;
  inFlight : option JsString;
  loading : bool;
  error : option string;
  saves : list SaveRequest
}.

Definition contentOf (st : State) : JsString := value (debounce st).
Definition debouncedContent (st : State) : JsString := debouncedValue (debounce st).

Definition initial : State :=
  {| debounce := useDebounce [];
     originalContent := []; saving := false; inFlight := None;
     loading := true; error := None; saves := [] |}.

Inductive Event :=
  | Loaded (fileContent : JsString)
  | LoadFailed
  | Edit (newValue : JsString)
  | Tick
  | SaveFulfilled
  | SaveRejected.

(** What an event is to the debounce hook. *)
Definition inputOf (ev : Event) : Input JsString :=
  match ev with
  | Loaded fileContent => Change fileContent
  | Edit newValue => Change newValue
  | Tick => Elapse
  | _ => Other
  end.

(** The state updates of an event, before any effect runs. *)
Definition update (st : State) (ev : Event) : State :=
  let hook := hookStep autoSaveDelay (debounce st) (inputOf ev) in
  match ev with
  | Loaded fileContent =>
      {| debounce := hook; originalContent := fileContent;
         saving := saving st; inFlight := inFlight st;
         loading := false; error := None; saves := saves st |}
  | LoadFailed =>
      {| debounce := hook; originalContent := originalContent st;
         saving := saving st; inFlight := inFlight st;
         loading := false; error := Some "Failed to load file content"; saves := saves st |}
  | Edit _ | Tick =>
      {| debounce := hook; originalContent := originalContent st;
         saving := saving st; inFlight := inFlight st;
         loading := loading st; error := error st; saves := saves st |}
  | SaveFulfilled =>
      match inFlight st with
      | Some contentToSave =>
          {| debounce := hook; originalContent := contentToSave;
             saving := false; inFlight := None;
             loading := loading st; error := error st; saves := saves st |}
      | None => st
      end
  | SaveRejected =>
      match inFlight st with
      | Some _ =>
          {| debounce := hook; originalContent := originalContent st;
             saving := false; inFlight := None;
             loading := loading st; error := Some "Failed to save changes";
             saves := saves st |}
      | None => st
      end
  end.

(** [saveContent] *)
Definition saveContent (filePath : string) (contentToSave : JsString) (st : State) : State :=
  if bool_decide (filePath = EmptyString) || saving st then st
  else {| debounce := debounce st; originalContent := originalContent st;
          saving := true; inFlight := Some contentToSave;
          loading := loading st; error := error st;
          saves := saves st ++ [{| url := "/api/files/save"; path := filePath;
                                   content := contentToSave |}] |}.

(** The auto-save effect. *)
Definition autoSave (filePath : string) (st : State) : State :=
  if bool_decide (debouncedContent st <> []) && bool_decide (debouncedContent st <> originalContent st)
  then saveContent filePath (debouncedContent st) st
  else st.

(** An event, the render it causes and the effect of that render: the
    auto-save effect runs when [debouncedContent] or [originalContent]
    has changed.  The updates of one event are rendered together (React 18
    batches them), so the [saving] that [saveContent] reads is the one the
    event leaves. *)
Definition step (filePath : string) (st : State) (ev : Event) : State :=
  let st' := update st ev in
  if bool_decide (debouncedContent st' = debouncedContent st
                  /\ originalContent st' = originalContent st)
  then st'
  else autoSave filePath st'.

Definition run (filePath : string) (events : list Event) : State :=
  foldl (step filePath) initial events.

(** The time for which the editor's content has been unchanged after a
    sequence of events. *)
Definition quietFor (events : list Event) : nat := quiet [] (inputOf <$> events).

(** A slow save: when its response arrives ([SaveFulfilled], the next
    event) a second request leaves, a millisecond after a keystroke. *)
Definition slowSave : list Event :=
  [Loaded (lit "x"); Edit (lit "a")] ++ replicate 1000 Tick
  ++ [Edit (lit "ab")] ++ replicate 1000 Tick
  ++ [Edit (lit "abc"); Tick].

Definition saveOf (filePath : string) (text : string) : SaveRequest :=
  {| url := "/api/files/save"; path := filePath; content := lit text |}.

End Editor.

(** ** Search: the debounced query ([Search], in [src/search.tsx]) *)

Module Search.
Import Js Debounce.

Record SearchOptions := {
  case_sensitive : bool;
  regex : bool;
  sort_by : string
}.

Record SearchRequest := {
  url : string;
  query : JsString;
  options : SearchOptions;
  include_content : bool;
  limit : nat;
  offset : nat
}.

(** [useDebounce(query, 300)] *)
Definition searchDelay : nat := 300.

(** The [query] cell is the argument of the debounce hook.  [results]
    holds the file paths of the results; [searches] and [suggestionCalls]
    are the requests sent so far, the latter by their query. *)
Record State := {
  debounce : Hook JsString;
  searchOptions : SearchOptions;
  results : list JsString;
  searches : list SearchRequest;
  suggestionCalls : list JsString
}.

Definition queryOf (st : State) : JsString := value (debounce st).
Definition debouncedQuery (st : State) : JsString := debouncedValue (debounce st).

Definition initial : State :=
  {| debounce := useDebounce [];
     searchOptions := {| case_sensitive := false; regex := false; sort_by := "relevance" |};
     results := []; searches := []; suggestionCalls := [] |}.

(** What happens to a mounted search box: the input changes (typing, or
    choosing a suggestion), a millisecond passes, an option is set, the
    Search button is clicked, or a search request settles. *)
Inductive Event :=
  | Typed (newQuery : JsString)
  | Tick
  | OptionsSet (newOptions : SearchOptions)
  | SearchClicked
  | SearchFulfilled (found : list JsString)
  | SearchRejected.

Definition inputOf (ev : Event) : Input JsString :=
  match ev with
  | Typed newQuery => Change newQuery
  | Tick => Elapse
  | _ => Other
  end.

Definition update (st : State) (ev : Event) : State :=
  let hook := hookStep searchDelay (debounce st) (inputOf ev) in
  match ev with
  | Typed _ | Tick | SearchClicked | SearchRejected =>
      {| debounce := hook; searchOptions := searchOptions st; results := results st;
         searches := searches st; suggestionCalls := suggestionCalls st |}
  | OptionsSet newOptions =>
      {| debounce := hook; searchOptions := newOptions; results := results st;
         searches := searches st; suggestionCalls := suggestionCalls st |}
  | SearchFulfilled found =>
      {| debounce := hook; searchOptions := searchOptions st; results := found;
         searches := searches st; suggestionCalls := suggestionCalls st |}
  end.

(** The request of [performSearch]. *)
Definition searchRequest (st : State) : SearchRequest :=
  {| url := "/api/search/query"; query := debouncedQuery st;
     options := searchOptions st; include_content := true;
     limit := 20; offset := 0 |}.

(** [performSearch] *)
Definition performSearch (st : State) : State :=
  match debouncedQuery st with
  | [] => st
  | _ =>
      {| debounce := debounce st; searchOptions := searchOptions st; results := results st;
         searches := searches st ++ [searchRequest st];
         suggestionCalls := suggestionCalls st |}
  end.

(** A click on the Search button, which is disabled while the debounced
    query has fewer than two code units. *)
Definition clickSearch (st : State) : State :=
  if decide (length (debouncedQuery st) < 2) then st else performSearch st.

(** The effect on [debouncedQuery] and [searchOptions]. *)
Definition searchEffect (st : State) : State :=
  if decide (2 < length (debouncedQuery st)) then performSearch st
  else {| debounce := debounce st; searchOptions := searchOptions st; results := [];
          searches := searches st; suggestionCalls := suggestionCalls st |}.

(** The effect on [query], which is not debounced. *)
Definition suggestionEffect (st : State) : State :=
  if decide (1 < length (queryOf st))
  then {| debounce := debounce st; searchOptions := searchOptions st; results := results st;
          searches := searches st;
          suggestionCalls := suggestionCalls st ++ [queryOf st] |}
  else st.

(** An event, its render and the effects of that render.  Every
    [setSearchOptions] stores a new object, so the search effect runs
    after it whatever the options are. *)
Definition step (st : State) (ev : Event) : State :=
  match ev with
  | SearchClicked => clickSearch st
  | _ =>
    let st' := update st ev in
    let st' := if bool_decide (debouncedQuery st' = debouncedQuery st)
                  && negb (match ev with OptionsSet _ => true | _ => false end)
               then st' else searchEffect st' in
    if bool_decide (queryOf st' = queryOf st) then st' else suggestionEffect st'
  end.

Definition run (events : list Event) : State := foldl step initial events.

Definition quietFor (events : list Event) : nat := quiet [] (inputOf <$> events).

(** Three keystrokes and 299 milliseconds: the next millisecond
    completes the interval. *)
Definition typedAbc : list Event :=
  [Typed (lit "a"); Typed (lit "ab"); Typed (lit "abc")] ++ replicate 299 Tick.

End Search.

(** ** The search hook ([useSearch], in [src/useSearch.tsx]) *)

Module UseSearch.
Import Js.

Record SearchOptions := {
  case_sensitive : option bool;
  regex : option bool;
  include_content : option bool;
  paths : option (list string);
  limit : option nat;
  offset : option nat;
  sort_by : option string
}.

Record SearchRequest := {
  url : string;
  query : JsString;
  request_case_sensitive : bool;
  request_regex : bool;
  request_include_content : bool;
  request_paths : list string;
  request_limit : nat;
  request_offset : nat;
  request_sort_by : string
}.

(** [n || d] on numbers: zero is falsy. *)
Definition orNat (n : option nat) (d : nat) : nat :=
  match n with Some (S k) => S k | _ => d end.

(** [s || d] on strings: the empty string is falsy. *)
Definition orString (s : option string) (d : string) : string :=
  match s with Some (String a r) => String a r | _ => d end.

Definition searchRequest (query : JsString) (options : SearchOptions) : SearchRequest :=
  {| url := "/api/search/query";
     query := query;
     request_case_sensitive := default false (case_sensitive options);
     request_regex := default false (regex options);
     request_include_content := default true (include_content options);
     request_paths := default [] (paths options);
     request_limit := orNat (limit options) 100;
     request_offset := orNat (offset options) 0;
     request_sort_by := orString (sort_by options) "relevance" |}.

(** The request of [searchFiles], if it sends one: an empty query and a
    query of white space only clear the results instead. *)
Definition searchFiles (query : JsString) (options : SearchOptions) : option SearchRequest :=
  if forallb isWhiteSpace query then None
  else Some (searchRequest query options).

End UseSearch.

(** ** The API service and the file service (in [src/useSearch.tsx]) *)

Module ApiService.

Record FetchCall := {
  url : string;
  method : string
}.

Section WithEnvironment.

(** [process.env.REACT_APP_API_URL || 'http://localhost:8000'] and the
    built-in [encodeURIComponent]. *)
Variable API_BASE_URL : string.
Variable encodeURIComponent : string -> string.

(** The URL and the method of the [fetch] of [request]. *)
Definition request (endpoint method : string) : FetchCall :=
  {| url := API_BASE_URL +:+ endpoint; method := method |}.

Definition markdownAPI_renderMarkdown : FetchCall :=
  request "/api/markdown/render" "POST".

Definition markdownAPI_exportToPdf (path : string) : FetchCall :=
  request ("/api/pdf/export?path=" +:+ encodeURIComponent path) "GET".

Definition dataViewAPI_executeQuery : FetchCall :=
  request "/api/dataview/query" "POST".

Definition searchAPI_searchFiles (query : string) : FetchCall :=
  request ("/api/search?q=" +:+ encodeURIComponent query) "GET".

(** [fileService.searchFiles]: an [axios.get] with the query as
    parameters. *)
Definition fileService_searchFiles : FetchCall :=
  {| url := API_BASE_URL +:+ "/search"; method := "GET" |}.

(** [handleExportToPDF] of the editor page ([src/pages/EditorPage.tsx]):
    the address it opens in a new window. *)
Definition editorPage_handleExportToPDF (decodedPath : string) : FetchCall :=
  {| url := API_BASE_URL +:+ "/pdf/export?path=" +:+ encodeURIComponent decodedPath;
     method := "GET" |}.

End WithEnvironment.

End ApiService.

(** ** The operations delegated to the backend *)

Module Delegation.

Inductive Operation :=
  | MarkdownRendering
  | DataviewExecution
  | KanbanParsing
  | PdfExport
  | FullTextSearch.

(** The endpoint that the specification gives for each operation. *)
Definition endpointOf (op : Operation) : string :=
  match op with
  | MarkdownRendering => "/api/markdown/render"
  | DataviewExecution => "/api/dataview/execute"
  | KanbanParsing => "/api/kanban/parse"
  | PdfExport => "/api/export/pdf"
  | FullTextSearch => "/api/search/query"
  end.

End Delegation.

(** ** PDF viewer: the zoom handlers ([src/PDFViewer.tsx]) *)

Module PDFViewer.

#[local] Open Scope float_scope.
#[local] Set Warnings "-inexact-float".

(** [Math.min] and [Math.max] on IEEE 754 binary64 numbers: NaN is
    contagious and the negative zero is below the positive one. *)
Definition Math_min (x y : float) : float :=
  if is_nan x || is_nan y then nan
  else if x <? y then x
  else if y <? x then y
  else if get_sign x then x else y.

Definition Math_max (x y : float) : float :=
  if is_nan x || is_nan y then nan
  else if y <? x then x
  else if x <? y then y
  else if get_sign x then y else x.

(** [const [scale, setScale] = useState<number>(1.0)] *)
Definition initialScale : float := 1.0.

(** The three handlers are functional updates of [scale]. *)
Definition handleZoomIn (prevScale : float) : float :=
  Math_min (prevScale + 0.1) 2.0.

Definition handleZoomOut (prevScale : float) : float :=
  Math_max (prevScale - 0.1) 0.5.

Definition handleZoomReset (_ : float) : float := 1.0.

Inductive ZoomOp := ZoomIn | ZoomOut | ZoomReset.

Definition zoom (scale : float) (op : ZoomOp) : float :=
  match op with
  | ZoomIn => handleZoomIn scale
  | ZoomOut => handleZoomOut scale
  | ZoomReset => handleZoomReset scale
  end.

(** The scale after a sequence of clicks on the toolbar. *)
Definition scaleAfter (ops : list ZoomOp) : float :=
  fold_left zoom ops initialScale.

Definition inRange (s : float) : bool := (0.5 <=? s) && (s <=? 2.0).

(** The request of [generatePDF]. *)
Record PdfRequest := {
  url : string;
  markdown : Js.JsString;
  fileName : string;
  responseType : string
}.

Definition pdfRequest (markdownContent : Js.JsString) (fileName : string) : PdfRequest :=
  {| url := "/api/export/pdf"%string; markdown := markdownContent; fileName := fileName;
     responseType := "blob"%string |}.

(** The scales one click away from [s]. *)
Definition successors (s : float) : list float :=
  [handleZoomIn s; handleZoomOut s; handleZoomReset s].

Definition addNew (seen : list float) (x : float) : list float :=
  if existsb (PrimFloat.eqb x) seen then seen else seen ++ [x].

Fixpoint saturate (rounds : nat) (seen : list float) : list float :=
  match rounds with
  | O => seen
  | S n => saturate n (fold_left addNew (flat_map successors seen) seen)
  end.

(** Every binary64 value the scale can take.  Rounding makes the set
    larger than the sixteen decimal steps: [0.5000000000000001] is in it. *)
Definition reachableScales : list float :=
  Eval vm_compute in saturate 32 [initialScale].

End PDFViewer.

(** ** Breadcrumbs ([getBreadcrumbs] of [AppProvider], in [src/unnamed/part_004]) *)

Module Breadcrumbs.
Import Js.

(** The code unit of [/]. *)
Definition slash : N := 47%N.

(** [s.split('/')]: the pieces between the slashes, empty ones included;
    the empty string has one empty piece. *)
Fixpoint split (s : JsString) : list JsString :=
  match s with
  | [] => [[]]
  | c :: s' =>
      if decide (c = slash) then [] :: split s'
      else match split s' with
           | piece :: pieces => (c :: piece) :: pieces
           | [] => [[c]]
           end
  end.

(** [pieces.filter(Boolean)]: the empty string is the only falsy string. *)
Definition nonEmpty (pieces : list JsString) : list JsString :=
  filter (fun piece => piece <> []) pieces.

Definition home : JsString := lit "Home".

Definition getBreadcrumbs (path : JsString) : list JsString :=
  match path with
  | [] => []
  | _ => home :: nonEmpty (split path)
  end.

(** [pieces.join('/')] *)
Fixpoint join (pieces : list JsString) : JsString :=
  match pieces with
  | [] => []
  | [piece] => piece
  | piece :: pieces' => piece ++ slash :: join pieces'
  end.

(** [handleDeleteFile] of [EditorPage] goes back to the parent of the
    deleted file: [split('/')], [pop()], [join('/')], and then
    [parentPath || '/'].  [decodedPath] is the path after
    [decodeURIComponent]. *)
Definition parentPath (decodedPath : JsString) : JsString :=
  join (removelast (split decodedPath)).

Definition parentTarget (decodedPath : JsString) : JsString :=
  match parentPath decodedPath with
  | [] => [slash]
  | parent => parent
  end.

End Breadcrumbs.

(** ** Protected routes ([ProtectedRoute] and [AppRoutes], in [src/unnamed/part_004]) *)

Module Routes.
Import Contexts.

(** The values the route guard meets when it reads the context value. *)
Inductive JsValue :=
  | Undefined
  | Null
  | Boolean (b : bool)
  | Text (s : string)
  | Object.

(** [Boolean(v)] *)
Definition truthy (v : JsValue) : bool :=
  match v with
  | Undefined | Null => false
  | Boolean b => b
  | Text s => negb (bool_decide (s = EmptyString))
  | Object => true
  end.

(** The object [value] that [AuthProvider] gives to its context: it has
    the five properties [user], [isLoading], [login], [logout] and
    [error], the two functions being objects. *)
Definition authValue (c : Client) : gmap string JsValue :=
  <["user" := match user c with Some _ => Object | None => Null end]>
  (<["isLoading" := Boolean (authLoading c)]>
   (<["login" := Object]>
    (<["logout" := Object]>
     (<["error" := match authError c with Some e => Text e | None => Null end]> ∅)))).

(** Reading a property of an object: [undefined] when it has none of
    that name. *)
Definition property (o : gmap string JsValue) (name : string) : JsValue :=
  default Undefined (o !! name).

Inductive Page := LoginPage | DashboardPage | EditorPage.

Inductive Element :=
  | Spinner
  | Navigate (to : string)
  | Show (page : Page).

(** [ProtectedRoute], which destructures [isAuthenticated] and
    [isLoading] from [useAuth()]. *)
Definition ProtectedRoute (value : gmap string JsValue) (children : Page) : Element :=
  let isAuthenticated := property value "isAuthenticated" in
  let isLoading := property value "isLoading" in
  if truthy isLoading then Spinner
  else if negb (truthy isAuthenticated) then Navigate "/login"
  else Show children.

(** The four routes of [AppRoutes]. *)
Inductive Route :=
  | LoginRoute
  | RootRoute
  | EditorRoute
  | OtherRoute.

Definition element (value : gmap string JsValue) (route : Route) : Element :=
  match route with
  | LoginRoute => Show LoginPage
  | RootRoute => ProtectedRoute value DashboardPage
  | EditorRoute => ProtectedRoute value EditorPage
  | OtherRoute => Navigate "/"
  end.

End Routes.

(** ** Toasts ([ToastProvider], in [src/components/Toast.tsx]) *)

Module Toasts.

Inductive ToastType := success | error | warning | info.

Record Toast := {
  id : string;
  message : string;
  type : ToastType;
  duration : nat
}.

(** [addToast]: [id] is the string made of [Math.random()], and the
    duration is 5000 when the caller gives none. *)
Definition addToast (id message : string) (type : ToastType) (duration : option nat)
    (prevToasts : list Toast) : list Toast :=
  prevToasts ++ [{| id := id; message := message; type := type;
                    duration := default 5000 duration |}].

(** [removeToast] *)
Definition removeToast (id' : string) (prevToasts : list Toast) : list Toast :=
  filter (fun toast => id toast <> id') prevToasts.

(** [ToastItem] starts a timer only for a truthy duration. *)
Definition hasTimer (toast : Toast) : bool :=
  negb (bool_decide (duration toast = 0)).

End Toasts.

(** ** What the editor shows ([Editor], in [src/unnamed/part_000]) *)

Module EditorView.
Import Js Editor.

(** What the component returns: one of the two notices, or the pane with
    the Monaco editor and the preview. *)
Inductive View :=
  | LoadingNotice
  | ErrorNotice (message : string)
  | EditorPane.

Definition view (st : State) : View :=
  if loading st then LoadingNotice
  else match error st with
       | Some message => ErrorNotice message
       | None => EditorPane
       end.

(** The events that are responses to a save request. *)
Definition isSaveResponse (ev : Event) : bool :=
  match ev with
  | SaveFulfilled | SaveRejected => true
  | _ => false
  end.

(** The events that are responses to the load request. *)
Definition isLoaded (ev : Event) : bool :=
  match ev with
  | Loaded _ => true
  | _ => false
  end.

(** A save that fails: the file is loaded, edited, left alone for a
    second, and the save request is rejected. *)
Definition failedSave : list Event :=
  [Loaded (lit "x"); Edit (lit "a")] ++ replicate 1000 Tick ++ [SaveRejected].

End EditorView.

(** ** Highlighting a match ([highlightMatch], in [src/search.tsx]) *)

Module Highlight.
Import Js.

(** An index argument of [substring] brought into the string: below
    zero it is zero, beyond the length it is the length.  The indices
    are the integer positions that a search result carries. *)
Definition clamp (len : nat) (i : Z) : nat :=
  Z.to_nat (Z.min (Z.max i 0) (Z.of_nat len)).

(** [s.substring(start, end)]: both indices are clamped, and swapped
    when the first one is the greater. *)
Definition substring (s : JsString) (start end_ : Z) : JsString :=
  let finalStart := clamp (length s) start in
  let finalEnd := clamp (length s) end_ in
  let from := Nat.min finalStart finalEnd in
  let to := Nat.max finalStart finalEnd in
  take (to - from) (drop from s).

(** [s.substring(start)]: the end is the length of the string. *)
Definition substringFrom (s : JsString) (start : Z) : JsString :=
  substring s start (Z.of_nat (length s)).

Record Highlighted := {
  prefix : JsString;
  match_ : JsString;
  suffix : JsString
}.

Definition highlightMatch (text : JsString) (start end_ : Z) : Highlighted :=
  {| prefix := substring text 0 start;
     match_ := substring text start end_;
     suffix := substringFrom text end_ |}.

(** The text that the three parts show, one after the other. *)
Definition shown (h : Highlighted) : JsString := prefix h ++ match_ h ++ suffix h.

End Highlight.

(** ** PDF viewer: the zoom percentage shown ([src/PDFViewer.tsx]) *)

Module PDFViewerDisplay.
Import PDFViewer.

#[local] Open Scope float_scope.
#[local] Set Warnings "-inexact-float".

(** [Math.round] on a finite binary64 number: the integer nearest to
    it, the greater one when two are equally near.  The number is
    [m * 2^e] exactly, so the result is the floor of [m * 2^e + 1/2].
    There is no result here for NaN and the infinities, which
    [Math.round] returns as they are. *)
Definition Math_round (x : float) : option Z :=
  match Prim2SF x with
  | S754_zero _ => Some 0%Z
  | S754_finite sign m e =>
      let v := if sign then Z.neg m else Z.pos m in
      Some (if (0 <=? e)%Z then (v * 2 ^ e)%Z
            else ((2 * v + 2 ^ (- e)) / 2 ^ (1 - e))%Z)
  | _ => None
  end.

(** The number in [{Math.round(scale * 100)}%]. *)
Definition percent (scale : float) : option Z := Math_round (scale * 100).

(** Steps of ten on integers, kept between 50 and 200: the percentage
    as exact arithmetic would give it. *)
Definition zoomPercent (p : Z) (op : ZoomOp) : Z :=
  match op with
  | ZoomIn => Z.min (p + 10) 200
  | ZoomOut => Z.max (p - 10) 50
  | ZoomReset => 100
  end.

End PDFViewerDisplay.

(** ** The generic request of the API service ([request], in [src/useSearch.tsx]) *)

Module ApiRequest.
Import Js.

(** [getAuthHeaders]: the token is the [token] entry of local storage,
    and the empty string is as falsy as a missing entry. *)
Definition getAuthHeaders (storage : gmap string string) : gmap string string :=
  <["Content-Type" := "application/json"]>
  (<["Authorization" := match storage !! "token" with
                        | Some (String a t) => "Bearer " +:+ String a t
                        | _ => EmptyString
                        end]> ∅).

(** [{...getAuthHeaders(), ...customHeaders}]: the later spread wins;
    a missing [customHeaders] is the empty object. *)
Definition headers (storage customHeaders : gmap string string) : gmap string string :=
  customHeaders ∪ getAuthHeaders storage.

(** What [responseData.detail || 'An error occurred'] is for a parsed
    body: reading [detail] throws (the body is [null]), or [detail] is
    falsy, or it is truthy and [new Error] gets it. *)
Inductive Detail :=
  | DetailThrows
  | DetailFalsy
  | DetailGiven (message : string).

Inductive Error :=
  | NetworkError
  | SyntaxError
  | TypeError
  | ErrorMessage (message : string).

Section WithJson.

(** The parsed JSON values, and what reading their [detail] gives. *)
Variable Json : Type.
Variable detailOf : Json -> Detail.

(** The response of [fetch]: [contentType] is
    [response.headers.get('content-type')], [json] is the parsed body
    when the body is JSON ([response.json()] rejects otherwise), and
    [text] is the body as text. *)
Record Response := {
  ok : bool;
  contentType : option JsString;
  json : option Json;
  text : string
}.

Inductive Fetched :=
  | FetchRejected
  | Responded (response : Response).

Inductive Outcome :=
  | ReturnedData (responseData : Json)
  | ReturnedResponse (response : Response)
  | Threw (error : Error).

(** [contentType && contentType.includes('application/json')] *)
Definition isJson (response : Response) : bool :=
  match contentType response with
  | Some contentType => includes (lit "application/json") contentType
  | None => false
  end.

(** [request], from the response of its [fetch] on: every error is
    logged and thrown again. *)
Definition request (fetched : Fetched) : Outcome :=
  match fetched with
  | FetchRejected => Threw NetworkError
  | Responded response =>
      if isJson response then
        match json response with
        | None => Threw SyntaxError
        | Some responseData =>
            if negb (ok response) then
              match detailOf responseData with
              | DetailThrows => Threw TypeError
              | DetailFalsy => Threw (ErrorMessage "An error occurred")
              | DetailGiven message => Threw (ErrorMessage message)
              end
            else ReturnedData responseData
        end
      else
        if negb (ok response) then
          match text response with
          | EmptyString => Threw (ErrorMessage "An error occurred")
          | errorText => Threw (ErrorMessage errorText)
          end
        else ReturnedResponse response
  end.

End WithJson.

Arguments ok {Json} _.
Arguments contentType {Json} _.
Arguments json {Json} _.
Arguments text {Json} _.
Arguments Responded {Json} response.
Arguments FetchRejected {Json}.
Arguments ReturnedData {Json} responseData.
Arguments ReturnedResponse {Json} response.
Arguments Threw {Json} error.
Arguments isJson {Json} response.
Arguments request {Json} detailOf fetched.

(** The custom headers of [markdownAPI.exportToPdf]. *)
Definition exportToPdf_headers : gmap string string :=
  <["Accept" := "application/pdf"]> ∅.

(** The custom headers of [fileSystemAPI.uploadFile]. *)
Definition uploadFile_headers : gmap string string :=
  <["Content-Type" := "multipart/form-data"]> ∅.

End ApiRequest.

(** ** The application as a whole: what outlasts a reload *)

Module Application.
Import Contexts.

(** The colour mode of the UI library, which the login page and the
    main layout toggle with the [toggleColorMode] of the library's hook
    [useColorMode]. *)
Inductive ColorMode := lightMode | darkMode.

Definition otherMode (mode : ColorMode) : ColorMode :=
  match mode with lightMode => darkMode | darkMode => lightMode end.

(** [theme.config.initialColorMode] *)
Definition initialColorMode : ColorMode := lightMode.

(** What the hooks [useAuth], [useApp] and [useColorMode] and the
    router give to a component: the cells of the two providers that
    [Client] holds, the location and the colour mode.  The storage is
    not among them. *)
Record Context := {
  ctx_location : string;
  ctx_user : option User;
  ctx_isLoading : bool;
  ctx_error : option string;
  ctx_theme : Theme;
  ctx_isLeftNavCollapsed : bool;
  ctx_colorMode : ColorMode
}.

(** Two storages with the same entries under the given keys. *)
Definition agree (keys : list string) (s1 s2 : gmap string string) : Prop :=
  forall k, k ∈ keys -> s1 !! k = s2 !! k.

Section WithComponents.

(** The colour-mode manager of the library's provider.  [index.tsx]
    mounts [ChakraProvider] without a manager of its own, so the one in
    charge is the library's, whose code is not in the repository: it is
    a parameter here.  [colorModeKeys] are the entries of local storage
    it uses, [colorMode_get] is what it finds there when the provider
    mounts, and [colorMode_set] is what it does to the storage when the
    mode is set. *)
Variable colorModeKeys : list string.
Variable colorMode_get : gmap string string -> option ColorMode.
Variable colorMode_set : ColorMode -> gmap string string -> gmap string string.

(** What makes [colorModeKeys] the entries of the manager: it changes no
    other entry, and what it writes and what it finds depend on no other
    entry. *)
Record keepsOnly : Prop := {
  set_frame : forall mode s k, k ∉ colorModeKeys -> colorMode_set mode s !! k = s !! k;
  set_local : forall mode s1 s2,
    agree colorModeKeys s1 s2 ->
    agree colorModeKeys (colorMode_set mode s1) (colorMode_set mode s2);
  get_local : forall s1 s2, agree colorModeKeys s1 s2 -> colorMode_get s1 = colorMode_get s2
}.

(** The state cells of all the other components, and the handlers and
    effects that update them: the pages, the layout, the file tree, the
    editor, the reader, the dataview and kanban panels, the search box,
    the PDF viewer, the settings and the toasts, and with them the cells
    of [AppProvider] that [Client] does not hold ([currentPath],
    [fileTree], [isLoading]).  They are [useState] cells and refs that
    start from constants and from the location ([mountCells]), and a
    handler or an effect makes the new cells from the old ones, from
    what the hooks give it and from what the event carries (a key, a
    click, a response of the backend); it may also call [navigate].
    None of them reaches the browser's storage: apart from the
    operations of the providers, the only reference to it in the sources
    is the read of the token for a request header, in
    [getAuthHeaders]. *)
Variable Cells : Type.
Variable mountCells : string -> Cells.
Variable Handler : Type.
Variable handle : Handler -> Context -> Cells -> Cells * option string.

Record World := {
  client : Client;
  colorMode : ColorMode;
  cells : Cells
}.

Definition storage (w : World) : gmap string string := localStorage (client w).

Definition context (w : World) : Context :=
  {| ctx_location := location (client w);
     ctx_user := user (client w);
     ctx_isLoading := authLoading (client w);
     ctx_error := authError (client w);
     ctx_theme := theme (client w);
     ctx_isLeftNavCollapsed := isLeftNavCollapsed (client w);
     ctx_colorMode := colorMode w |}.

(** The application mounted on a page loaded at [url], with the local
    storage that the browser has kept: the providers start as in
    [load], the colour mode is the one the manager finds, or else the
    initial one, and every other cell starts afresh. *)
Definition mount (s : gmap string string) (url : string) : World :=
  {| client := load s url;
     colorMode := default initialColorMode (colorMode_get s);
     cells := mountCells url |}.

(** Everything that happens to a mounted application: an operation of
    the providers, a toggle of the colour mode, a handler or an effect
    of another component, and a reload of the page
    ([window.location.reload()], or the browser's own). *)
Inductive Operation :=
  | Provider (op : Contexts.Operation)
  | ToggleColorMode
  | Handle (h : Handler)
  | Reload.

Definition setStorage (s : gmap string string) (c : Client) : Client :=
  {| localStorage := s; location := location c; dataTheme := dataTheme c;
     user := user c; authLoading := authLoading c; authError := authError c;
     theme := theme c; isLeftNavCollapsed := isLeftNavCollapsed c |}.

Definition step (w : World) (op : Operation) : World :=
  match op with
  | Provider op =>
      {| client := Contexts.step (client w) op; colorMode := colorMode w; cells := cells w |}
  | ToggleColorMode =>
      let mode := otherMode (colorMode w) in
      {| client := setStorage (colorMode_set mode (storage w)) (client w);
         colorMode := mode; cells := cells w |}
  | Handle h =>
      let '(cells', to) := handle h (context w) (cells w) in
      {| client := match to with
                   | Some to => navigate to (client w)
                   | None => client w
                   end;
         colorMode := colorMode w; cells := cells' |}
  | Reload => mount (storage w) (location (client w))
  end.

Definition run (w : World) (ops : list Operation) : World := foldl step w ops.

(** The entries that outlast the component tree: those of the
    providers and those of the colour-mode manager. *)
Definition durableKeys : list string := ownedKeys ++ colorModeKeys.

End WithComponents.

Arguments client {Cells} w.
Arguments colorMode {Cells} w.
Arguments cells {Cells} w.
Arguments storage {Cells} w.
Arguments context {Cells} w.
Arguments Provider {Handler} op.
Arguments ToggleColorMode {Handler}.
Arguments Handle {Handler} h.
Arguments Reload {Handler}.
Arguments mount colorMode_get {Cells} mountCells s url.
Arguments step colorMode_get colorMode_set {Cells} mountCells {Handler} handle w op.
Arguments run colorMode_get colorMode_set {Cells} mountCells {Handler} handle w ops.

(** *** The components of this development, as cells and handlers *)

(** The cells of the editor, the search box, the reader, the toasts,
    the PDF viewer's scale, the kanban board's columns and the two
    fields of the login page. *)
Record Cells := {
  editor : Editor.State;
  search : Search.State;
  reader : Reader.State;
  toasts : list Toasts.Toast;
  scale : PrimFloat.float;
  columns : gmap string KanbanBoard.KanbanColumn;
  username : string;
  password : string
}.

Definition mountCells (url : string) : Cells :=
  {| editor := Editor.initial; search := Search.initial; reader := Reader.initial;
     toasts := []; scale := PDFViewer.initialScale; columns := ∅;
     username := EmptyString; password := EmptyString |}.

Inductive Handler :=
  | EditorEvent (filePath : string) (ev : Editor.Event)
  | SearchEvent (ev : Search.Event)
  | ReaderEvent (ev : Reader.Event)
  | AddToast (id message : string) (type : Toasts.ToastType) (duration : option nat)
  | RemoveToast (id : string)
  | Zoom (op : PDFViewer.ZoomOp)
  | KanbanParsed (parsed : gmap string KanbanBoard.KanbanColumn)
  | DragEnd (result : KanbanBoard.DropResult)
  | SetUsername (value : string)
  | SetPassword (value : string)
  | LoginPageRendered
  | HandleNavigate (path : string).

Definition withEditor (c : Cells) (st : Editor.State) : Cells :=
  {| editor := st; search := search c; reader := reader c; toasts := toasts c;
     scale := scale c; columns := columns c; username := username c;
     password := password c |}.

Definition withSearch (c : Cells) (st : Search.State) : Cells :=
  {| editor := editor c; search := st; reader := reader c; toasts := toasts c;
     scale := scale c; columns := columns c; username := username c;
     password := password c |}.

Definition withReader (c : Cells) (st : Reader.State) : Cells :=
  {| editor := editor c; search := search c; reader := st; toasts := toasts c;
     scale := scale c; columns := columns c; username := username c;
     password := password c |}.

Definition withToasts (c : Cells) (l : list Toasts.Toast) : Cells :=
  {| editor := editor c; search := search c; reader := reader c; toasts := l;
     scale := scale c; columns := columns c; username := username c;
     password := password c |}.

Definition withScale (c : Cells) (s : PrimFloat.float) : Cells :=
  {| editor := editor c; search := search c; reader := reader c; toasts := toasts c;
     scale := s; columns := columns c; username := username c;
     password := password c |}.

Definition withColumns (c : Cells) (m : gmap string KanbanBoard.KanbanColumn) : Cells :=
  {| editor := editor c; search := search c; reader := reader c; toasts := toasts c;
     scale := scale c; columns := m; username := username c;
     password := password c |}.

Definition withCredentials (c : Cells) (name pass : string) : Cells :=
  {| editor := editor c; search := search c; reader := reader c; toasts := toasts c;
     scale := scale c; columns := columns c; username := name; password := pass |}.

(** The login page redirects a signed-in user when it renders
    ([<Navigate to="/dashboard" replace />]); the main layout's
    [handleNavigate] calls [navigate]. *)
Definition handle (h : Handler) (ctx : Context) (c : Cells) : Cells * option string :=
  match h with
  | EditorEvent filePath ev => (withEditor c (Editor.step filePath (editor c) ev), None)
  | SearchEvent ev => (withSearch c (Search.step (search c) ev), None)
  | ReaderEvent ev => (withReader c (Reader.step (reader c) ev), None)
  | AddToast id message type duration =>
      (withToasts c (Toasts.addToast id message type duration (toasts c)), None)
  | RemoveToast id => (withToasts c (Toasts.removeToast id (toasts c)), None)
  | Zoom op => (withScale c (PDFViewer.zoom (scale c) op), None)
  | KanbanParsed parsed => (withColumns c parsed, None)
  | DragEnd result =>
      match KanbanBoard.handleDragEnd false (columns c) result with
      | KanbanBoard.Returned m | KanbanBoard.Threw m => (withColumns c m, None)
      end
  | SetUsername value => (withCredentials c value (password c), None)
  | SetPassword value => (withCredentials c (username c) value, None)
  | LoginPageRendered =>
      (c, match ctx_user ctx with Some _ => Some "/dashboard" | None => None end)
  | HandleNavigate path => (c, Some path)
  end.

(** A colour-mode manager that keeps the mode in one entry of local
    storage, for the examples. *)
Definition oneKey : list string := ["color-mode"].

Definition oneKey_get (s : gmap string string) : option ColorMode :=
  match s !! "color-mode" with
  | Some "dark" => Some darkMode
  | Some "light" => Some lightMode
  | _ => None
  end.

Definition oneKey_set (mode : ColorMode) (s : gmap string string) : gmap string string :=
  <["color-mode" := match mode with lightMode => "light" | darkMode => "dark" end]> s.

(** A storage that a session has left, with a draft that another
    program keeps in the same storage, and the same without the draft. *)
Definition leftBehind : gmap string string :=
  <["token" := "abc"]> (<["theme" := "dark"]> (<["color-mode" := "dark"]> ∅)).

Definition leftBehindWithDraft : gmap string string :=
  <["draft" := "x"]> leftBehind.

Definition session : list (Operation Handler) :=
  [Provider (CheckAuth (Fulfilled {| Contexts.username := "ada"; email := None;
                                     full_name := None; disabled := None |}));
   Handle LoginPageRendered;
   ToggleColorMode;
   Provider ToggleTheme;
   Handle (SearchEvent (Search.Typed (Js.lit "abc")));
   Handle (Zoom PDFViewer.ZoomIn);
   Reload;
   Provider Logout].

End Application.

(** * Theorems *)

(** ** PDF viewer: the scale stays within its bounds *)

Module PDFViewerProofs.
Import PDFViewer.

#[local] Open Scope float_scope.
#[local] Set Warnings "-inexact-float".

Ltac find_float := solve [repeat (first [left; reflexivity | right])].

Lemma reachableScales_closed :
  Forall (fun s => In (handleZoomIn s) reachableScales
                   /\ In (handleZoomOut s) reachableScales) reachableScales.
Proof.
  unfold reachableScales.
  repeat (apply List.Forall_cons; [split; vm_compute; find_float|]).
  apply List.Forall_nil.
Qed.

Lemma reachableScales_inRange :
  Forall (fun s => inRange s = true) reachableScales.
Proof.
  unfold reachableScales.
  repeat (apply List.Forall_cons; [vm_compute; reflexivity|]).
  apply List.Forall_nil.
Qed.

Lemma initialScale_reachable : In initialScale reachableScales.
Proof. vm_compute. find_float. Qed.

Lemma zoom_reachable (s : float) (op : ZoomOp) :
  In s reachableScales -> In (zoom s op) reachableScales.
Proof.
  intros Hs.
  pose proof (proj1 (List.Forall_forall _ _) reachableScales_closed s Hs) as [Hin Hout].
  destruct op; simpl; [exact Hin | exact Hout | exact initialScale_reachable].
Qed.

Lemma fold_zoom_reachable (ops : list ZoomOp) :
  forall s, In s reachableScales -> In (fold_left zoom ops s) reachableScales.
Proof.
  induction ops as [|op ops IH]; intros s Hs; simpl.
  - exact Hs.
  - apply IH, zoom_reachable, Hs.
Qed.

Lemma scaleAfter_reachable (ops : list ZoomOp) :
  In (scaleAfter ops) reachableScales.
Proof. apply fold_zoom_reachable, initialScale_reachable. Qed.

Lemma scaleAfter_snoc (ops : list ZoomOp) (op : ZoomOp) :
  scaleAfter (ops ++ [op]) = zoom (scaleAfter ops) op.
Proof. unfold scaleAfter. rewrite fold_left_app. reflexivity. Qed.

Lemma scaleAfter_inRange (ops : list ZoomOp) :
  inRange (scaleAfter ops) = true.
Proof.
  exact (proj1 (List.Forall_forall _ _) reachableScales_inRange _
           (scaleAfter_reachable ops)).
Qed.

(** C10. Starting from the initial scale 1.0, after any sequence of
    zoom-in, zoom-out and zoom-reset clicks the scale [s] satisfies
    [0.5 <= s <= 2.0] in binary64 arithmetic; from such a scale zoom-in
    gives at most 2.0 and zoom-out gives at least 0.5. *)
Theorem zoom_scale_bounds (ops : list ZoomOp) :
  let s := scaleAfter ops in
  ((0.5 <=? s) = true /\ (s <=? 2.0) = true)
  /\ (handleZoomIn s <=? 2.0) = true
  /\ (0.5 <=? handleZoomOut s) = true.
Proof.
  intros s. subst s.
  pose proof (scaleAfter_inRange ops) as H.
  pose proof (scaleAfter_inRange (ops ++ [ZoomIn])) as Hin.
  pose proof (scaleAfter_inRange (ops ++ [ZoomOut])) as Hout.
  rewrite scaleAfter_snoc in Hin, Hout. simpl in Hin, Hout.
  unfold inRange in *.
  apply andb_true_iff in H, Hin, Hout.
  destruct H, Hin, Hout. repeat split; assumption.
Qed.

End PDFViewerProofs.

(** ** Kanban board: a drop moves exactly one card *)

Module KanbanBoardProofs.
Import KanbanBoard.

#[local] Open Scope Z_scope.

Lemma relativeStart_in_range {A} (arr : list A) (start : Z) :
  0 <= start <= Z.of_nat (length arr) -> relativeStart arr start = Z.to_nat start.
Proof.
  intros [H0 H1]. unfold relativeStart.
  destruct (Z.ltb_spec start 0); [lia|]. f_equal. lia.
Qed.

Lemma splice_delete1_lookup {A} (arr : list A) (start : Z) (x : A) :
  0 <= start -> arr !! Z.to_nat start = Some x ->
  splice_delete1 arr start = ([x], delete (Z.to_nat start) arr).
Proof.
  intros H0 Hx. unfold splice_delete1.
  pose proof (lookup_lt_Some _ _ _ Hx) as Hlt.
  rewrite relativeStart_in_range by lia.
  rewrite (drop_S _ _ _ Hx). simpl. rewrite take_0.
  by rewrite delete_take_drop.
Qed.

Lemma splice_insert_in_range {A} (arr : list A) (start : Z) (x : A) :
  0 <= start <= Z.of_nat (length arr) ->
  splice_insert arr start x = take (Z.to_nat start) arr ++ x :: drop (Z.to_nat start) arr.
Proof. intros H. unfold splice_insert. by rewrite relativeStart_in_range. Qed.

Lemma sameLocation_false (a b : DraggableLocation) :
  ~ (droppableId a = droppableId b /\ index a = index b) -> sameLocation a b = false.
Proof.
  intros H. unfold sameLocation.
  destruct (bool_decide_reflect (droppableId a = droppableId b)); [|done].
  destruct (bool_decide_reflect (index a = index b)); [|done].
  exfalso. auto.
Qed.

Lemma sameLocation_true (a b : DraggableLocation) :
  droppableId a = droppableId b -> index a = index b -> sameLocation a b = true.
Proof.
  intros H1 H2. unfold sameLocation. by rewrite !bool_decide_eq_true_2.
Qed.

Lemma itemsOf_lookup (columns : gmap string KanbanColumn) (k : string) (i : nat) (c : Cell) :
  itemsOf columns k !! i = Some c ->
  exists column, columns !! k = Some column /\ items column !! i = Some c.
Proof.
  unfold itemsOf. destruct (columns !! k) as [column|]; simpl; [eauto|].
  by rewrite lookup_nil.
Qed.

Lemma removeAt_alt (columns : gmap string KanbanColumn) (k : string) (i : nat)
    (column : KanbanColumn) :
  columns !! k = Some column ->
  removeAt columns k i = <[k := withItems column (delete i (items column))]> columns.
Proof.
  intros Hk. unfold removeAt. apply map_eq. intros k'.
  destruct (decide (k = k')) as [<-|Hne].
  - by rewrite lookup_alter_eq, lookup_insert_eq, Hk.
  - by rewrite lookup_alter_ne, lookup_insert_ne.
Qed.

(** The handler on a valid drop, computed. *)
Lemma handleDragEnd_valid (columns : gmap string KanbanColumn) (result : DropResult)
    (dest : DraggableLocation) (card : KanbanItem) :
  destination result = Some dest ->
  ~ (droppableId (source result) = droppableId dest /\ index (source result) = index dest) ->
  validDrop columns (source result) dest card ->
  let afterRemoval :=
    removeAt columns (droppableId (source result)) (Z.to_nat (index (source result))) in
  exists destColumn,
    afterRemoval !! droppableId dest = Some destColumn /\
    handleDragEnd false columns result =
      Returned (<[droppableId dest :=
                  withItems destColumn
                    (take (Z.to_nat (index dest)) (items destColumn)
                     ++ Some card :: drop (Z.to_nat (index dest)) (items destColumn))]>
                afterRemoval).
Proof.
  intros Hdest Hne [H0 Hcard [dcol Hdcol] Hj]. simpl.
  destruct (itemsOf_lookup _ _ _ _ Hcard) as (scol & Hscol & Hi).
  rewrite (removeAt_alt _ _ _ _ Hscol) in Hj |- *.
  set (afterRemoval := <[_ := _]> columns) in *.
  assert (is_Some (afterRemoval !! droppableId dest)) as [destColumn HdestColumn].
  { subst afterRemoval.
    destruct (decide (droppableId (source result) = droppableId dest)) as [->|?].
    - rewrite lookup_insert_eq. eauto.
    - rewrite lookup_insert_ne by done. eauto. }
  exists destColumn. split; [done|].
  unfold handleDragEnd. rewrite Hdest, (sameLocation_false _ _ Hne), Hscol.
  pose proof (lookup_lt_Some _ _ _ Hi) as Hlt.
  unfold splice_delete1.
  rewrite !(relativeStart_in_range (items scol)) by lia.
  rewrite (drop_S _ _ _ Hi), <- delete_take_drop. simpl.
  fold afterRemoval. rewrite HdestColumn.
  unfold itemsOf in Hj. rewrite HdestColumn in Hj. simpl in Hj.
  by rewrite splice_insert_in_range.
Qed.

(** C1. On a board that is not read-only, a drop with a valid destination
    takes the dragged card out of its source column at the source index
    and puts it into the destination column at the destination index:
    the source column loses exactly that card, the destination column is
    its remaining cards with the card inserted at the destination index,
    and every other column is untouched, so that all other cards keep
    their identity and order.  A drop without destination, a drop onto
    the position the card came from, and any drop on a read-only board
    leave the board as it was. *)
Theorem handleDragEnd_moves_card (columns : gmap string KanbanColumn) (result : DropResult) :
  (forall (dest : DraggableLocation) (card : KanbanItem),
     destination result = Some dest ->
     ~ (droppableId (source result) = droppableId dest /\ index (source result) = index dest) ->
     validDrop columns (source result) dest card ->
     let sid := droppableId (source result) in
     let i := Z.to_nat (index (source result)) in
     let did := droppableId dest in
     let j := Z.to_nat (index dest) in
     exists newColumns,
       handleDragEnd false columns result = Returned newColumns /\
       itemsOf newColumns did !! j = Some (Some card) /\
       (sid <> did ->
          itemsOf newColumns sid = delete i (itemsOf columns sid) /\
          itemsOf newColumns did =
            take j (itemsOf columns did) ++ Some card :: drop j (itemsOf columns did)) /\
       (sid = did ->
          itemsOf newColumns sid =
            take j (delete i (itemsOf columns sid))
            ++ Some card :: drop j (delete i (itemsOf columns sid))) /\
       (forall k, k <> sid -> k <> did -> newColumns !! k = columns !! k) /\
       (forall k, id <$> newColumns !! k = id <$> columns !! k) /\
       (forall k, title <$> newColumns !! k = title <$> columns !! k))
  /\ (destination result = None -> handleDragEnd false columns result = Returned columns)
  /\ (forall dest,
        destination result = Some dest ->
        droppableId (source result) = droppableId dest ->
        index (source result) = index dest ->
        handleDragEnd false columns result = Returned columns)
  /\ handleDragEnd true columns result = Returned columns.
Proof.
  split; [|split; [|split]].
  - intros dest card Hdest Hne Hvalid sid i did j.
    destruct (handleDragEnd_valid _ _ _ _ Hdest Hne Hvalid) as (destColumn & Hd & ->).
    destruct Hvalid as [H0 Hcard _ Hj].
    destruct (itemsOf_lookup _ _ _ _ Hcard) as (scol & Hscol & Hi).
    fold sid i did j in Hd, Hj, Hscol, Hi |- *.
    rewrite (removeAt_alt _ _ _ _ Hscol) in Hd, Hj |- *.
    assert (Hlen : (j <= length (items destColumn))%nat).
    { unfold itemsOf in Hj. rewrite Hd in Hj. simpl in Hj. lia. }
    eexists. split; [reflexivity|].
    assert (Hnew : forall m l, itemsOf (<[did := withItems destColumn l]> m) did = l).
    { intros m l. unfold itemsOf. by rewrite lookup_insert_eq. }
    assert (Hitems : items destColumn =
              if decide (sid = did) then delete i (items scol) else itemsOf columns did).
    { case_decide as Hsd.
      - rewrite <- Hsd, lookup_insert_eq in Hd. by injection Hd as <-.
      - rewrite lookup_insert_ne in Hd by done. unfold itemsOf. by rewrite Hd. }
    assert (Hsrc : itemsOf columns sid = items scol).
    { unfold itemsOf. by rewrite Hscol. }
    split; [|split; [|split; [|split; [|split]]]].
    + rewrite Hnew. rewrite lookup_app_r by (rewrite length_take; lia).
      rewrite length_take. by replace (j - j `min` length (items destColumn))%nat with 0%nat by lia.
    + intros Hsd. rewrite decide_False in Hitems by done.
      split.
      * unfold itemsOf. rewrite lookup_insert_ne, lookup_insert_eq by done. simpl.
        by rewrite Hscol.
      * by rewrite Hnew, Hitems.
    + intros Hsd. rewrite decide_True in Hitems by done.
      rewrite Hsrc. unfold itemsOf. rewrite Hsd, lookup_insert_eq. simpl.
      by rewrite Hitems.
    + intros k Hks Hkd. by rewrite !lookup_insert_ne.
    + intros k. destruct (decide (k = did)) as [->|Hkd].
      * rewrite lookup_insert_eq. simpl.
        destruct (decide (sid = did)) as [Hsd|Hsd].
        -- rewrite <- Hsd in Hd |- *. rewrite lookup_insert_eq in Hd.
           injection Hd as <-. by rewrite Hscol.
        -- rewrite lookup_insert_ne in Hd by done. by rewrite Hd.
      * rewrite lookup_insert_ne by done.
        destruct (decide (k = sid)) as [->|Hks].
        -- by rewrite lookup_insert_eq, Hscol.
        -- by rewrite lookup_insert_ne.
    + intros k. destruct (decide (k = did)) as [->|Hkd].
      * rewrite lookup_insert_eq. simpl.
        destruct (decide (sid = did)) as [Hsd|Hsd].
        -- rewrite <- Hsd in Hd |- *. rewrite lookup_insert_eq in Hd.
           injection Hd as <-. by rewrite Hscol.
        -- rewrite lookup_insert_ne in Hd by done. by rewrite Hd.
      * rewrite lookup_insert_ne by done.
        destruct (decide (k = sid)) as [->|Hks].
        -- by rewrite lookup_insert_eq, Hscol.
        -- by rewrite lookup_insert_ne.
  - intros Hnone. unfold handleDragEnd. by rewrite Hnone.
  - intros dest Hdest Hid Hidx. unfold handleDragEnd.
    by rewrite Hdest, sameLocation_true.
  - reflexivity.
Qed.

(** The theorem at [board] and [dropAtDone]. *)
Lemma handleDragEnd_moves_card_witness :
  validDrop board (source dropAtDone) {| droppableId := "done"; index := 1 |} (card "a")
  /\ exists newColumns,
       handleDragEnd false board dropAtDone = Returned newColumns
       /\ itemsOf newColumns "todo" = [Some (card "b"); Some (card "c")]
       /\ itemsOf newColumns "done" = [Some (card "d"); Some (card "a")].
Proof.
  assert (Hvalid : validDrop board (source dropAtDone)
                     {| droppableId := "done"; index := 1 |} (card "a")).
  { constructor; simpl.
    - lia.
    - reflexivity.
    - eexists. reflexivity.
    - vm_compute. split; discriminate. }
  split; [exact Hvalid|].
  destruct (proj1 (handleDragEnd_moves_card board dropAtDone)
              {| droppableId := "done"; index := 1 |} (card "a") eq_refl
              ltac:(simpl; intros [? _]; discriminate) Hvalid)
    as (newColumns & Hrun & _ & Hdistinct & _).
  exists newColumns. split; [exact Hrun|].
  exact (Hdistinct ltac:(discriminate)).
Defined.

(** Moving within one column: the insertion index counts positions in
    the array from which the card has already been removed. *)
Example drop_within_column :
  handleDragEnd false board
    {| source := {| droppableId := "todo"; index := 0 |};
       destination := Some {| droppableId := "todo"; index := 2 |} |}
  = Returned (<["todo" := {| id := "todo"; title := "To do";
                  items := [Some (card "b"); Some (card "c"); Some (card "a")] |}]> board).
Proof. vm_compute. reflexivity. Qed.

(** A source index past the end removes nothing and [undefined] is
    inserted; an unknown source column is a [TypeError]. *)
Example drop_from_missing_index :
  handleDragEnd false board
    {| source := {| droppableId := "done"; index := 5 |};
       destination := Some {| droppableId := "todo"; index := 0 |} |}
  = Returned (<["todo" := {| id := "todo"; title := "To do";
                  items := [None; Some (card "a"); Some (card "b"); Some (card "c")] |}]> board).
Proof. vm_compute. reflexivity. Qed.

Example drop_from_missing_column :
  handleDragEnd false board
    {| source := {| droppableId := "doing"; index := 0 |};
       destination := Some {| droppableId := "todo"; index := 0 |} |}
  = Threw board.
Proof. vm_compute. reflexivity. Qed.

End KanbanBoardProofs.

(** ** Dataview panel: which blocks become queries, and how they are executed *)

Module DataViewProofs.
Import Js DataView.

Lemma matchAll_Some (rest capture rest' : JsString) :
  exec rest = Some (capture, rest') -> matchAll rest = capture :: matchAll rest'.
Proof.
  revert capture rest'.
  apply (matchAll_elim (fun rest result => forall capture rest',
           exec rest = Some (capture, rest') -> result = capture :: matchAll rest')).
  - intros r c r' Hexec _ _ capture rest' H.
    rewrite Hexec in H. by injection H as <- <-.
  - intros r e _ capture rest' H. congruence.
Qed.

Lemma matchAll_None (rest : JsString) : exec rest = None -> matchAll rest = [].
Proof.
  apply (matchAll_elim (fun rest result => exec rest = None -> result = [])).
  - intros r c r' Hexec _ _ H. congruence.
  - done.
Qed.

Lemma numbered_table (n : nat) (capture : JsString) :
  includes table capture = true ->
  {| type := "table"; source := capture; id := "query-" +:+ pretty n |} = numbered n capture.
Proof. intros H. unfold numbered, typeOf. by rewrite H. Qed.

Lemma numbered_list (n : nat) (capture : JsString) :
  includes table capture = false ->
  {| type := "list"; source := capture; id := "query-" +:+ pretty n |} = numbered n capture.
Proof. intros H. unfold numbered, typeOf. by rewrite H. Qed.

(** The loop appends to what it has collected the kept blocks of the
    remaining text, numbered from the length of the collection. *)
Lemma extractLoop_spec (rest : JsString) (extractedQueries : list DataviewQuery) :
  extractLoop rest extractedQueries =
    extractedQueries
    ++ imap (fun i => numbered (length extractedQueries + i))
         (filter (fun capture => isQuery capture = true) (matchAll rest)).
Proof.
  apply (extractLoop_elim (fun rest extractedQueries result =>
    result = extractedQueries
             ++ imap (fun i => numbered (length extractedQueries + i))
                  (filter (fun capture => isQuery capture = true) (matchAll rest)))).
  - clear rest extractedQueries.
    intros rest queryContent rest' Hexec extractedQueries IHtable IHlist IHskip _.
    rewrite (matchAll_Some _ _ _ Hexec). simpl in *.
    destruct (includes table queryContent) eqn:Etable;
      [|destruct (includes list_ queryContent) eqn:Elist].
    + rewrite IHtable, filter_cons_True by (unfold isQuery; by rewrite Etable).
      rewrite imap_cons, <- app_assoc. simpl.
      rewrite Nat.add_0_r, (numbered_table _ _ Etable). do 2 f_equal.
      apply imap_ext. intros i x _. simpl. f_equal. rewrite length_app. simpl. lia.
    + rewrite IHlist, filter_cons_True by (unfold isQuery; by rewrite Etable, Elist).
      rewrite imap_cons, <- app_assoc. simpl.
      rewrite Nat.add_0_r, (numbered_list _ _ Etable). do 2 f_equal.
      apply imap_ext. intros i x _. simpl. f_equal. rewrite length_app. simpl. lia.
    + rewrite IHskip, filter_cons_False; [done|].
      unfold isQuery. by rewrite Etable, Elist.
  - intros r e acc _. rewrite (matchAll_None _ e). simpl. by rewrite app_nil_r.
Qed.

Lemma extractQueries_spec (content : JsString) :
  extractQueries content =
    imap numbered (filter (fun capture => isQuery capture = true) (matchAll content)).
Proof. unfold extractQueries. by rewrite extractLoop_spec. Qed.

Lemma query_id_inj : Inj (=) (=) (fun n : nat => "query-" +:+ pretty n).
Proof. intros m n H. simpl in H. injection H as H. by apply (inj pretty). Qed.

Lemma extractQueries_ids (content : JsString) :
  id <$> extractQueries content =
    (fun n => "query-" +:+ pretty n) <$> seq 0 (length (extractQueries content)).
Proof.
  rewrite extractQueries_spec, length_imap, fmap_imap.
  rewrite <- (imap_seq_0 (filter _ (matchAll content))).
  by apply imap_ext.
Qed.

Lemma extractQueries_ids_NoDup (content : JsString) :
  NoDup (id <$> extractQueries content).
Proof.
  rewrite extractQueries_ids. apply NoDup_fmap_2; [apply query_id_inj|apply NoDup_seq].
Qed.

Lemma executeQueries_snoc (path : string) (backend : nat -> PostRequest -> Settled)
    (queries : list DataviewQuery) (q : DataviewQuery) :
  executeQueries path (queries ++ [q]) backend =
    executeQuery path backend (executeQueries path queries backend) q.
Proof. unfold executeQueries. by rewrite foldl_app. Qed.

Lemma executeQueries_sent (path : string) (backend : nat -> PostRequest -> Settled)
    (queries : list DataviewQuery) :
  sent (executeQueries path queries backend) = requestOf path <$> queries.
Proof.
  induction queries as [|q queries IH] using rev_ind; [done|].
  rewrite executeQueries_snoc, fmap_app. simpl. by rewrite IH.
Qed.

(** With pairwise distinct ids, every query ends with the entry of its
    own request, whatever became of the others. *)
Lemma executeQueries_results (path : string) (backend : nat -> PostRequest -> Settled)
    (queries : list DataviewQuery) :
  NoDup (id <$> queries) ->
  forall i q, queries !! i = Some q ->
    queryResults (executeQueries path queries backend) !! id q
    = Some (resultOf q (backend i (requestOf path q))).
Proof.
  induction queries as [|q' queries IH] using rev_ind; intros Hnodup i q Hq.
  - by rewrite lookup_nil in Hq.
  - rewrite fmap_app in Hnodup. apply NoDup_app in Hnodup as (Hnodup & Hfresh & _).
    rewrite executeQueries_snoc. simpl.
    destruct (decide (i < length queries)) as [Hi|Hi].
    + rewrite lookup_app_l in Hq by done.
      rewrite lookup_insert_ne; [by apply IH|].
      intros Heq. apply (Hfresh (id q)).
      * apply list_elem_of_fmap. exists q. split; [done|].
        by apply list_elem_of_lookup_2 in Hq.
      * rewrite <- Heq. simpl. by left.
    + pose proof (lookup_lt_Some _ _ _ Hq) as Hlen.
      rewrite length_app in Hlen. simpl in Hlen.
      assert (i = length queries) as -> by lia.
      rewrite list_lookup_middle in Hq by done. injection Hq as <-.
      by rewrite lookup_insert_eq, executeQueries_sent, length_fmap.
Qed.

(** C2, as stated, fails: the regular expression matches the block of
    this text, and no query is extracted from it. *)
Lemma extractQueries_drops_other_blocks :
  matchAll (lit "```dataview TASK```") = [lit "TASK"]
  /\ source <$> extractQueries (lit "```dataview TASK```")
     <> matchAll (lit "```dataview TASK```").
Proof. split; [by vm_compute|]. vm_compute. discriminate. Qed.

(** C2, amended. Of the fenced dataview blocks that the extraction
    regular expression matches in a content, the panel extracts those
    whose text contains [TABLE] or [LIST], in order of appearance, with
    ids query-0, query-1, ... counting the extracted blocks, and the
    effect on the extracted queries posts the text of each of them, in
    that order, to [/api/dataview/execute]. *)
Theorem extractQueries_keeps_table_and_list_blocks (content : JsString) (path : string)
    (backend : nat -> PostRequest -> Settled) :
  let kept := filter (fun capture => isQuery capture = true) (matchAll content) in
  source <$> extractQueries content = kept
  /\ id <$> extractQueries content = (fun n => "query-" +:+ pretty n) <$> seq 0 (length kept)
  /\ match onQueriesChange path (extractQueries content) backend with
     | Some run =>
         sent run =
           (fun capture =>
              {| url := "/api/dataview/execute";
                 body := {| query := capture; filePath := path; contextPath := path |} |})
           <$> kept
     | None => kept = []
     end.
Proof.
  intros kept.
  assert (Hsource : source <$> extractQueries content = kept).
  { rewrite extractQueries_spec, fmap_imap. fold kept.
    rewrite <- (list_fmap_id kept) at 2. rewrite <- imap_const. by apply imap_ext. }
  split; [exact Hsource|]. split.
  - rewrite extractQueries_ids. by rewrite <- Hsource, length_fmap.
  - unfold onQueriesChange. case_decide as Hsome.
    + rewrite executeQueries_sent, <- Hsource, <- list_fmap_compose. done.
    + rewrite <- Hsource. destruct (extractQueries content); [done|]. simpl in Hsome. lia.
Qed.

(** C8. When the panel executes the queries extracted from a content,
    it sends one request per query whatever the earlier ones have come
    to, and every query ends in [results] under its own id: with the
    columns and data of its response when its request succeeded, and with
    an error entry when its own request failed.  The entry of a query does
    not depend on the outcome of any other request. *)
Theorem executeQueries_isolates_failures (content : JsString) (path : string)
    (backend : nat -> PostRequest -> Settled) :
  let queries := extractQueries content in
  let run := executeQueries path queries backend in
  sent run = requestOf path <$> queries
  /\ forall i q, queries !! i = Some q ->
       queryResults run !! id q =
         Some match backend i (requestOf path q) with
              | Fulfilled (Some d) =>
                  {| result_id := id q;
                     columns := default [] (response_columns d);
                     data := default [] (response_data d);
                     error := None |}
              | Fulfilled None =>
                  {| result_id := id q; columns := []; data := [];
                     error := Some failedToExecute |}
              | Rejected serverError =>
                  {| result_id := id q; columns := []; data := [];
                     error := Some (orElse serverError failedToExecute) |}
              end.
Proof.
  intros queries run. split; [apply executeQueries_sent|].
  intros i q Hq. subst run.
  rewrite (executeQueries_results _ _ _ (extractQueries_ids_NoDup content) i q Hq).
  unfold resultOf, errorResult. by destruct (backend i (requestOf path q)) as [[d|]|e].
Qed.

(** The theorem at [twoQueries] and [failFirst]: the first query ends
    with an error entry, the second one with its table. *)
Lemma executeQueries_isolates_failures_witness :
  let content := twoQueries in
  let run := executeQueries "notes/a.md" (extractQueries content) failFirst in
  extractQueries content !! 1 = Some (numbered 1 (lit "LIST b"))
  /\ queryResults run !! "query-0"
     = Some {| result_id := "query-0"; columns := []; data := [];
               error := Some failedToExecute |}
  /\ queryResults run !! "query-1"
     = Some {| result_id := "query-1"; columns := [lit "File"]; data := [[lit "b.md"]];
               error := None |}.
Proof.
  pose proof (proj2 (executeQueries_isolates_failures twoQueries "notes/a.md" failFirst)) as H.
  split; [by vm_compute|]. split.
  - exact (H 0 (numbered 0 (lit "TABLE a")) ltac:(by vm_compute)).
  - exact (H 1 (numbered 1 (lit "LIST b")) ltac:(by vm_compute)).
Defined.

End DataViewProofs.

(** ** Contexts: logout on 401, and what the client keeps in local storage *)

Module ContextsProofs.
Import Contexts.

Lemma logout_storage (c : Client) :
  localStorage (logout c) = delete "token" (localStorage c).
Proof. reflexivity. Qed.

Lemma onResponseError_401 (error : AxiosError) (r : ErrorResponse) (c : Client) :
  response error = Some r -> status r = 401%Z ->
  onResponseError error c = navigate "/login" (logout c).
Proof.
  intros Hr Hs. unfold onResponseError. rewrite Hr. by rewrite decide_True.
Qed.

(** The interceptor takes away at most the token. *)
Lemma onResponseError_storage (error : AxiosError) (c : Client) (k : string) :
  k <> "token" ->
  localStorage (onResponseError error c) !! k = localStorage c !! k.
Proof.
  intros Hk. unfold onResponseError.
  destruct (response error) as [r|]; [|done].
  case_decide; [|done]. simpl. by rewrite lookup_delete_ne.
Qed.

Lemma intercept_storage {A} (outcome : Settled A) (c : Client) (k : string) :
  k <> "token" ->
  localStorage (intercept outcome c) !! k = localStorage c !! k.
Proof.
  intros Hk. destruct outcome as [data|error]; [done|].
  by apply onResponseError_storage.
Qed.

Lemma login_storage (tokenResponse : Settled string) (userResponse : Settled User)
    (c : Client) (k : string) :
  k <> "token" ->
  localStorage (login tokenResponse userResponse c) !! k = localStorage c !! k.
Proof.
  intros Hk. unfold login.
  destruct tokenResponse as [access_token|error]; simpl.
  - transitivity
      (localStorage (intercept userResponse
         (localStorage_setItem "token" access_token
            (setError None (setIsLoading true c)))) !! k).
    { by destruct userResponse. }
    rewrite intercept_storage by done. simpl. by rewrite lookup_insert_ne.
  - by rewrite onResponseError_storage.
Qed.

Lemma checkAuth_storage (userResponse : Settled User) (c : Client) (k : string) :
  k <> "token" ->
  localStorage (checkAuth userResponse c) !! k = localStorage c !! k.
Proof.
  intros Hk. unfold checkAuth.
  destruct (localStorage c !! "token") as [[|a t]|]; [done| |done].
  destruct userResponse as [userData|error]; simpl; [done|].
  rewrite lookup_delete_ne by done. by apply onResponseError_storage.
Qed.

(** C3. A response with status 401 that reaches the response
    interceptor logs the client out and sends it to the login route: the
    token is no longer in local storage, the current user is cleared, the
    location is [/login], and nothing else in local storage changes. *)
Theorem unauthorized_response_logs_out (error : AxiosError) (r : ErrorResponse)
    (c : Client) :
  response error = Some r -> status r = 401%Z ->
  let c' := intercept (A := unit) (Rejected error) c in
  c' = navigate "/login" (logout c)
  /\ localStorage c' !! "token" = None
  /\ user c' = None
  /\ location c' = "/login"
  /\ (forall k, k <> "token" -> localStorage c' !! k = localStorage c !! k).
Proof.
  intros Hr Hs c'. subst c'. simpl.
  rewrite (onResponseError_401 _ _ _ Hr Hs).
  split; [done|]. split; [apply lookup_delete_eq|]. split; [done|]. split; [done|].
  intros k Hk. simpl. by rewrite lookup_delete_ne.
Qed.

(** The theorem at [signedIn] and [unauthorized]. *)
Lemma unauthorized_response_logs_out_witness :
  let c' := intercept (A := unit) (Rejected unauthorized) signedIn in
  localStorage signedIn !! "token" = Some "abc"
  /\ localStorage c' !! "token" = None
  /\ user c' = None
  /\ location c' = "/login"
  /\ localStorage c' !! "theme" = Some "dark".
Proof.
  destruct (unauthorized_response_logs_out unauthorized
              {| status := 401; detail := Some "Not authenticated" |} signedIn
              eq_refl eq_refl) as (_ & Htoken & Huser & Hlocation & Hother).
  split; [by vm_compute|]. split; [exact Htoken|]. split; [exact Huser|].
  split; [exact Hlocation|].
  rewrite (Hother "theme" ltac:(discriminate)). by vm_compute.
Defined.


(** No operation of the providers changes an entry other than [token],
    [theme] and [leftNavCollapsed]. *)
Lemma provider_step_frame (c : Client) (op : Operation) (k : string) :
  k ∉ ownedKeys -> localStorage (step c op) !! k = localStorage c !! k.
Proof.
  intros Hk.
  assert (k <> "token" /\ k <> "theme" /\ k <> "leftNavCollapsed") as (H1 & H2 & H3).
  { unfold ownedKeys in Hk. set_solver. }
  destruct op; simpl.
  - by rewrite lookup_insert_ne.
  - by rewrite lookup_insert_ne.
  - by apply login_storage.
  - by rewrite lookup_delete_ne.
  - by apply checkAuth_storage.
  - by apply onResponseError_storage.
Qed.

(** The theme and the collapsed flag chosen with the toggles are the
    ones a page loaded later starts with. *)
Lemma toggleTheme_read_back (c : Client) (url : string) :
  theme (load (localStorage (toggleTheme c)) url) = theme (toggleTheme c).
Proof.
  unfold load, initialTheme. simpl. rewrite lookup_insert_eq. by destruct (theme c).
Qed.

Lemma toggleLeftNav_read_back (c : Client) (url : string) :
  isLeftNavCollapsed (load (localStorage (toggleLeftNav c)) url)
  = isLeftNavCollapsed (toggleLeftNav c).
Proof.
  unfold load, initialLeftNavCollapsed. simpl. rewrite lookup_insert_eq.
  by destruct (isLeftNavCollapsed c).
Qed.

End ContextsProofs.

(** ** Reader: only sanitized HTML reaches the document *)

Module ReaderProofs.
Import Js Reader.

Lemma run_snoc (events : list Event) (ev : Event) :
  run (events ++ [ev]) = step (run events) ev.
Proof. unfold run. by rewrite foldl_app. Qed.

(** The [renderedContent] state is empty or the HTML of a response. *)
Lemma renderedContent_from_backend (events : list Event) :
  renderedContent (run events) = []
  \/ RenderFulfilled (renderedContent (run events)) ∈ events.
Proof.
  induction events as [|ev events IH] using rev_ind; [by left|].
  rewrite run_snoc.
  destruct ev as [[|c content] filePath|html|]; simpl.
  - by left.
  - destruct IH as [IH|IH]; [by left|right]. apply elem_of_app. by left.
  - right. apply elem_of_app. right. by apply list_elem_of_singleton.
  - destruct IH as [IH|IH]; [by left|right]. apply elem_of_app. by left.
Qed.

(** C4. Whatever the reader injects into the document is the DOMPurify
    sanitization of a string: of the empty initial content or of the HTML
    of a response of the render endpoint; and once a response with HTML
    [html] has arrived, what is injected is exactly the sanitization of
    [html].  The raw HTML is never injected. *)
Theorem reader_injects_sanitized_html (sanitize : JsString -> JsString)
    (events : list Event) :
  (forall injected, view sanitize (run events) = InnerHTML injected ->
     exists raw, injected = sanitize raw
                 /\ (raw = [] \/ RenderFulfilled raw ∈ events))
  /\ (forall html,
        view sanitize (run (events ++ [RenderFulfilled html])) = InnerHTML (sanitize html)).
Proof.
  split.
  - intros injected Hview. exists (renderedContent (run events)).
    split; [|apply renderedContent_from_backend].
    unfold view in Hview. destruct (loading (run events)); [discriminate|].
    destruct (error (run events)); [discriminate|]. by injection Hview as <-.
  - intros html. by rewrite run_snoc.
Qed.

(** The theorem at a response with a heading, for the sanitizer
    [dropAngles]. *)
Lemma reader_injects_sanitized_html_witness :
  let events := [ContentChanged (lit "# a") None; RenderFulfilled (lit "<h1>a</h1>")] in
  view dropAngles (run events) = InnerHTML (lit "h1>a/h1>")
  /\ exists raw, lit "h1>a/h1>" = dropAngles raw
                 /\ (raw = [] \/ RenderFulfilled raw ∈ events).
Proof.
  intros events.
  assert (Hview : view dropAngles (run events) = InnerHTML (lit "h1>a/h1>")) by (by vm_compute).
  split; [exact Hview|].
  exact (proj1 (reader_injects_sanitized_html dropAngles events) _ Hview).
Defined.

End ReaderProofs.

(** ** Debouncing: the debounced value has been the input for the whole delay *)

Module DebounceProofs.
Import Debounce.

Section Hook.

Context {A : Type} `{EqDecision A}.
Variable delay : nat.
Variable initialValue : A.

#[local] Abbreviation hookAfter := (hookAfter delay initialValue).

Lemma hookAfter_snoc (inputs : list (Input A)) (i : Input A) :
  hookAfter (inputs ++ [i]) = hookStep delay (hookAfter inputs) i.
Proof. unfold hookAfter. by rewrite foldl_app. Qed.

Lemma quiet_snoc (inputs : list (Input A)) (i : Input A) :
  (current initialValue (inputs ++ [i]), quiet initialValue (inputs ++ [i]))
  = quietStep (current initialValue inputs, quiet initialValue inputs) i.
Proof.
  unfold current, quiet. rewrite foldl_app. simpl.
  by destruct (foldl quietStep (initialValue, 0) inputs), (quietStep _ _).
Qed.

Lemma hookAfter_value (inputs : list (Input A)) :
  value (hookAfter inputs) = current initialValue inputs.
Proof.
  induction inputs as [|i inputs IH] using rev_ind; [done|].
  rewrite hookAfter_snoc. pose proof (quiet_snoc inputs i) as Hq.
  apply (f_equal fst) in Hq. simpl in Hq. rewrite Hq. clear Hq.
  destruct i as [v| |]; simpl.
  - rewrite <- IH. by case_decide.
  - rewrite <- IH. destruct (timer (hookAfter inputs)); [by case_decide|done].
  - done.
Qed.

(** While an update is pending, the time left and the time for which
    the input has been unchanged add up to the delay. *)
Lemma hookAfter_timer (inputs : list (Input A)) (r : nat) :
  timer (hookAfter inputs) = Some r -> quiet initialValue inputs + r = delay.
Proof.
  revert r. induction inputs as [|i inputs IH] using rev_ind; intros r; [done|].
  rewrite hookAfter_snoc. pose proof (quiet_snoc inputs i) as Hq.
  apply (f_equal snd) in Hq. simpl in Hq. rewrite Hq. clear Hq.
  rewrite <- hookAfter_value.
  destruct i as [v| |]; simpl.
  - case_decide; [apply IH|]. simpl. intros [= <-]. done.
  - destruct (timer (hookAfter inputs)) as [r'|] eqn:Ht; [|by rewrite Ht].
    case_decide; [done|]. simpl. intros [= <-]. specialize (IH _ eq_refl). lia.
  - apply IH.
Qed.

(** The debounced value is the initial one, or the input has been that
    value, unchanged, for the whole delay at some earlier moment. *)
Lemma hookAfter_debounced (inputs : list (Input A)) :
  debouncedValue (hookAfter inputs) = initialValue
  \/ exists earlier, earlier `prefix_of` inputs
       /\ current initialValue earlier = debouncedValue (hookAfter inputs)
       /\ delay <= quiet initialValue earlier.
Proof.
  induction inputs as [|i inputs IH] using rev_ind; [by left|].
  assert (Hkeep : debouncedValue (hookAfter (inputs ++ [i])) = debouncedValue (hookAfter inputs)
                  -> debouncedValue (hookAfter (inputs ++ [i])) = initialValue
                     \/ exists earlier, earlier `prefix_of` (inputs ++ [i])
                          /\ current initialValue earlier
                             = debouncedValue (hookAfter (inputs ++ [i]))
                          /\ delay <= quiet initialValue earlier).
  { intros ->. destruct IH as [IH|(earlier & Hpre & Hcur & Hq)]; [by left|right].
    exists earlier. split; [|done]. by apply prefix_app_r. }
  rewrite hookAfter_snoc in Hkeep |- *.
  destruct i as [v| |]; simpl in *.
  - apply Hkeep. by case_decide.
  - destruct (timer (hookAfter inputs)) as [r|] eqn:Ht; [|by apply Hkeep].
    case_decide as Hr; [|by apply Hkeep]. simpl. right.
    exists (inputs ++ [Elapse]). split; [done|].
    pose proof (quiet_snoc inputs Elapse) as Hq. simpl in Hq.
    injection Hq as Hc Hq. rewrite Hc, Hq, hookAfter_value. split; [done|].
    pose proof (hookAfter_timer _ _ Ht). lia.
  - by apply Hkeep.
Qed.

End Hook.

End DebounceProofs.

(** ** Editor and search: requests follow a quiet interval *)

Module DebouncedRequestsProofs.
Import Js Debounce DebounceProofs.

Lemma prefix_fmap_inv {A B} (f : A -> B) (l : list A) (k : list B) :
  k `prefix_of` (f <$> l) -> exists l', l' `prefix_of` l /\ f <$> l' = k.
Proof.
  intros [k' H]. apply fmap_app_inv in H as (l1 & l2 & -> & -> & ->).
  exists l1. split; [|done]. by apply prefix_app_r.
Qed.

Lemma snoc_inv_same {A} (l : list A) (x y : A) : l ++ [x] = l ++ [y] -> x = y.
Proof. intros H. apply app_inv_head in H. by injection H. Qed.

Lemma snoc_ne_self {A} (l : list A) (x : A) : l <> l ++ [x].
Proof. intros H. apply (f_equal length) in H. rewrite length_app in H. simpl in H. lia. Qed.

(** When a millisecond changes the debounced value, the pending update
    has fired: the debounced value is now the input. *)
Lemma elapse_fires {A} `{EqDecision A} (delay : nat) (h : Hook A) :
  debouncedValue (hookStep delay h Elapse) <> debouncedValue h ->
  debouncedValue (hookStep delay h Elapse) = value h
  /\ exists r, timer h = Some r /\ r <= 1.
Proof.
  simpl. destruct (timer h) as [r|]; [|done].
  case_decide; [|done]. simpl. eauto.
Qed.

Lemma change_keeps_debounced {A} `{EqDecision A} (delay : nat) (h : Hook A) (v : A) :
  debouncedValue (hookStep delay h (Change v)) = debouncedValue h.
Proof. simpl. by case_decide. Qed.

(** The debounced value after a sequence of inputs that ends with a
    millisecond in which it changes. *)
Lemma hookAfter_fired {A} `{EqDecision A} (delay : nat) (v0 : A) (inputs : list (Input A)) :
  debouncedValue (hookStep delay (hookAfter delay v0 inputs) Elapse)
    <> debouncedValue (hookAfter delay v0 inputs) ->
  debouncedValue (hookAfter delay v0 (inputs ++ [Elapse])) = current v0 (inputs ++ [Elapse])
  /\ delay <= quiet v0 (inputs ++ [Elapse]).
Proof.
  intros Hchanged. apply elapse_fires in Hchanged as (Hvalue & r & Ht & Hr).
  rewrite hookAfter_snoc, Hvalue.
  pose proof (quiet_snoc v0 inputs Elapse) as Hq. simpl in Hq.
  injection Hq as Hc Hq. rewrite Hc, Hq, hookAfter_value.
  split; [done|]. pose proof (hookAfter_timer _ _ _ _ Ht). lia.
Qed.

(** *** Editor *)

Lemma editor_update_debounce (st : Editor.State) (ev : Editor.Event) :
  Editor.debounce (Editor.update st ev)
  = hookStep Editor.autoSaveDelay (Editor.debounce st) (Editor.inputOf ev).
Proof. destruct ev; try done; simpl; by destruct (Editor.inFlight st). Qed.

Lemma editor_update_saves (st : Editor.State) (ev : Editor.Event) :
  Editor.saves (Editor.update st ev) = Editor.saves st.
Proof. destruct ev; try done; simpl; by destruct (Editor.inFlight st). Qed.

Lemma editor_autoSave_keeps (filePath : string) (st : Editor.State) :
  Editor.debounce (Editor.autoSave filePath st) = Editor.debounce st
  /\ Editor.originalContent (Editor.autoSave filePath st) = Editor.originalContent st.
Proof.
  unfold Editor.autoSave, Editor.saveContent.
  by repeat (case_match; simpl).
Qed.

Lemma editor_step_keeps (filePath : string) (st : Editor.State) (ev : Editor.Event) :
  Editor.debounce (Editor.step filePath st ev) = Editor.debounce (Editor.update st ev)
  /\ Editor.originalContent (Editor.step filePath st ev)
     = Editor.originalContent (Editor.update st ev).
Proof.
  unfold Editor.step. case_match; [done|]. apply editor_autoSave_keeps.
Qed.

Lemma editor_run_snoc (filePath : string) (events : list Editor.Event) (ev : Editor.Event) :
  Editor.run filePath (events ++ [ev])
  = Editor.step filePath (Editor.run filePath events) ev.
Proof. unfold Editor.run. by rewrite foldl_app. Qed.

Lemma editor_run_debounce (filePath : string) (events : list Editor.Event) :
  Editor.debounce (Editor.run filePath events)
  = hookAfter Editor.autoSaveDelay [] (Editor.inputOf <$> events).
Proof.
  induction events as [|ev events IH] using rev_ind; [done|].
  rewrite editor_run_snoc, (proj1 (editor_step_keeps _ _ _)), editor_update_debounce.
  rewrite IH, fmap_app.
  change (Editor.inputOf <$> [ev]) with [Editor.inputOf ev].
  by rewrite hookAfter_snoc.
Qed.

(** A step that posts a save ran the effect, and the effect passed both
    of its tests. *)
Lemma editor_step_posts (filePath : string) (st : Editor.State) (ev : Editor.Event)
    (request : Editor.SaveRequest) :
  Editor.saves (Editor.step filePath st ev) = Editor.saves st ++ [request] ->
  let st' := Editor.update st ev in
  ~ (Editor.debouncedContent st' = Editor.debouncedContent st
     /\ Editor.originalContent st' = Editor.originalContent st)
  /\ Editor.content request = Editor.debouncedContent st'
  /\ Editor.debouncedContent st' <> []
  /\ Editor.debouncedContent st' <> Editor.originalContent st'.
Proof.
  intros Hposted st'. revert Hposted. unfold Editor.step. fold st'.
  assert (Hsaves : Editor.saves st' = Editor.saves st) by apply editor_update_saves.
  assert (Hnone : Editor.saves st' = Editor.saves st ++ [request] -> False).
  { rewrite Hsaves. apply snoc_ne_self. }
  destruct (bool_decide_reflect (Editor.debouncedContent st' = Editor.debouncedContent st
                                 /\ Editor.originalContent st' = Editor.originalContent st))
    as [Hsame|Hchanged]; [by intros ?%Hnone|].
  split; [done|]. revert Hposted. unfold Editor.autoSave.
  destruct (bool_decide_reflect (Editor.debouncedContent st' <> [])) as [Hnonempty|];
    [|by intros ?%Hnone].
  destruct (bool_decide_reflect (Editor.debouncedContent st' <> Editor.originalContent st'))
    as [Hdiffers|]; [|by intros ?%Hnone].
  simpl. unfold Editor.saveContent.
  destruct (bool_decide (filePath = EmptyString) || Editor.saving st'); [by intros ?%Hnone|].
  simpl. rewrite Hsaves. intros Hposted.
  apply snoc_inv_same in Hposted. by subst request.
Qed.

Lemma editor_run_content (filePath : string) (events : list Editor.Event) :
  Editor.contentOf (Editor.run filePath events)
  = current [] (Editor.inputOf <$> events).
Proof. unfold Editor.contentOf. by rewrite editor_run_debounce, hookAfter_value. Qed.

(** *** Search *)

Lemma search_update_debounce (st : Search.State) (ev : Search.Event) :
  Search.debounce (Search.update st ev)
  = hookStep Search.searchDelay (Search.debounce st) (Search.inputOf ev).
Proof. by destruct ev. Qed.

Lemma search_update_searches (st : Search.State) (ev : Search.Event) :
  Search.searches (Search.update st ev) = Search.searches st.
Proof. by destruct ev. Qed.

Lemma search_searchEffect_debounce (st : Search.State) :
  Search.debounce (Search.searchEffect st) = Search.debounce st.
Proof.
  unfold Search.searchEffect, Search.performSearch.
  by repeat (case_match; simpl).
Qed.

Lemma search_suggestionEffect_keeps (st : Search.State) :
  Search.debounce (Search.suggestionEffect st) = Search.debounce st
  /\ Search.searches (Search.suggestionEffect st) = Search.searches st.
Proof. unfold Search.suggestionEffect. by case_match. Qed.

Lemma search_clicked_or_not (ev : Search.Event) :
  ev = Search.SearchClicked \/ ev <> Search.SearchClicked.
Proof. destruct ev; (by left) || by right. Qed.

(** The step of an event other than a click: its state updates and the
    two effects. *)
Lemma search_step_effects (st : Search.State) (ev : Search.Event) :
  ev <> Search.SearchClicked ->
  Search.step st ev =
    let st' := Search.update st ev in
    let st'' := if bool_decide (Search.debouncedQuery st' = Search.debouncedQuery st)
                   && negb (match ev with Search.OptionsSet _ => true | _ => false end)
                then st' else Search.searchEffect st' in
    if bool_decide (Search.queryOf st'' = Search.queryOf st)
    then st'' else Search.suggestionEffect st''.
Proof. by destruct ev. Qed.

Lemma search_clickSearch_debounce (st : Search.State) :
  Search.debounce (Search.clickSearch st) = Search.debounce st.
Proof.
  unfold Search.clickSearch, Search.performSearch.
  by repeat (case_match; simpl).
Qed.

Lemma search_step_debounce (st : Search.State) (ev : Search.Event) :
  Search.debounce (Search.step st ev) = Search.debounce (Search.update st ev).
Proof.
  destruct (search_clicked_or_not ev) as [->|Hclick];
    [unfold Search.step; by rewrite search_clickSearch_debounce|].
  rewrite (search_step_effects _ _ Hclick). cbv zeta.
  set (st' := Search.update st ev).
  set (st'' := if _ && _ then st' else Search.searchEffect st').
  assert (Hsearch : Search.debounce st'' = Search.debounce st').
  { subst st''. case_match; [done|]. apply search_searchEffect_debounce. }
  case_match; [done|]. by rewrite (proj1 (search_suggestionEffect_keeps _)).
Qed.

Lemma search_run_snoc (events : list Search.Event) (ev : Search.Event) :
  Search.run (events ++ [ev]) = Search.step (Search.run events) ev.
Proof. unfold Search.run. by rewrite foldl_app. Qed.

Lemma search_run_debounce (events : list Search.Event) :
  Search.debounce (Search.run events)
  = hookAfter Search.searchDelay [] (Search.inputOf <$> events).
Proof.
  induction events as [|ev events IH] using rev_ind; [done|].
  rewrite search_run_snoc, search_step_debounce, search_update_debounce.
  rewrite IH, fmap_app.
  change (Search.inputOf <$> [ev]) with [Search.inputOf ev].
  by rewrite hookAfter_snoc.
Qed.

Lemma search_run_query (events : list Search.Event) :
  Search.queryOf (Search.run events) = current [] (Search.inputOf <$> events).
Proof. unfold Search.queryOf. by rewrite search_run_debounce, hookAfter_value. Qed.

(** A step that posts a search posts the debounced query, which is not
    empty; it is a click on the Search button, or the search effect after
    a change of the debounced query or of the options. *)
Lemma search_step_posts (st : Search.State) (ev : Search.Event)
    (request : Search.SearchRequest) :
  Search.searches (Search.step st ev) = Search.searches st ++ [request] ->
  let st' := Search.update st ev in
  (Search.debouncedQuery st' <> Search.debouncedQuery st
   \/ (exists newOptions, ev = Search.OptionsSet newOptions)
   \/ ev = Search.SearchClicked)
  /\ Search.query request = Search.debouncedQuery st'
  /\ Search.debouncedQuery st' <> [].
Proof.
  intros Hposted st'.
  assert (Hperform : forall s : Search.State,
            Search.searches (Search.performSearch s) = Search.searches st ++ [request] ->
            Search.searches s = Search.searches st ->
            Search.query request = Search.debouncedQuery s
            /\ Search.debouncedQuery s <> []).
  { intros s. unfold Search.performSearch.
    destruct (Search.debouncedQuery s) as [|c q] eqn:Hq.
    - intros H1 H2. rewrite H2 in H1. by apply snoc_ne_self in H1.
    - simpl. intros H1 H2. rewrite H2 in H1. apply snoc_inv_same in H1.
      subst request. simpl. by rewrite Hq. }
  destruct (search_clicked_or_not ev) as [->|Hclick].
  { split; [by right; right|]. revert Hposted. unfold Search.step, Search.clickSearch.
    case_decide; [by intros ?%snoc_ne_self|].
    intros Hclicked. exact (Hperform st Hclicked eq_refl). }
  rewrite (search_step_effects _ _ Hclick) in Hposted.
  cbv zeta in Hposted. fold st' in Hposted. revert Hposted.
  assert (Hsearches : Search.searches st' = Search.searches st)
    by apply search_update_searches.
  assert (Hnone : Search.searches st' = Search.searches st ++ [request] -> False).
  { rewrite Hsearches. apply snoc_ne_self. }
  set (ran := bool_decide (Search.debouncedQuery st' = Search.debouncedQuery st)
              && negb (match ev with Search.OptionsSet _ => true | _ => false end)).
  assert (Hsuggest : forall s : Search.State,
            Search.searches (if bool_decide (Search.queryOf s = Search.queryOf st)
                             then s else Search.suggestionEffect s)
            = Search.searches s).
  { intros s. case_match; [done|]. apply search_suggestionEffect_keeps. }
  rewrite Hsuggest.
  destruct ran eqn:Hran; [by intros ?%Hnone|].
  intros Hposted. split.
  { subst ran. apply andb_false_iff in Hran as [Hran|Hran].
    - left. by apply bool_decide_eq_false in Hran.
    - right. left. destruct ev; try discriminate. eauto. }
  revert Hposted. unfold Search.searchEffect.
  case_decide as Hlong; [|by intros ?%Hnone].
  intros Hsearched. exact (Hperform st' Hsearched Hsearches).
Qed.

(** The value a request carries is the debounced value, which the input
    has held for the whole delay at some earlier moment; a request that
    an edit, a keystroke or a passing millisecond posts leaves when the
    input has been that value for the whole delay. *)
Lemma posted_value_was_quiet (filePath : string) :
  (forall (events : list Editor.Event) (ev : Editor.Event) (request : Editor.SaveRequest),
     Editor.saves (Editor.step filePath (Editor.run filePath events) ev)
       = Editor.saves (Editor.run filePath events) ++ [request] ->
     let now := events ++ [ev] in
     Editor.content request = Editor.debouncedContent (Editor.run filePath now)
     /\ Editor.content request <> Editor.originalContent (Editor.run filePath now)
     /\ (exists earlier, earlier `prefix_of` now
           /\ Editor.contentOf (Editor.run filePath earlier) = Editor.content request
           /\ Editor.autoSaveDelay <= Editor.quietFor earlier)
     /\ match ev with
        | Editor.Edit _ | Editor.Tick =>
            Editor.contentOf (Editor.run filePath now) = Editor.content request
            /\ Editor.autoSaveDelay <= Editor.quietFor now
        | _ => True
        end)
  /\ (forall (events : list Search.Event) (ev : Search.Event) (request : Search.SearchRequest),
        Search.searches (Search.step (Search.run events) ev)
          = Search.searches (Search.run events) ++ [request] ->
        let now := events ++ [ev] in
        Search.query request = Search.debouncedQuery (Search.run now)
        /\ (exists earlier, earlier `prefix_of` now
              /\ Search.queryOf (Search.run earlier) = Search.query request
              /\ Search.searchDelay <= Search.quietFor earlier)
        /\ match ev with
           | Search.Typed _ | Search.Tick =>
               Search.queryOf (Search.run now) = Search.query request
               /\ Search.searchDelay <= Search.quietFor now
           | _ => True
           end).
Proof.
  split.
  - intros events ev request Hposted now.
    destruct (editor_step_posts filePath _ _ _ Hposted) as (Hchanged & Hcontent & Hnonempty & Hdiffers).
    pose proof (editor_step_keeps filePath (Editor.run filePath events) ev) as [Hd Ho].
    assert (Hnow : Editor.run filePath now
                   = Editor.step filePath (Editor.run filePath events) ev)
      by apply editor_run_snoc.
    assert (Hdebounced : Editor.debouncedContent (Editor.run filePath now)
                         = Editor.content request).
    { rewrite Hnow, Hcontent. unfold Editor.debouncedContent. by rewrite Hd. }
    split; [done|]. split.
    { rewrite <- Hdebounced, Hnow. unfold Editor.debouncedContent. by rewrite Hd, Ho. }
    split.
    + destruct (hookAfter_debounced Editor.autoSaveDelay [] (Editor.inputOf <$> now))
        as [Hinitial|(inputs & Hprefix & Hcurrent & Hquiet)].
      * rewrite <- (editor_run_debounce filePath) in Hinitial.
        fold (Editor.debouncedContent (Editor.run filePath now)) in Hinitial.
        rewrite Hdebounced, Hcontent in Hinitial. done.
      * rewrite <- (editor_run_debounce filePath) in Hcurrent.
        fold (Editor.debouncedContent (Editor.run filePath now)) in Hcurrent.
        apply prefix_fmap_inv in Hprefix as (earlier & Hprefix & <-).
        exists earlier. split; [done|].
        by rewrite editor_run_content, Hcurrent, Hdebounced.
    + assert (Htick : ev = Editor.Tick ->
                Editor.contentOf (Editor.run filePath now) = Editor.content request
                /\ Editor.autoSaveDelay <= Editor.quietFor now).
      { intros ->. subst now.
        assert (Hfired : debouncedValue
                  (hookStep Editor.autoSaveDelay
                     (hookAfter Editor.autoSaveDelay [] (Editor.inputOf <$> events)) Elapse)
                  <> debouncedValue
                       (hookAfter Editor.autoSaveDelay [] (Editor.inputOf <$> events))).
        { rewrite <- (editor_run_debounce filePath). intros Hsame. apply Hchanged. split; [|done].
          unfold Editor.debouncedContent. by rewrite editor_update_debounce. }
        apply hookAfter_fired in Hfired as [Hvalue Hquiet].
        rewrite editor_run_content, <- Hdebounced.
        unfold Editor.debouncedContent, Editor.quietFor.
        rewrite editor_run_debounce, fmap_app. done. }
      destruct ev; try done.
      * exfalso. apply Hchanged. split; [|done].
        unfold Editor.debouncedContent. rewrite editor_update_debounce.
        apply change_keeps_debounced.
      * by apply Htick.
  - intros events ev request Hposted now.
    destruct (search_step_posts _ _ _ Hposted) as (Hran & Hquery & Hnonempty).
    assert (Hnow : Search.run now = Search.step (Search.run events) ev)
      by apply search_run_snoc.
    assert (Hdebounced : Search.debouncedQuery (Search.run now) = Search.query request).
    { rewrite Hnow, Hquery. unfold Search.debouncedQuery. by rewrite search_step_debounce. }
    split; [done|]. split.
    + destruct (hookAfter_debounced Search.searchDelay [] (Search.inputOf <$> now))
        as [Hinitial|(inputs & Hprefix & Hcurrent & Hquiet)].
      * rewrite <- search_run_debounce in Hinitial.
        fold (Search.debouncedQuery (Search.run now)) in Hinitial.
        rewrite Hdebounced, Hquery in Hinitial. done.
      * rewrite <- search_run_debounce in Hcurrent.
        fold (Search.debouncedQuery (Search.run now)) in Hcurrent.
        apply prefix_fmap_inv in Hprefix as (earlier & Hprefix & <-).
        exists earlier. split; [done|].
        by rewrite search_run_query, Hcurrent, Hdebounced.
    + assert (Htick : ev = Search.Tick ->
                Search.queryOf (Search.run now) = Search.query request
                /\ Search.searchDelay <= Search.quietFor now).
      { intros ->. subst now.
        assert (Hfired : debouncedValue
                  (hookStep Search.searchDelay
                     (hookAfter Search.searchDelay [] (Search.inputOf <$> events)) Elapse)
                  <> debouncedValue
                       (hookAfter Search.searchDelay [] (Search.inputOf <$> events))).
        { rewrite <- search_run_debounce. intros Hsame.
          destruct Hran as [Hran|[[? ?]|?]]; [|discriminate..]. apply Hran.
          unfold Search.debouncedQuery. by rewrite search_update_debounce. }
        apply hookAfter_fired in Hfired as [Hvalue Hquiet].
        rewrite search_run_query, <- Hdebounced.
        unfold Search.debouncedQuery, Search.quietFor.
        rewrite search_run_debounce, fmap_app. done. }
      destruct ev; try done.
      * exfalso. destruct Hran as [Hran|[[? ?]|?]]; [|discriminate..]. apply Hran.
        unfold Search.debouncedQuery. rewrite search_update_debounce.
        apply change_keeps_debounced.
      * by apply Htick.
Qed.


Lemma editor_posts_on (filePath : string) (st : Editor.State) (ev : Editor.Event)
    (request : Editor.SaveRequest) :
  Editor.saves (Editor.step filePath st ev) = Editor.saves st ++ [request] ->
  ev = Editor.Tick \/ (exists fileContent, ev = Editor.Loaded fileContent)
  \/ ev = Editor.SaveFulfilled.
Proof.
  intros Hposted.
  destruct (editor_step_posts filePath _ _ _ Hposted) as (Hchanged & _).
  destruct ev as [fileContent| |newValue| | |].
  - right. left. by exists fileContent.
  - exfalso. by apply Hchanged.
  - exfalso. apply Hchanged. split; [|done].
    unfold Editor.debouncedContent. rewrite editor_update_debounce.
    apply change_keeps_debounced.
  - by left.
  - by right; right.
  - exfalso. apply Hchanged. simpl. by destruct (Editor.inFlight st).
Qed.

Lemma search_posts_on (st : Search.State) (ev : Search.Event)
    (request : Search.SearchRequest) :
  Search.searches (Search.step st ev) = Search.searches st ++ [request] ->
  ev = Search.Tick \/ (exists newOptions, ev = Search.OptionsSet newOptions)
  \/ ev = Search.SearchClicked.
Proof.
  intros Hposted.
  destruct (search_step_posts _ _ _ Hposted) as ([Hchanged|[Hset|Hclicked]] & _).
  - destruct ev as [newQuery| |newOptions| |found|].
    + exfalso. apply Hchanged.
      unfold Search.debouncedQuery. rewrite search_update_debounce.
      apply change_keeps_debounced.
    + by left.
    + right. left. by exists newOptions.
    + by right; right.
    + exfalso. by apply Hchanged.
    + exfalso. by apply Hchanged.
  - by right; left.
  - by right; right.
Qed.



(** Suggestions are fetched on every keystroke that leaves more than one
    character; the search waits. *)
Example suggestions_are_not_debounced :
  let st := Search.run [Search.Typed (lit "a"); Search.Typed (lit "ab");
                        Search.Typed (lit "abc")] in
  Search.suggestionCalls st = [lit "ab"; lit "abc"] /\ Search.searches st = [].
Proof. by vm_compute. Qed.

End DebouncedRequestsProofs.

(** ** Delegated operations: the endpoints the client calls *)

Module DelegationProofs.
Import Js Delegation.

(** C5. The requests the components send for the five delegated
    operations, evaluated: those of the dataview panel, the kanban board,
    the PDF viewer and the two searches go to the endpoints the
    specification names, the reader's goes to [/api/render/markdown], not
    to [/api/markdown/render] as [markdownAPI.renderMarkdown] does, and
    the API service and the file service have their own endpoints for
    dataview execution, PDF export and search. *)
Theorem reader_posts_to_another_endpoint (base : string) (encode : string -> string)
    (text : string) :
  Reader.posted (Reader.run [Reader.ContentChanged (lit "# a") None])
    = [Reader.renderRequest (lit "# a") None]
  /\ Reader.url (Reader.renderRequest (lit "# a") None) = "/api/render/markdown"
  /\ Reader.url (Reader.renderRequest (lit "# a") None) <> endpointOf MarkdownRendering
  /\ ApiService.url (ApiService.markdownAPI_renderMarkdown base)
     = base +:+ endpointOf MarkdownRendering
  /\ (forall path q, DataView.url (DataView.requestOf path q) = endpointOf DataviewExecution)
  /\ (forall markdown, KanbanBoard.parse_url (KanbanBoard.parseRequest markdown)
                       = endpointOf KanbanParsing)
  /\ (forall markdown name, PDFViewer.url (PDFViewer.pdfRequest markdown name)
                            = endpointOf PdfExport)
  /\ (forall query options, UseSearch.url (UseSearch.searchRequest query options)
                            = endpointOf FullTextSearch)
  /\ (forall st, Search.url (Search.searchRequest st) = endpointOf FullTextSearch)
  /\ ApiService.url (ApiService.dataViewAPI_executeQuery base) = base +:+ "/api/dataview/query"
  /\ ApiService.url (ApiService.markdownAPI_exportToPdf base encode text)
     = base +:+ "/api/pdf/export?path=" +:+ encode text
  /\ ApiService.url (ApiService.searchAPI_searchFiles base encode text)
     = base +:+ "/api/search?q=" +:+ encode text
  /\ ApiService.url (ApiService.fileService_searchFiles base) = base +:+ "/search"
  /\ ApiService.url (ApiService.editorPage_handleExportToPDF base encode text)
     = base +:+ "/pdf/export?path=" +:+ encode text.
Proof. repeat split; done. Qed.

End DelegationProofs.

(** ** Kanban board: drops at the edges, and drops undone *)

Module KanbanBoardMore.
Import KanbanBoard KanbanBoardProofs.

#[local] Open Scope Z_scope.

Lemma withItems_items (column : KanbanColumn) : withItems column (items column) = column.
Proof. by destruct column. Qed.

Lemma withItems_twice (column : KanbanColumn) (l k : list Cell) :
  withItems (withItems column l) k = withItems column k.
Proof. done. Qed.

Lemma insert_then_delete {A} (l : list A) (j : nat) (x : A) :
  (j <= length l)%nat -> delete j (take j l ++ x :: drop j l) = l.
Proof.
  revert j. induction l as [|y l IH]; intros [|j] Hj; simpl in *; try done; try lia.
  f_equal. apply IH. lia.
Qed.

Lemma delete_then_insert {A} (l : list A) (i : nat) (x : A) :
  l !! i = Some x -> take i (delete i l) ++ x :: drop i (delete i l) = l.
Proof.
  revert i. induction l as [|y l IH]; intros [|i] Hi; simpl in *; try done.
  - by injection Hi as ->.
  - f_equal. by apply IH.
Qed.

Lemma relativeStart_past_end {A} (arr : list A) (start : Z) :
  Z.of_nat (length arr) <= start -> relativeStart arr start = length arr.
Proof.
  intros H. unfold relativeStart. destruct (Z.ltb_spec start 0); lia.
Qed.

Lemma relativeStart_before_start {A} (arr : list A) (start : Z) :
  start <= - Z.of_nat (length arr) -> relativeStart arr start = 0%nat.
Proof.
  intros H. unfold relativeStart. destruct (Z.ltb_spec start 0); lia.
Qed.

Lemma relativeStart_from_end {A} (arr : list A) (k : nat) :
  (0 < k <= length arr)%nat ->
  relativeStart arr (- Z.of_nat k) = (length arr - k)%nat.
Proof.
  intros H. unfold relativeStart. destruct (Z.ltb_spec (- Z.of_nat k) 0); lia.
Qed.

Lemma itemsOf_insert (columns : gmap string KanbanColumn) (k : string)
    (column : KanbanColumn) :
  itemsOf (<[k := column]> columns) k = items column.
Proof. unfold itemsOf. by rewrite lookup_insert_eq. Qed.

(** The handler on a drop whose source is a card of the board and whose
    destination column exists, for any destination index. *)
Lemma handleDragEnd_any_index (columns : gmap string KanbanColumn) (result : DropResult)
    (dest : DraggableLocation) (card : KanbanItem) :
  destination result = Some dest ->
  ~ (droppableId (source result) = droppableId dest /\ index (source result) = index dest) ->
  0 <= index (source result) ->
  itemsOf columns (droppableId (source result)) !! Z.to_nat (index (source result))
    = Some (Some card) ->
  is_Some (columns !! droppableId dest) ->
  let afterRemoval :=
    removeAt columns (droppableId (source result)) (Z.to_nat (index (source result))) in
  exists destColumn,
    afterRemoval !! droppableId dest = Some destColumn /\
    handleDragEnd false columns result =
      Returned (<[droppableId dest :=
                  withItems destColumn
                    (splice_insert (items destColumn) (index dest) (Some card))]>
                afterRemoval).
Proof.
  intros Hdest Hne H0 Hcard [dcol Hdcol]. simpl.
  destruct (itemsOf_lookup _ _ _ _ Hcard) as (scol & Hscol & Hi).
  rewrite (removeAt_alt _ _ _ _ Hscol).
  set (afterRemoval := <[_ := _]> columns) in *.
  assert (is_Some (afterRemoval !! droppableId dest)) as [destColumn HdestColumn].
  { subst afterRemoval.
    destruct (decide (droppableId (source result) = droppableId dest)) as [->|?].
    - rewrite lookup_insert_eq. eauto.
    - rewrite lookup_insert_ne by done. eauto. }
  exists destColumn. split; [done|].
  unfold handleDragEnd. rewrite Hdest, (sameLocation_false _ _ Hne), Hscol.
  pose proof (lookup_lt_Some _ _ _ Hi) as Hlt.
  unfold splice_delete1.
  rewrite !(relativeStart_in_range (items scol)) by lia.
  rewrite (drop_S _ _ _ Hi), <- delete_take_drop. simpl.
  fold afterRemoval. by rewrite HdestColumn.
Qed.

(** X1. A destination index past the end of the destination column
    appends the card, and a negative one counts from the end of the
    column, [-1] putting the card before the last one: no card is lost
    to an index out of range. *)
Theorem drop_index_is_clamped (columns : gmap string KanbanColumn) (result : DropResult)
    (dest : DraggableLocation) (card : KanbanItem) :
  destination result = Some dest ->
  ~ (droppableId (source result) = droppableId dest /\ index (source result) = index dest) ->
  0 <= index (source result) ->
  itemsOf columns (droppableId (source result)) !! Z.to_nat (index (source result))
    = Some (Some card) ->
  is_Some (columns !! droppableId dest) ->
  let others :=
    itemsOf (removeAt columns (droppableId (source result))
               (Z.to_nat (index (source result))))
      (droppableId dest) in
  exists newColumns,
    handleDragEnd false columns result = Returned newColumns
    /\ (Z.of_nat (length others) <= index dest ->
        itemsOf newColumns (droppableId dest) = others ++ [Some card])
    /\ (index dest <= - Z.of_nat (length others) ->
        itemsOf newColumns (droppableId dest) = Some card :: others)
    /\ (forall k : nat, (0 < k <= length others)%nat -> index dest = - Z.of_nat k ->
        itemsOf newColumns (droppableId dest)
        = take (length others - k) others ++ Some card :: drop (length others - k) others).
Proof.
  intros Hdest Hne H0 Hcard Hcol others.
  destruct (handleDragEnd_any_index _ _ _ _ Hdest Hne H0 Hcard Hcol)
    as (destColumn & Hd & ->).
  assert (Hothers : others = items destColumn).
  { subst others. unfold itemsOf. by rewrite Hd. }
  eexists. split; [reflexivity|].
  rewrite itemsOf_insert. simpl.
  rewrite Hothers. unfold splice_insert.
  split; [|split].
  - intros H. rewrite relativeStart_past_end by done.
    by rewrite take_ge, drop_ge by lia.
  - intros H. by rewrite relativeStart_before_start.
  - intros k Hk ->. by rewrite relativeStart_from_end.
Qed.

(** The theorem at [board]: the first "todo" card dropped at index 7 of
    "done", and at index -1. *)
Lemma drop_index_is_clamped_witness :
  (exists newColumns,
     handleDragEnd false board
       {| source := {| droppableId := "todo"; index := 0 |};
          destination := Some {| droppableId := "done"; index := 7 |} |}
     = Returned newColumns
     /\ itemsOf newColumns "done" = [Some (card "d"); Some (card "a")])
  /\ (exists newColumns,
     handleDragEnd false board
       {| source := {| droppableId := "todo"; index := 0 |};
          destination := Some {| droppableId := "done"; index := -1 |} |}
     = Returned newColumns
     /\ itemsOf newColumns "done" = [Some (card "a"); Some (card "d")]).
Proof.
  split.
  - destruct (drop_index_is_clamped board
                {| source := {| droppableId := "todo"; index := 0 |};
                   destination := Some {| droppableId := "done"; index := 7 |} |}
                {| droppableId := "done"; index := 7 |} (card "a") eq_refl
                ltac:(simpl; intros [? _]; discriminate) ltac:(simpl; lia) eq_refl
                ltac:(eexists; reflexivity))
      as (newColumns & Hrun & Hpast & _).
    exists newColumns. split; [exact Hrun|].
    exact (Hpast ltac:(vm_compute; discriminate)).
  - destruct (drop_index_is_clamped board
                {| source := {| droppableId := "todo"; index := 0 |};
                   destination := Some {| droppableId := "done"; index := -1 |} |}
                {| droppableId := "done"; index := -1 |} (card "a") eq_refl
                ltac:(simpl; intros [? _]; discriminate) ltac:(simpl; lia) eq_refl
                ltac:(eexists; reflexivity))
      as (newColumns & Hrun & _ & _ & Hback).
    exists newColumns. split; [exact Hrun|].
    exact (Hback 1%nat ltac:(vm_compute; lia) eq_refl).
Defined.

(** X2. A drop that is undone by the opposite drop leaves the board
    exactly as it was: moving a card from one position to another and
    then from there back to where it came from restores every column. *)
Theorem drop_and_back (columns : gmap string KanbanColumn) (result : DropResult)
    (dest : DraggableLocation) (card : KanbanItem) :
  destination result = Some dest ->
  ~ (droppableId (source result) = droppableId dest /\ index (source result) = index dest) ->
  validDrop columns (source result) dest card ->
  exists newColumns,
    handleDragEnd false columns result = Returned newColumns
    /\ handleDragEnd false newColumns
         {| source := dest; destination := Some (source result) |}
       = Returned columns.
Proof.
  intros Hdest Hne Hvalid.
  destruct (handleDragEnd_valid _ _ _ _ Hdest Hne Hvalid) as (destColumn & Hd & Hrun).
  destruct Hvalid as [H0 Hcard _ Hj].
  destruct (itemsOf_lookup _ _ _ _ Hcard) as (scol & Hscol & Hi).
  pose proof (lookup_lt_Some _ _ _ Hi) as Hlt.
  set (sid := droppableId (source result)) in *.
  set (i := Z.to_nat (index (source result))) in *.
  set (did := droppableId dest) in *.
  set (j := Z.to_nat (index dest)) in *.
  set (afterRemoval := removeAt columns sid i) in *.
  assert (Hlen : (j <= length (items destColumn))%nat).
  { unfold itemsOf in Hj. rewrite Hd in Hj. simpl in Hj. lia. }
  set (inserted := take j (items destColumn) ++ Some card :: drop j (items destColumn)) in *.
  set (newColumns := <[did := withItems destColumn inserted]> afterRemoval) in *.
  exists newColumns. split; [exact Hrun|].
  assert (Hafter : afterRemoval = <[sid := withItems scol (delete i (items scol))]> columns)
    by apply (removeAt_alt _ _ _ _ Hscol).
  assert (Hback : removeAt newColumns did j = afterRemoval).
  { rewrite (removeAt_alt _ _ _ (withItems destColumn inserted))
      by apply lookup_insert_eq.
    subst newColumns. rewrite insert_insert_eq.
    replace (withItems (withItems destColumn inserted)
               (delete j (items (withItems destColumn inserted)))) with destColumn;
      [by apply insert_id|].
    simpl. subst inserted. rewrite insert_then_delete by done.
    by rewrite withItems_twice, withItems_items. }
  assert (Hvalid' : validDrop newColumns dest (source result) card).
  { constructor.
    - lia.
    - fold did j. subst newColumns. rewrite itemsOf_insert. simpl. subst inserted.
      rewrite lookup_app_r by (rewrite length_take; lia).
      rewrite length_take. by replace (j - j `min` length (items destColumn))%nat with 0%nat by lia.
    - fold sid. subst newColumns.
      destruct (decide (did = sid)) as [->|Hds].
      + rewrite lookup_insert_eq. eauto.
      + rewrite lookup_insert_ne, Hafter, lookup_insert_eq by done. eauto.
    - fold sid i did j. rewrite Hback, Hafter, itemsOf_insert. simpl.
      rewrite length_delete by eauto. lia. }
  destruct (handleDragEnd_valid newColumns
              {| source := dest; destination := Some (source result) |}
              (source result) card eq_refl
              ltac:(simpl; intros [? ?]; apply Hne; by split) Hvalid')
    as (sourceColumn & Hs & ->).
  simpl in Hs |- *. fold sid i did j in Hs |- *.
  rewrite Hback in Hs |- *. rewrite Hafter, lookup_insert_eq in Hs.
  injection Hs as <-.
  replace (items (withItems scol (delete i (items scol)))) with (delete i (items scol))
    by done.
  rewrite delete_then_insert by done.
  rewrite Hafter, insert_insert_eq, withItems_twice, withItems_items.
  f_equal. by apply insert_id.
Qed.

(** The theorem at [board] and [dropAtDone]. *)
Lemma drop_and_back_witness :
  exists newColumns,
    handleDragEnd false board dropAtDone = Returned newColumns
    /\ handleDragEnd false newColumns
         {| source := {| droppableId := "done"; index := 1 |};
            destination := Some {| droppableId := "todo"; index := 0 |} |}
       = Returned board.
Proof.
  apply (drop_and_back board dropAtDone {| droppableId := "done"; index := 1 |} (card "a")
           eq_refl ltac:(simpl; intros [? _]; discriminate)).
  constructor; simpl.
  - lia.
  - reflexivity.
  - eexists. reflexivity.
  - vm_compute. split; discriminate.
Defined.

(** X3. A drop on a column that the board does not have throws, and what
    it leaves behind depends on which column is missing: with an unknown
    source column nothing has changed, with an unknown destination column
    the card has already been spliced out of its source column, and the
    board in memory has lost it. *)
Theorem drop_on_unknown_column (columns : gmap string KanbanColumn) (result : DropResult)
    (dest : DraggableLocation) :
  destination result = Some dest ->
  ~ (droppableId (source result) = droppableId dest /\ index (source result) = index dest) ->
  (columns !! droppableId (source result) = None ->
   handleDragEnd false columns result = Threw columns)
  /\ (forall card,
        0 <= index (source result) ->
        itemsOf columns (droppableId (source result)) !! Z.to_nat (index (source result))
          = Some (Some card) ->
        columns !! droppableId dest = None ->
        handleDragEnd false columns result
        = Threw (removeAt columns (droppableId (source result))
                   (Z.to_nat (index (source result))))).
Proof.
  intros Hdest Hne. split.
  - intros Hnone. unfold handleDragEnd.
    by rewrite Hdest, (sameLocation_false _ _ Hne), Hnone.
  - intros card H0 Hcard Hnone.
    destruct (itemsOf_lookup _ _ _ _ Hcard) as (scol & Hscol & Hi).
    pose proof (lookup_lt_Some _ _ _ Hi) as Hlt.
    assert (Hsd : droppableId (source result) <> droppableId dest) by congruence.
    rewrite (removeAt_alt _ _ _ _ Hscol).
    unfold handleDragEnd. rewrite Hdest, (sameLocation_false _ _ Hne), Hscol.
    unfold splice_delete1.
    rewrite !(relativeStart_in_range (items scol)) by lia.
    rewrite (drop_S _ _ _ Hi), <- delete_take_drop. simpl.
    by rewrite lookup_insert_ne, Hnone.
Qed.

(** The theorem at [board]: a drop from "doing", and a drop on "doing". *)
Lemma drop_on_unknown_column_witness :
  handleDragEnd false board
    {| source := {| droppableId := "doing"; index := 0 |};
       destination := Some {| droppableId := "todo"; index := 0 |} |}
  = Threw board
  /\ handleDragEnd false board
       {| source := {| droppableId := "todo"; index := 0 |};
          destination := Some {| droppableId := "doing"; index := 0 |} |}
     = Threw (removeAt board "todo" 0).
Proof.
  split.
  - exact (proj1 (drop_on_unknown_column board
             {| source := {| droppableId := "doing"; index := 0 |};
                destination := Some {| droppableId := "todo"; index := 0 |} |}
             {| droppableId := "todo"; index := 0 |} eq_refl
             ltac:(simpl; intros [? _]; discriminate)) eq_refl).
  - exact (proj2 (drop_on_unknown_column board
             {| source := {| droppableId := "todo"; index := 0 |};
                destination := Some {| droppableId := "doing"; index := 0 |} |}
             {| droppableId := "doing"; index := 0 |} eq_refl
             ltac:(simpl; intros [? _]; discriminate)) (card "a")
             ltac:(simpl; lia) eq_refl eq_refl).
Defined.

(** X26. A drop from a position without card.  When the source index
    is at or past the end of the source column, [splice] removes
    nothing, the moved item is [undefined], and the handler inserts
    that [undefined] cell in the destination column: no card moves, the
    source column keeps its cards, and the board has one cell more. *)
Theorem drop_from_a_position_without_card (columns : gmap string KanbanColumn)
    (result : DropResult) (dest : DraggableLocation)
    (sourceColumn destColumn : KanbanColumn) :
  destination result = Some dest ->
  ~ (droppableId (source result) = droppableId dest /\ index (source result) = index dest) ->
  columns !! droppableId (source result) = Some sourceColumn ->
  Z.of_nat (length (items sourceColumn)) <= index (source result) ->
  columns !! droppableId dest = Some destColumn ->
  handleDragEnd false columns result
  = Returned (<[droppableId dest :=
                withItems destColumn (splice_insert (items destColumn) (index dest) None)]>
              columns).
Proof.
  intros Hdest Hne Hsource Hindex HdestColumn.
  unfold handleDragEnd. rewrite Hdest, (sameLocation_false _ _ Hne), Hsource.
  unfold splice_delete1. rewrite (relativeStart_past_end _ _ Hindex).
  rewrite drop_all, take_ge, drop_ge by lia. simpl.
  rewrite app_nil_r, withItems_items, insert_id by done.
  by rewrite HdestColumn.
Qed.

(** The theorem at [board] and a drop from position 7 of its "todo"
    column, which has three cards. *)
Lemma drop_from_a_position_without_card_witness :
  itemsOf board "todo" = [Some (card "a"); Some (card "b"); Some (card "c")]
  /\ exists columns,
       handleDragEnd false board
         {| source := {| droppableId := "todo"; index := 7 |};
            destination := Some {| droppableId := "done"; index := 0 |} |}
       = Returned columns
       /\ itemsOf columns "done" = [None; Some (card "d")].
Proof.
  split; [by vm_compute|]. eexists. split.
  - exact (drop_from_a_position_without_card board
      {| source := {| droppableId := "todo"; index := 7 |};
         destination := Some {| droppableId := "done"; index := 0 |} |}
      {| droppableId := "done"; index := 0 |}
      {| id := "todo"; title := "To do";
         items := [Some (card "a"); Some (card "b"); Some (card "c")] |}
      {| id := "done"; title := "Done"; items := [Some (card "d")] |}
      eq_refl ltac:(by intros [? _]) ltac:(by vm_compute) ltac:(simpl; lia)
      ltac:(by vm_compute)).
  - by vm_compute.
Defined.

End KanbanBoardMore.

(** ** Dataview panel: the text of a query, and the entries of the results *)

Module DataViewMore.
Import Js DataView DataViewProofs.

Lemma stripPrefix_Some (p s rest : JsString) :
  stripPrefix p s = Some rest <-> s = p ++ rest.
Proof.
  revert s. induction p as [|a p IH]; intros s; simpl.
  - split; [by intros [= ->]|by intros ->].
  - destruct s as [|b s]; [split; [done|by intros ?]|].
    case_decide as Hab.
    + subst b. rewrite IH. split; [by intros ->|]. by intros [= ->].
    + split; [done|]. intros [= ? ?]. done.
Qed.

Lemma stripPrefix_app_None (p s t : JsString) :
  stripPrefix p (s ++ t) = None -> stripPrefix p s = None.
Proof.
  intros H. destruct (stripPrefix p s) as [r|] eqn:E; [|done].
  apply stripPrefix_Some in E. subst s.
  rewrite <- app_assoc in H.
  by rewrite (proj2 (stripPrefix_Some p _ (r ++ t)) eq_refl) in H.
Qed.

Lemma includes_unfold (needle hay : JsString) :
  includes needle hay =
    match stripPrefix needle hay with
    | Some _ => true
    | None => match hay with
              | [] => false
              | _ :: hay' => includes needle hay'
              end
    end.
Proof. by destruct hay. Qed.

(** The text before the first closing fence has no fence in it. *)
Lemma splitAtFence_first (s before after : JsString) :
  splitAtFence s = Some (before, after) ->
  s = before ++ fence ++ after /\ includes fence before = false.
Proof.
  revert before. induction s as [|c s IH]; intros before; rewrite splitAtFence_unfold.
  - destruct (stripPrefix fence []) as [rest|] eqn:E; [|done].
    apply stripPrefix_length in E. discriminate E.
  - destruct (stripPrefix fence (c :: s)) as [rest|] eqn:E.
    + intros H. injection H as <- <-. apply stripPrefix_Some in E. split; [done|].
      by vm_compute.
    + destruct (splitAtFence s) as [[b a]|]; [|done].
      intros H. injection H as <- <-.
      destruct (IH _ eq_refl) as [-> Hb]. split; [done|].
      rewrite includes_unfold.
      rewrite (stripPrefix_app_None fence (c :: b) (fence ++ a) E). exact Hb.
Qed.

Lemma skipWhiteSpace_head (s : JsString) (c : N) :
  head (skipWhiteSpace s) = Some c -> isWhiteSpace c = false.
Proof.
  induction s as [|d s IH]; simpl; [done|].
  destruct (isWhiteSpace d) eqn:E; [done|]. simpl. by intros [= <-].
Qed.

(** What the regular expression captures: text without a fence that
    does not begin with white space. *)
#[local] Abbreviation wellCaptured := (fun capture : JsString =>
  includes fence capture = false
  /\ forall c, head capture = Some c -> isWhiteSpace c = false).

Lemma exec_wellCaptured (s capture rest : JsString) :
  exec s = Some (capture, rest) -> wellCaptured capture.
Proof.
  induction s as [|c s IH]; rewrite exec_unfold.
  - intros H. by vm_compute in H.
  - destruct (matchHere (c :: s)) as [m|] eqn:E; [|exact IH].
    intros H. injection H as ->. unfold matchHere in E.
    destruct (stripPrefix openingFence (c :: s)) as [[|d s']|]; try done.
    destruct (isWhiteSpace d); [|done].
    apply splitAtFence_first in E as [Hs Hfence]. split; [done|].
    intros x Hx. apply (skipWhiteSpace_head s'). rewrite Hs.
    by destruct capture.
Qed.

Lemma matchAll_wellCaptured (content : JsString) :
  Forall wellCaptured (matchAll content).
Proof.
  apply (matchAll_elim (fun _ result => Forall wellCaptured result)).
  - intros rest capture rest' Hexec IH _. apply Forall_cons_2; [|done].
    by apply (exec_wellCaptured _ _ _ Hexec).
  - intros. by apply Forall_nil_2.
Qed.

Lemma exec_includes_opening (s capture rest : JsString) :
  exec s = Some (capture, rest) -> includes openingFence s = true.
Proof.
  induction s as [|c s IH]; rewrite exec_unfold, includes_unfold.
  - intros H. by vm_compute in H.
  - destruct (matchHere (c :: s)) as [m|] eqn:E.
    + intros _. unfold matchHere in E.
      by destruct (stripPrefix openingFence (c :: s)).
    + intros H. destruct (stripPrefix openingFence (c :: s)); [done|]. by apply IH.
Qed.

(** X4. The text of every extracted query contains [TABLE] or [LIST],
    contains no fence and does not begin with white space; the query is a
    table exactly when its text contains [TABLE], so that a block with
    both words is a table.  A content in which the opening fence does not
    occur has no queries. *)
Theorem extracted_query_text (content : JsString) :
  Forall (fun q =>
            (includes table (source q) = true \/ includes list_ (source q) = true)
            /\ includes fence (source q) = false
            /\ (forall c, head (source q) = Some c -> isWhiteSpace c = false)
            /\ type q = (if includes table (source q) then "table" else "list"))
    (extractQueries content)
  /\ (includes openingFence content = false -> extractQueries content = []).
Proof.
  rewrite extractQueries_spec. split.
  - apply Forall_forall. intros q [i Hq]%list_elem_of_lookup_1.
    rewrite list_lookup_imap in Hq.
    destruct (filter _ (matchAll content) !! i) as [capture|] eqn:Hi; [|done].
    injection Hq as <-. simpl.
    apply list_elem_of_lookup_2, list_elem_of_filter in Hi as [Hkept Hin].
    pose proof (proj1 (Forall_forall _ _) (matchAll_wellCaptured content) _ Hin)
      as [Hfence Hhead].
    split; [|done]. unfold isQuery in Hkept. by apply orb_true_iff in Hkept.
  - intros Hnone. rewrite matchAll_None; [done|].
    destruct (exec content) as [[capture rest]|] eqn:E; [|done].
    apply exec_includes_opening in E. congruence.
Qed.

(** The theorem at a content with a fence of another language. *)
Lemma extracted_query_text_witness :
  includes openingFence (lit "```js TABLE```") = false
  /\ extractQueries (lit "```js TABLE```") = [].
Proof.
  assert (H : includes openingFence (lit "```js TABLE```") = false) by (by vm_compute).
  split; [exact H|].
  exact (proj2 (extracted_query_text (lit "```js TABLE```")) H).
Defined.

(** X5. After [executeQueries] the results have an entry for exactly the
    ids of the queries, whatever the list of queries and the outcomes of
    the requests, so that no query is left without a result; when several
    queries have the same id, the entry is the one of the last of them. *)
Theorem results_cover_the_queries (path : string) (queries : list DataviewQuery)
    (backend : nat -> PostRequest -> Settled) :
  let run := executeQueries path queries backend in
  (forall k, is_Some (queryResults run !! k) <-> k ∈ (id <$> queries))
  /\ (forall i q,
        queries !! i = Some q ->
        (forall j q', i < j -> queries !! j = Some q' -> id q' <> id q) ->
        queryResults run !! id q = Some (resultOf q (backend i (requestOf path q)))).
Proof.
  simpl. induction queries as [|q' queries [IHdom IHlast]] using rev_ind.
  - split; [|by intros i q; rewrite lookup_nil].
    intros k. unfold executeQueries. simpl. rewrite lookup_empty, elem_of_nil.
    split; [by intros [? ?]|done].
  - rewrite executeQueries_snoc. simpl. split.
    + intros k. rewrite fmap_app, elem_of_app. simpl. rewrite list_elem_of_singleton.
      destruct (decide (id q' = k)) as [<-|Hk].
      * rewrite lookup_insert_eq. split; [by right|eauto].
      * rewrite lookup_insert_ne by done. rewrite IHdom. split; [by left|].
        by intros [?|?].
    + intros i q Hq Hlast.
      destruct (decide (i < length queries)) as [Hi|Hi].
      * rewrite lookup_app_l in Hq by done.
        rewrite lookup_insert_ne.
        -- apply IHlast; [done|]. intros j q'' Hij Hj. apply (Hlast j); [done|].
           rewrite lookup_app_l; [done|]. by apply lookup_lt_Some in Hj.
        -- apply (Hlast (length queries)); [done|]. by rewrite list_lookup_middle.
      * pose proof (lookup_lt_Some _ _ _ Hq) as Hlen.
        rewrite length_app in Hlen. simpl in Hlen.
        assert (i = length queries) as -> by lia.
        rewrite list_lookup_middle in Hq by done. injection Hq as <-.
        by rewrite lookup_insert_eq, executeQueries_sent, length_fmap.
Qed.

(** Two queries with one id, as a caller other than [extractQueries]
    could pass them. *)
Lemma results_cover_the_queries_witness :
  let first := {| type := "table"; source := lit "TABLE a"; id := "q" |} in
  let second := {| type := "list"; source := lit "LIST b"; id := "q" |} in
  queryResults (executeQueries "a.md" [first; second] failFirst) !! "q"
  = Some (resultOf second (failFirst 1 (requestOf "a.md" second))).
Proof.
  intros first second.
  apply (proj2 (results_cover_the_queries "a.md" [first; second] failFirst) 1 second eq_refl).
  intros j q' Hj Hq'. destruct j as [|[|[|j]]]; try lia; discriminate.
Defined.

End DataViewMore.


(** ** The providers over any sequence of operations *)

Module ContextsMore.
Import Contexts ContextsProofs.

(** What a reload would start with is what the client shows now. *)
#[local] Abbreviation shownIsStored c :=
  (theme c = initialTheme (localStorage c)
   /\ dataTheme c = Some (themeName (theme c))
   /\ isLeftNavCollapsed c = initialLeftNavCollapsed (localStorage c)).

Lemma onResponseError_app_state (error : AxiosError) (c : Client) :
  theme (onResponseError error c) = theme c
  /\ dataTheme (onResponseError error c) = dataTheme c
  /\ isLeftNavCollapsed (onResponseError error c) = isLeftNavCollapsed c.
Proof.
  unfold onResponseError. destruct (response error) as [r|]; [|done].
  by case_decide.
Qed.

Lemma intercept_app_state {A} (outcome : Settled A) (c : Client) :
  theme (intercept outcome c) = theme c
  /\ dataTheme (intercept outcome c) = dataTheme c
  /\ isLeftNavCollapsed (intercept outcome c) = isLeftNavCollapsed c.
Proof. destruct outcome; [done|]. apply onResponseError_app_state. Qed.

Lemma login_app_state (tokenResponse : Settled string) (userResponse : Settled User)
    (c : Client) :
  theme (login tokenResponse userResponse c) = theme c
  /\ dataTheme (login tokenResponse userResponse c) = dataTheme c
  /\ isLeftNavCollapsed (login tokenResponse userResponse c) = isLeftNavCollapsed c.
Proof.
  unfold login. destruct tokenResponse as [access_token|error]; simpl.
  - pose proof (intercept_app_state userResponse
      (localStorage_setItem "token" access_token (setError None (setIsLoading true c))))
      as (H1 & H2 & H3).
    by destruct userResponse.
  - apply (onResponseError_app_state error (setError None (setIsLoading true c))).
Qed.

Lemma checkAuth_app_state (userResponse : Settled User) (c : Client) :
  theme (checkAuth userResponse c) = theme c
  /\ dataTheme (checkAuth userResponse c) = dataTheme c
  /\ isLeftNavCollapsed (checkAuth userResponse c) = isLeftNavCollapsed c.
Proof.
  unfold checkAuth. destruct (localStorage c !! "token") as [[|a t]|]; [done| |done].
  destruct userResponse as [userData|error]; simpl; [done|].
  apply onResponseError_app_state.
Qed.

Lemma step_shownIsStored (c : Client) (op : Operation) :
  shownIsStored c -> shownIsStored (step c op).
Proof.
  intros (Htheme & Hdata & Hnav).
  assert (Hauth : forall c',
    (forall k, k <> "token" -> localStorage c' !! k = localStorage c !! k) ->
    theme c' = theme c /\ dataTheme c' = dataTheme c
      /\ isLeftNavCollapsed c' = isLeftNavCollapsed c ->
    shownIsStored c').
  { intros c' Hstorage (H1 & H2 & H3).
    unfold initialTheme, initialLeftNavCollapsed.
    rewrite !Hstorage by done. rewrite H1, H2, H3. done. }
  destruct op as [| |tokenResponse userResponse| |userResponse|error].
  - unfold initialTheme, initialLeftNavCollapsed; simpl.
    rewrite lookup_insert_eq, lookup_insert_ne by done.
    split; [by destruct (theme c)|]. split; [done|]. exact Hnav.
  - unfold initialTheme, initialLeftNavCollapsed; simpl.
    rewrite lookup_insert_eq, lookup_insert_ne by done.
    split; [exact Htheme|]. split; [exact Hdata|].
    by destruct (isLeftNavCollapsed c).
  - apply (Hauth (login tokenResponse userResponse c));
      [intros k Hk; by apply login_storage | apply login_app_state].
  - apply (Hauth (logout c)); [|done]. intros k Hk. simpl. by rewrite lookup_delete_ne.
  - apply (Hauth (checkAuth userResponse c));
      [intros k Hk; by apply checkAuth_storage | apply checkAuth_app_state].
  - apply (Hauth (onResponseError error c));
      [intros k Hk; by apply onResponseError_storage | apply onResponseError_app_state].
Qed.

(** X6. Whatever the providers do after a page load, in any order
    (theme and navigation toggles, logins, logouts, the start-up check,
    intercepted errors), the theme on screen is the one the stored
    [theme] entry stands for, the [data-theme] attribute of the document
    names it, and the collapsed flag is the one the stored
    [leftNavCollapsed] entry stands for: a reload at any moment shows
    the page as it was. *)
Theorem reload_shows_the_same_page (storage : gmap string string) (url : string)
    (ops : list Operation) :
  theme (foldl step (load storage url) ops)
    = initialTheme (localStorage (foldl step (load storage url) ops))
  /\ dataTheme (foldl step (load storage url) ops)
    = Some (themeName (theme (foldl step (load storage url) ops)))
  /\ isLeftNavCollapsed (foldl step (load storage url) ops)
    = initialLeftNavCollapsed (localStorage (foldl step (load storage url) ops)).
Proof.
  induction ops as [|op ops IH] using rev_ind; [done|].
  rewrite foldl_snoc. by apply step_shownIsStored.
Qed.

(** X7. How [login] ends.  It always leaves the loading flag off.  When
    both requests succeed the token is stored, the user is set, the
    error is cleared and the location is [/dashboard].  When the token
    request fails the error message is the server's non-empty [detail],
    or else the fixed text, and storage, user and location are what the
    response interceptor alone makes of them.  When the token request
    succeeds and the user request fails without a 401 status, the new
    token stays in local storage although the user and the location are
    unchanged; with a 401 status the token is removed again, the user is
    cleared and the location is [/login]. *)
Theorem login_outcomes (c : Client) :
  (forall tokenResponse userResponse,
     authLoading (login tokenResponse userResponse c) = false)
  /\ (forall access_token userData,
        let c' := login (Fulfilled access_token) (Fulfilled userData) c in
        localStorage c' !! "token" = Some access_token /\ user c' = Some userData
        /\ authError c' = None /\ location c' = "/dashboard")
  /\ (forall error userResponse,
        let c' := login (Rejected error) userResponse c in
        authError c' = Some (loginErrorMessage error)
        /\ loginErrorMessage error <> EmptyString
        /\ localStorage c' = localStorage (onResponseError error c)
        /\ user c' = user (onResponseError error c)
        /\ location c' = location (onResponseError error c))
  /\ (forall access_token error,
        (forall r, response error = Some r -> status r <> 401%Z) ->
        let c' := login (Fulfilled access_token) (Rejected error) c in
        localStorage c' !! "token" = Some access_token /\ user c' = user c
        /\ location c' = location c
        /\ authError c' = Some (loginErrorMessage error))
  /\ (forall access_token error r,
        response error = Some r -> status r = 401%Z ->
        let c' := login (Fulfilled access_token) (Rejected error) c in
        localStorage c' !! "token" = None /\ user c' = None
        /\ location c' = "/login"
        /\ authError c' = Some (loginErrorMessage error)).
Proof.
  split; [|split; [|split; [|split]]].
  - intros [access_token|error] userResponse; [|done].
    by destruct userResponse.
  - intros access_token userData c'. subst c'. simpl.
    by rewrite lookup_insert_eq.
  - intros error userResponse c'. subst c'. simpl.
    split; [done|]. split.
    { unfold loginErrorMessage. by destruct (response error) as [[s [[|a d]|]]|]. }
    unfold onResponseError. destruct (response error) as [r|]; [|done].
    by case_decide.
  - intros access_token error Hstatus c'. subst c'. simpl.
    unfold onResponseError. destruct (response error) as [r|] eqn:Hr; simpl.
    + rewrite decide_False by (by apply Hstatus). simpl. by rewrite lookup_insert_eq.
    + by rewrite lookup_insert_eq.
  - intros access_token error r Hr Hs c'. subst c'. simpl.
    rewrite (onResponseError_401 _ _ _ Hr Hs). simpl.
    by rewrite lookup_delete_eq.
Qed.

(** The theorem at [signedIn]: a login as another user whose user
    request fails with status 500 leaves the new token stored beside
    the previous user, and with status 401 signs the client out. *)
Lemma login_outcomes_witness :
  (localStorage (login (Fulfilled "xyz")
      (Rejected {| response := Some {| status := 500; detail := None |} |}) signedIn)
     !! "token" = Some "xyz"
   /\ user (login (Fulfilled "xyz")
      (Rejected {| response := Some {| status := 500; detail := None |} |}) signedIn)
     = user signedIn)
  /\ localStorage (login (Fulfilled "xyz") (Rejected unauthorized) signedIn) !! "token" = None.
Proof.
  pose proof (proj1 (proj2 (proj2 (proj2 (login_outcomes signedIn)))) "xyz"
    {| response := Some {| status := 500; detail := None |} |}
    ltac:(intros r [= <-]; by vm_compute)) as H500.
  pose proof (proj2 (proj2 (proj2 (proj2 (login_outcomes signedIn)))) "xyz"
    unauthorized {| status := 401; detail := Some "Not authenticated" |}
    eq_refl eq_refl) as H401.
  exact (conj (conj (proj1 H500) (proj1 (proj2 H500))) (proj1 H401)).
Defined.

(** X8. How the start-up check ends.  Without a token, or with an empty
    one, it sends nothing and only turns the loading flag off.  With a
    token, a fulfilled user request sets the user and keeps the token;
    any rejected one, a network failure among them, removes the token
    from local storage, and the location changes (to [/login]) only for
    a 401 status.  In every case the loading flag ends off and no other
    entry of local storage changes. *)
Theorem checkAuth_outcomes (c : Client) (userResponse : Settled User) :
  authLoading (checkAuth userResponse c) = false
  /\ (forall k, k <> "token" ->
        localStorage (checkAuth userResponse c) !! k = localStorage c !! k)
  /\ (localStorage c !! "token" = None \/ localStorage c !! "token" = Some EmptyString ->
      checkAuth userResponse c = setIsLoading false c)
  /\ (forall token, localStorage c !! "token" = Some token -> token <> EmptyString ->
      (forall userData, userResponse = Fulfilled userData ->
         user (checkAuth userResponse c) = Some userData
         /\ localStorage (checkAuth userResponse c) = localStorage c
         /\ location (checkAuth userResponse c) = location c)
      /\ (forall error, userResponse = Rejected error ->
         localStorage (checkAuth userResponse c) !! "token" = None
         /\ ((forall r, response error = Some r -> status r <> 401%Z) ->
             location (checkAuth userResponse c) = location c
             /\ user (checkAuth userResponse c) = user c))).
Proof.
  split; [|split; [|split]].
  - unfold checkAuth. destruct (localStorage c !! "token") as [[|a t]|]; [done| |done].
    by destruct userResponse.
  - intros k Hk. by apply checkAuth_storage.
  - unfold checkAuth. by intros [-> | ->].
  - intros token Htoken Hne. unfold checkAuth. rewrite Htoken.
    destruct token as [|a t]; [done|]. split.
    + by intros userData ->.
    + intros error ->. simpl. split; [apply lookup_delete_eq|].
      intros Hstatus. unfold onResponseError.
      destruct (response error) as [r|]; [|done].
      rewrite decide_False by (by apply Hstatus). done.
Qed.

(** The theorem at [signedIn] when the network is down at start-up:
    the token is removed and the location stays. *)
Lemma checkAuth_outcomes_witness :
  localStorage signedIn !! "token" = Some "abc"
  /\ localStorage (checkAuth (Rejected {| response := None |}) signedIn) !! "token" = None
  /\ location (checkAuth (Rejected {| response := None |}) signedIn) = location signedIn.
Proof.
  pose proof (proj2 (proj2 (proj2 (proj2 (checkAuth_outcomes signedIn
    (Rejected {| response := None |})))) "abc" eq_refl ltac:(discriminate))
    {| response := None |} eq_refl) as H.
  exact (conj eq_refl (conj (proj1 H) (proj1 (proj2 H ltac:(discriminate))))).
Defined.

(** X9. Signing out twice is signing out once, and so is meeting the
    same error twice in the response interceptor: the handler may be
    registered more than once (the effect that installs it never removes
    the one it installed before), and running it [n] times, for any
    [n] of at least one, ends in the state that running it once ends
    in. *)
Theorem interceptor_runs_are_idempotent (error : AxiosError) (c : Client) (n : nat) :
  1 <= n ->
  logout (logout c) = logout c
  /\ Nat.iter n (onResponseError error) c = onResponseError error c.
Proof.
  intros Hn.
  assert (Hlogout : forall c', logout (logout c') = logout c').
  { intros c'. unfold logout, navigate, setUser, localStorage_removeItem. simpl.
    f_equal. apply map_eq. intros k.
    destruct (decide (k = "token")) as [->|Hk].
    - by rewrite !lookup_delete_eq.
    - by rewrite !lookup_delete_ne. }
  split; [apply Hlogout|].
  assert (Honce : forall c', onResponseError error (onResponseError error c')
                             = onResponseError error c').
  { intros c'. unfold onResponseError. destruct (response error) as [r|]; [|done].
    case_decide; [|done].
    change (navigate "/login" (logout (navigate "/login" (logout c'))))
      with (navigate "/login" (logout (logout c'))).
    by rewrite Hlogout. }
  destruct n as [|n]; [lia|]. clear Hn.
  induction n as [|n IH]; [done|].
  change (Nat.iter (S (S n)) (onResponseError error) c)
    with (onResponseError error (Nat.iter (S n) (onResponseError error) c)).
  by rewrite IH, Honce.
Qed.

(** The theorem at [signedIn] and three runs of the handler. *)
Lemma interceptor_runs_are_idempotent_witness :
  Nat.iter 3 (onResponseError unauthorized) signedIn = onResponseError unauthorized signedIn.
Proof.
  exact (proj2 (interceptor_runs_are_idempotent unauthorized signedIn 3 ltac:(lia))).
Defined.

End ContextsMore.


(** ** Paths and breadcrumbs *)

Module BreadcrumbsProofs.
Import Js Breadcrumbs.

Lemma split_cons (c : N) (s : JsString) :
  split (c :: s)
  = if decide (c = slash) then [] :: split s
    else match split s with
         | piece :: pieces => (c :: piece) :: pieces
         | [] => [[c]]
         end.
Proof. reflexivity. Qed.

Lemma split_not_nil (s : JsString) : split s <> [].
Proof.
  destruct s as [|c s]; [done|]. rewrite split_cons.
  case_decide; [done|]. by destruct (split s).
Qed.

Lemma split_cons_slash (s : JsString) : split (slash :: s) = [] :: split s.
Proof. rewrite split_cons. by rewrite decide_True. Qed.

Lemma split_cons_other (c : N) (s : JsString) :
  c <> slash ->
  exists piece pieces, split s = piece :: pieces /\ split (c :: s) = (c :: piece) :: pieces.
Proof.
  intros Hc. rewrite split_cons, decide_False by done.
  destruct (split s) as [|piece pieces] eqn:Hs; [by apply split_not_nil in Hs|].
  by exists piece, pieces.
Qed.

Lemma split_app (a b : JsString) : split (a ++ slash :: b) = split a ++ split b.
Proof.
  induction a as [|c a IH].
  - by rewrite app_nil_l, split_cons_slash.
  - destruct (decide (c = slash)) as [->|Hc].
    + change ((slash :: a) ++ slash :: b) with (slash :: (a ++ slash :: b)).
      by rewrite !split_cons_slash, IH.
    + change ((c :: a) ++ slash :: b) with (c :: (a ++ slash :: b)).
      destruct (split_cons_other c a Hc) as (piece & pieces & Ha & ->).
      destruct (split_cons_other c (a ++ slash :: b) Hc) as (piece' & pieces' & Hab & ->).
      rewrite IH, Ha in Hab. simpl in Hab. by injection Hab as <- <-.
Qed.

Lemma split_no_slash (s : JsString) : Forall (fun piece => slash ∉ piece) (split s).
Proof.
  induction s as [|c s IH].
  - apply Forall_cons_2; [|done]. apply not_elem_of_nil.
  - destruct (decide (c = slash)) as [->|Hc].
    + rewrite split_cons_slash. apply Forall_cons_2; [apply not_elem_of_nil|done].
    + destruct (split_cons_other c s Hc) as (piece & pieces & Hs & ->).
      rewrite Hs in IH. apply Forall_cons_1 in IH as [Hpiece Hpieces].
      apply Forall_cons_2; [|done]. rewrite elem_of_cons. by intros [?|?].
Qed.

Lemma split_without_slash (s : JsString) : slash ∉ s -> split s = [s].
Proof.
  induction s as [|c s IH]; [done|].
  rewrite elem_of_cons. intros Hs.
  destruct (split_cons_other c s) as (piece & pieces & Hsplit & ->); [naive_solver|].
  rewrite IH in Hsplit by naive_solver. by injection Hsplit as <- <-.
Qed.

Lemma join_cons (piece : JsString) (pieces : list JsString) :
  pieces <> [] -> join (piece :: pieces) = piece ++ slash :: join pieces.
Proof. by destruct pieces. Qed.

Lemma join_snoc (pieces : list JsString) (piece : JsString) :
  pieces <> [] -> join (pieces ++ [piece]) = join pieces ++ slash :: piece.
Proof.
  induction pieces as [|p pieces IH]; [done|]. intros _.
  destruct pieces as [|q pieces]; [done|].
  change ((p :: q :: pieces) ++ [piece]) with (p :: ((q :: pieces) ++ [piece])).
  rewrite join_cons by done. rewrite IH by done.
  rewrite (join_cons p (q :: pieces)) by done. by rewrite <- app_assoc.
Qed.

Lemma join_split (s : JsString) : join (split s) = s.
Proof.
  induction s as [|c s IH]; [done|].
  destruct (decide (c = slash)) as [->|Hc].
  - rewrite split_cons_slash, join_cons by apply split_not_nil. by rewrite IH.
  - destruct (split_cons_other c s Hc) as (piece & pieces & Hs & ->).
    rewrite Hs in IH. destruct pieces as [|q pieces]; simpl in *; by rewrite IH.
Qed.

Lemma nonEmpty_app (l k : list JsString) : nonEmpty (l ++ k) = nonEmpty l ++ nonEmpty k.
Proof. apply filter_app. Qed.

Lemma nonEmpty_id (pieces : list JsString) :
  Forall (fun piece => piece <> []) pieces -> nonEmpty pieces = pieces.
Proof.
  induction 1 as [|piece pieces Hpiece Hpieces IH]; [done|].
  unfold nonEmpty in *. rewrite filter_cons_True by done. by rewrite IH.
Qed.

Lemma nonEmpty_Forall (pieces : list JsString) :
  Forall (fun piece => piece <> []) (nonEmpty pieces).
Proof.
  apply Forall_forall. intros piece Hin.
  by apply list_elem_of_filter in Hin as [? _].
Qed.

(** Splitting the joined non-empty, slash-free pieces gives them back. *)
Lemma split_join (pieces : list JsString) :
  pieces <> [] -> Forall (fun piece => slash ∉ piece) pieces ->
  split (join pieces) = pieces.
Proof.
  induction pieces as [|p pieces IH]; [done|]. intros _ Hall.
  apply Forall_cons_1 in Hall as [Hp Hall].
  destruct pieces as [|q pieces]; [by apply split_without_slash|].
  rewrite join_cons by done. rewrite split_app, IH by done.
  by rewrite split_without_slash.
Qed.

(** X10. The breadcrumbs of a path.  No crumb after [Home] is empty or
    contains a slash.  The crumbs of two paths put together with a
    slash are the crumbs of the first followed by the crumbs of the
    second, so leading, trailing and doubled slashes add no crumb.  The
    crumbs joined with slashes have the same breadcrumbs again, and the
    empty path has no breadcrumbs at all, not even [Home]. *)
Theorem breadcrumbs_of_a_path (path : JsString) :
  getBreadcrumbs [] = []
  /\ Forall (fun crumb => crumb <> [] /\ slash ∉ crumb) (nonEmpty (split path))
  /\ (forall a b, getBreadcrumbs (a ++ slash :: b)
                  = home :: nonEmpty (split a) ++ nonEmpty (split b))
  /\ getBreadcrumbs (slash :: path) = home :: nonEmpty (split path)
  /\ getBreadcrumbs (path ++ [slash]) = home :: nonEmpty (split path)
  /\ nonEmpty (split (join (nonEmpty (split path)))) = nonEmpty (split path).
Proof.
  assert (Happ : forall a b, getBreadcrumbs (a ++ slash :: b)
                             = home :: nonEmpty (split a) ++ nonEmpty (split b)).
  { intros a b. unfold getBreadcrumbs.
    destruct (a ++ slash :: b) eqn:Hab; [by destruct a|].
    by rewrite <- Hab, split_app, nonEmpty_app. }
  assert (Hcrumbs : Forall (fun crumb => crumb <> [] /\ slash ∉ crumb)
                      (nonEmpty (split path))).
  { apply Forall_forall. intros crumb Hin.
    apply list_elem_of_filter in Hin as [Hne Hin]. split; [done|].
    pose proof (split_no_slash path) as Hall.
    rewrite Forall_forall in Hall. by apply Hall. }
  split; [done|]. split; [exact Hcrumbs|]. split; [exact Happ|].
  split; [exact (Happ [] path)|]. split.
  { rewrite (Happ path []). simpl. unfold nonEmpty at 2.
    rewrite filter_cons_False by (intros H; by apply H). by rewrite app_nil_r. }
  destruct (nonEmpty (split path)) as [|crumb crumbs] eqn:Hpieces; [done|].
  rewrite split_join; [|done|by eapply Forall_impl; [exact Hcrumbs|intros ? []]].
  apply nonEmpty_id. by eapply Forall_impl; [exact Hcrumbs|intros ? []].
Qed.

(** X11. The parent of a deleted file.  Splitting a path at its slashes
    and joining the pieces again gives the path back.  A path with a
    slash is its parent path, a slash, and a last piece without slash;
    a path without slash has the empty parent path, and the page is
    then sent to the root. *)
Theorem parent_of_a_path (decodedPath : JsString) :
  join (split decodedPath) = decodedPath
  /\ (slash ∈ decodedPath ->
      exists name, (slash ∉ name) /\ decodedPath = parentPath decodedPath ++ slash :: name)
  /\ (slash ∉ decodedPath ->
      parentPath decodedPath = [] /\ parentTarget decodedPath = [slash]).
Proof.
  split; [apply join_split|]. split.
  - intros Hin. apply list_elem_of_split in Hin as (a & b & ->).
    pose proof (join_split (a ++ slash :: b)) as Hjoin.
    unfold parentPath. rewrite split_app in *.
    destruct (exists_last (split_not_nil b)) as (pieces & name & Hb).
    rewrite Hb, app_assoc in *. rewrite removelast_last.
    exists name. split.
    + pose proof (split_no_slash b) as Hall. rewrite Hb in Hall.
      apply Forall_app in Hall as [_ Hall]. by apply Forall_cons_1 in Hall as [? _].
    + rewrite <- Hjoin at 1. apply join_snoc.
      pose proof (split_not_nil a). by destruct (split a).
  - intros Hnot. unfold parentTarget, parentPath.
    by rewrite split_without_slash.
Qed.

(** The theorem at the path [notes/todo.md] and at the path [todo.md]. *)
Lemma parent_of_a_path_witness :
  (exists name, (slash ∉ name)
     /\ lit "notes/todo.md" = parentPath (lit "notes/todo.md") ++ slash :: name)
  /\ parentTarget (lit "todo.md") = [slash].
Proof.
  split.
  - apply (proj1 (proj2 (parent_of_a_path (lit "notes/todo.md")))).
    apply (bool_decide_unpack _). by vm_compute.
  - apply (proj2 (proj2 (parent_of_a_path (lit "todo.md")))).
    apply (bool_decide_unpack _). by vm_compute.
Defined.

End BreadcrumbsProofs.

(** ** The route guard *)

Module RoutesProofs.
Import Contexts Routes.

Lemma authValue_isAuthenticated (c : Client) :
  property (authValue c) "isAuthenticated" = Undefined.
Proof.
  unfold property, authValue.
  by rewrite !lookup_insert_ne, lookup_empty by done.
Qed.

Lemma authValue_isLoading (c : Client) :
  property (authValue c) "isLoading" = Boolean (authLoading c).
Proof.
  unfold property, authValue.
  by rewrite lookup_insert_ne, lookup_insert_eq by done.
Qed.

(** X12. The route guard reads [isAuthenticated] from the context
    value, which has no property of that name, and so reads
    [undefined] at run time.  So for every state of the providers,
    signed in or not, a guarded route shows the spinner while the
    loading flag is on and otherwise redirects to [/login]: the login
    route shows the login page, the catch-all route redirects to [/],
    and no route shows the dashboard or the editor page. *)
Theorem guarded_pages_are_never_shown (c : Client) (route : Route) :
  (forall children, ProtectedRoute (authValue c) children
                    = if authLoading c then Spinner else Navigate "/login")
  /\ element (authValue c) route
     = match route with
       | LoginRoute => Show LoginPage
       | RootRoute | EditorRoute => if authLoading c then Spinner else Navigate "/login"
       | OtherRoute => Navigate "/"
       end.
Proof.
  assert (Hguard : forall children, ProtectedRoute (authValue c) children
                    = if authLoading c then Spinner else Navigate "/login").
  { intros children. unfold ProtectedRoute.
    rewrite authValue_isAuthenticated, authValue_isLoading. simpl.
    by destruct (authLoading c). }
  split; [exact Hguard|].
  destruct route; simpl; by rewrite ?Hguard.
Qed.

End RoutesProofs.

(** ** Toasts *)

Module ToastsProofs.
Import Toasts.

Lemma removeToast_app (id' : string) (l k : list Toast) :
  removeToast id' (l ++ k) = removeToast id' l ++ removeToast id' k.
Proof. apply filter_app. Qed.

Lemma removeToast_fresh (id' : string) (toasts : list Toast) :
  Forall (fun toast => id toast <> id') toasts -> removeToast id' toasts = toasts.
Proof.
  induction 1 as [|toast toasts Htoast Htoasts IH]; [done|].
  unfold removeToast in *. rewrite filter_cons_True by done. by rewrite IH.
Qed.

(** X13. Adding and removing toasts.  Removing the toast just added
    gives the list before it was added when its id was not in use, and
    in every case removes the older toasts of that id with it.  Adding
    a toast of another id and removing can be done in either order.
    After a removal no toast of that id is left, and the other toasts
    keep their order. *)
Theorem toasts_add_and_remove (id' message : string) (type : ToastType)
    (duration : option nat) (toasts : list Toast) :
  (Forall (fun toast => id toast <> id') toasts ->
   removeToast id' (addToast id' message type duration toasts) = toasts)
  /\ removeToast id' (addToast id' message type duration toasts) = removeToast id' toasts
  /\ (forall other, other <> id' ->
        removeToast other (addToast id' message type duration toasts)
        = addToast id' message type duration (removeToast other toasts))
  /\ Forall (fun toast => id toast <> id') (removeToast id' toasts)
  /\ removeToast id' toasts `sublist_of` toasts.
Proof.
  assert (Hsame : removeToast id' (addToast id' message type duration toasts)
                  = removeToast id' toasts).
  { unfold addToast. rewrite removeToast_app. unfold removeToast at 2.
    rewrite filter_cons_False by (simpl; intros H; by apply H).
    by rewrite app_nil_r. }
  split; [|split; [|split; [|split]]].
  - intros Hfresh. by rewrite Hsame, removeToast_fresh.
  - exact Hsame.
  - intros other Hother. unfold addToast. rewrite removeToast_app.
    unfold removeToast at 2. by rewrite filter_cons_True by (simpl; congruence).
  - apply Forall_forall. intros toast Hin.
    by apply list_elem_of_filter in Hin as [? _].
  - apply sublist_filter.
Qed.

(** The theorem at a list of one toast and a new id. *)
Lemma toasts_add_and_remove_witness :
  removeToast "b2" (addToast "b2" "Saved" success None
    [{| id := "a1"; message := "Hello"; type := info; duration := 5000 |}])
  = [{| id := "a1"; message := "Hello"; type := info; duration := 5000 |}].
Proof.
  apply (proj1 (toasts_add_and_remove "b2" "Saved" success None
    [{| id := "a1"; message := "Hello"; type := info; duration := 5000 |}])).
  apply Forall_cons_2; [discriminate|apply Forall_nil_2].
Defined.

End ToastsProofs.


(** ** The search box over any sequence of events *)

Module SearchMore.
Import Js Debounce Search DebouncedRequestsProofs.

Lemma hookStep_value {A} `{EqDecision A} (delay : nat) (h : Hook A) (i : Input A) :
  value (hookStep delay h i) = value h \/ i = Change (value (hookStep delay h i)).
Proof.
  destruct i as [v| |]; simpl.
  - case_decide; [by left|by right].
  - destruct (timer h); [case_decide|]; by left.
  - by left.
Qed.

Lemma hookStep_debounced {A} `{EqDecision A} (delay : nat) (h : Hook A) (i : Input A) :
  debouncedValue (hookStep delay h i) = debouncedValue h
  \/ debouncedValue (hookStep delay h i) = value h.
Proof.
  destruct i as [v| |]; simpl.
  - case_decide; by left.
  - destruct (timer h); [case_decide|]; by (left + right).
  - by left.
Qed.

(** The requests of one event. *)
Lemma step_searches (st : State) (ev : Event) :
  searches (step st ev) = searches st
  \/ exists r, searches (step st ev) = searches st ++ [r]
       /\ url r = "/api/search/query" /\ query r = debouncedQuery (step st ev)
       /\ 2 <= length (query r)
       /\ include_content r = true /\ limit r = 20 /\ offset r = 0.
Proof.
  destruct (search_clicked_or_not ev) as [->|Hev].
  - simpl. unfold clickSearch. case_decide; [by left|].
    unfold performSearch. destruct (debouncedQuery st) as [|c q] eqn:Hq; [by left|].
    right. eexists. split; [reflexivity|]. simpl.
    unfold debouncedQuery in *. simpl. rewrite Hq in *. repeat split; try done. lia.
  - rewrite (search_step_effects st ev Hev). cbv zeta.
    set (st' := update st ev).
    assert (Heffect : searches (searchEffect st') = searches st
      \/ exists r, searches (searchEffect st') = searches st ++ [r]
           /\ url r = "/api/search/query" /\ query r = debouncedQuery (searchEffect st')
           /\ 2 <= length (query r)
           /\ include_content r = true /\ limit r = 20 /\ offset r = 0).
    { pose proof (search_update_searches st ev) as Hupdate. fold st' in Hupdate.
      unfold searchEffect. case_decide as Hlen; [|by left].
      unfold performSearch.
      destruct (debouncedQuery st') as [|c q] eqn:Hq; [by left|].
      right. eexists. split; [by rewrite <- Hupdate|]. simpl.
      unfold debouncedQuery in *. simpl. rewrite Hq in *. repeat split; try done. lia. }
    set (st'' := if bool_decide (debouncedQuery st' = debouncedQuery st)
                    && negb (match ev with OptionsSet _ => true | _ => false end)
                 then st' else searchEffect st') in *.
    assert (Hst'' : searches st'' = searches st
      \/ exists r, searches st'' = searches st ++ [r]
           /\ url r = "/api/search/query" /\ query r = debouncedQuery st''
           /\ 2 <= length (query r)
           /\ include_content r = true /\ limit r = 20 /\ offset r = 0).
    { subst st''. destruct (_ && _); [left; apply search_update_searches|exact Heffect]. }
    clearbody st''.
    case_bool_decide; [exact Hst''|].
    destruct (search_suggestionEffect_keeps st'') as [Hd Hs].
    unfold debouncedQuery in *. by rewrite Hd, Hs.
Qed.

Lemma step_suggestionCalls (st : State) (ev : Event) :
  suggestionCalls (step st ev) = suggestionCalls st
  \/ (suggestionCalls (step st ev) = suggestionCalls st ++ [queryOf (step st ev)]
      /\ 1 < length (queryOf (step st ev))).
Proof.
  destruct (search_clicked_or_not ev) as [->|Hev].
  - left. simpl. unfold clickSearch. case_decide; [done|].
    unfold performSearch. by destruct (debouncedQuery st).
  - rewrite (search_step_effects st ev Hev). cbv zeta.
    set (st' := update st ev).
    set (st'' := if bool_decide (debouncedQuery st' = debouncedQuery st)
                    && negb (match ev with OptionsSet _ => true | _ => false end)
                 then st' else searchEffect st').
    assert (Hupdate : suggestionCalls st' = suggestionCalls st) by by destruct ev.
    assert (Heffect : suggestionCalls (searchEffect st') = suggestionCalls st).
    { unfold searchEffect. case_decide; [|done].
      unfold performSearch. by destruct (debouncedQuery st'). }
    assert (Hst'' : suggestionCalls st'' = suggestionCalls st).
    { subst st''. by destruct (_ && _). }
    clearbody st''.
    case_bool_decide; [by left|].
    unfold suggestionEffect. case_decide; [|by left].
    right. simpl. rewrite Hst''. split; [done|]. by unfold queryOf.
Qed.

#[local] Abbreviation typedBefore events q := (Typed q ∈ events).

#[local] Abbreviation wellFormed events r :=
  (url r = "/api/search/query" /\ 2 <= length (query r) /\ typedBefore events (query r)
   /\ include_content r = true /\ limit r = 20 /\ offset r = 0).

#[local] Abbreviation traceInvariant events st :=
  ((queryOf st = [] \/ typedBefore events (queryOf st))
   /\ (debouncedQuery st = [] \/ typedBefore events (debouncedQuery st))
   /\ Forall (fun r => wellFormed events r) (searches st)
   /\ Forall (fun q => 1 < length q /\ typedBefore events q) (suggestionCalls st)).

Lemma step_traceInvariant (events : list Event) (st : State) (ev : Event) :
  traceInvariant events st -> traceInvariant (events ++ [ev]) (step st ev).
Proof.
  intros (Hquery & Hdebounced & Hsearches & Hcalls).
  assert (Hq : queryOf (step st ev) = [] \/ typedBefore (events ++ [ev]) (queryOf (step st ev))).
  { unfold queryOf. rewrite search_step_debounce, search_update_debounce.
    destruct (hookStep_value searchDelay (debounce st) (inputOf ev)) as [->|Hchange].
    - destruct Hquery as [?|?]; [by left|right]. apply elem_of_app. by left.
    - right. apply elem_of_app. right. apply list_elem_of_singleton.
      set (v := value (hookStep searchDelay (debounce st) (inputOf ev))) in *.
      clearbody v. destruct ev; try done. by injection Hchange as <-. }
  assert (Hd : debouncedQuery (step st ev) = []
               \/ typedBefore (events ++ [ev]) (debouncedQuery (step st ev))).
  { unfold debouncedQuery. rewrite search_step_debounce, search_update_debounce.
    destruct (hookStep_debounced searchDelay (debounce st) (inputOf ev)) as [->| ->].
    - destruct Hdebounced as [?|?]; [by left|right]. apply elem_of_app. by left.
    - destruct Hquery as [?|?]; [by left|right]. apply elem_of_app. by left. }
  split; [exact Hq|]. split; [exact Hd|]. split.
  - assert (Hold : Forall (fun r => wellFormed (events ++ [ev]) r) (searches st)).
    { eapply Forall_impl; [exact Hsearches|]. intros r (? & ? & ? & ? & ? & ?).
      repeat split; try done. apply elem_of_app. by left. }
    destruct (step_searches st ev) as [->|(r & -> & Hurl & Hr & Hlen & Hrest)]; [done|].
    apply Forall_app. split; [done|]. apply Forall_cons_2; [|done].
    split; [done|]. split; [done|]. split; [|done].
    rewrite Hr. destruct Hd as [Hempty|?]; [|done].
    rewrite Hr, Hempty in Hlen. simpl in Hlen. lia.
  - assert (Hold : Forall (fun q => 1 < length q /\ typedBefore (events ++ [ev]) q)
                     (suggestionCalls st)).
    { eapply Forall_impl; [exact Hcalls|]. intros q [? ?].
      split; [done|]. apply elem_of_app. by left. }
    destruct (step_suggestionCalls st ev) as [->|[-> Hlen]]; [done|].
    apply Forall_app. split; [done|]. apply Forall_cons_2; [|done].
    split; [done|]. destruct Hq as [Hempty|?]; [|done].
    rewrite Hempty in Hlen. simpl in Hlen. lia.
Qed.

(** X14. The requests of the search box, after any sequence of events
    (typing, time passing, options set, clicks on the Search button,
    responses).  Every search request goes to [/api/search/query], asks
    for the content, a limit of 20 and offset 0, and carries a query of
    at least two code units that was put in the input at some earlier
    moment (typed, or chosen among the suggestions); every suggestion
    request carries a query of more than one code unit that was put in
    the input at some earlier moment. *)
Theorem search_requests_were_typed (events : list Event) :
  Forall (fun r => url r = "/api/search/query" /\ 2 <= length (query r)
                   /\ Typed (query r) ∈ events
                   /\ include_content r = true /\ limit r = 20 /\ offset r = 0)
         (searches (run events))
  /\ Forall (fun q => 1 < length q /\ Typed q ∈ events) (suggestionCalls (run events)).
Proof.
  enough (traceInvariant events (run events)) as (_ & _ & ? & ?) by done.
  induction events as [|ev events IH] using rev_ind.
  - split; [by left|]. split; [by left|]. by split.
  - rewrite search_run_snoc. by apply step_traceInvariant.
Qed.

(** X15. A keystroke.  Setting the query to the value it has changes
    nothing.  Setting it to another value never posts a search and never
    touches the results; it asks for suggestions at once, without any
    delay, when the new query has more than one code unit, and asks for
    nothing otherwise. *)
Theorem keystroke_fetches_suggestions_at_once (st : State) (newQuery : JsString) :
  step st (Typed (queryOf st)) = st
  /\ (newQuery <> queryOf st ->
      queryOf (step st (Typed newQuery)) = newQuery
      /\ debouncedQuery (step st (Typed newQuery)) = debouncedQuery st
      /\ searches (step st (Typed newQuery)) = searches st
      /\ results (step st (Typed newQuery)) = results st
      /\ suggestionCalls (step st (Typed newQuery))
         = if decide (1 < length newQuery) then suggestionCalls st ++ [newQuery]
           else suggestionCalls st).
Proof.
  split.
  - unfold step, update, queryOf, debouncedQuery. simpl.
    rewrite decide_True by done. simpl.
    rewrite (bool_decide_eq_true_2 (debouncedValue (debounce st) = _)) by done. simpl.
    rewrite bool_decide_eq_true_2 by done. by destruct st.
  - intros Hnew. unfold step, update, queryOf, debouncedQuery in *. simpl.
    rewrite decide_False by done. simpl.
    rewrite (bool_decide_eq_true_2 (debouncedValue (debounce st) = _)) by done. simpl.
    rewrite bool_decide_eq_false_2 by done.
    unfold suggestionEffect, queryOf. simpl. by case_decide.
Qed.

(** The theorem at the empty search box and the query [ab]. *)
Lemma keystroke_fetches_suggestions_at_once_witness :
  searches (step initial (Typed (lit "ab"))) = []
  /\ suggestionCalls (step initial (Typed (lit "ab"))) = [lit "ab"].
Proof.
  pose proof (proj2 (keystroke_fetches_suggestions_at_once initial (lit "ab"))
    ltac:(by vm_compute)) as H.
  exact (conj (proj1 (proj2 (proj2 H))) (proj2 (proj2 (proj2 (proj2 H))))).
Defined.

(** X16. A query of exactly two code units.  When the debounce delay
    ends on such a query the search effect posts nothing and empties the
    results; a click on the Search button, which is enabled from two
    code units on, then posts the search for it.  So the button searches
    for queries that the effect refuses. *)
Theorem two_unit_query_needs_the_button (st : State) :
  length (queryOf st) = 2 -> timer (debounce st) = Some 1 ->
  debouncedQuery st <> queryOf st ->
  debouncedQuery (step st Tick) = queryOf st
  /\ searches (step st Tick) = searches st
  /\ results (step st Tick) = []
  /\ searches (step (step st Tick) SearchClicked)
     = searches st ++ [{| url := "/api/search/query"; query := queryOf st;
                          options := searchOptions st; include_content := true;
                          limit := 20; offset := 0 |}].
Proof.
  intros Hlen Htimer Hne.
  assert (Hstep : step st Tick =
    {| debounce := {| value := queryOf st; debouncedValue := queryOf st; timer := None |};
       searchOptions := searchOptions st; results := [];
       searches := searches st; suggestionCalls := suggestionCalls st |}).
  { unfold step, update, queryOf, debouncedQuery in *. simpl. rewrite Htimer. simpl.
    rewrite (bool_decide_eq_false_2 (value (debounce st) = debouncedValue (debounce st)))
      by congruence.
    simpl.
    unfold searchEffect, debouncedQuery. simpl.
    rewrite decide_False by lia. simpl.
    by rewrite bool_decide_eq_true_2 by done. }
  rewrite Hstep. simpl. split; [done|]. split; [done|]. split; [done|].
  unfold clickSearch, debouncedQuery. simpl.
  rewrite decide_False by lia.
  unfold performSearch, debouncedQuery, searchRequest. simpl.
  unfold queryOf in *. by destruct (value (debounce st)).
Qed.

(** The theorem at the query [ab], typed 299 milliseconds ago. *)
Lemma two_unit_query_needs_the_button_witness :
  searches (step (run ([Typed (lit "ab")] ++ replicate 299 Tick)) Tick)
    = searches (run ([Typed (lit "ab")] ++ replicate 299 Tick))
  /\ results (step (run ([Typed (lit "ab")] ++ replicate 299 Tick)) Tick) = [].
Proof.
  pose proof (two_unit_query_needs_the_button
    (run ([Typed (lit "ab")] ++ replicate 299 Tick))
    ltac:(by vm_compute) ltac:(by vm_compute) ltac:(by vm_compute)) as H.
  exact (conj (proj1 (proj2 H)) (proj1 (proj2 (proj2 H)))).
Defined.

End SearchMore.


(** ** The editor over any sequence of events *)

Module EditorMore.
Import Js Debounce Editor EditorView DebouncedRequestsProofs.

Lemma update_cases (st : State) (ev : Event) :
  saves (update st ev) = saves st
  /\ ((isSaveResponse ev = true /\ is_Some (inFlight st)
       /\ saving (update st ev) = false /\ inFlight (update st ev) = None)
      \/ (saving (update st ev) = saving st /\ inFlight (update st ev) = inFlight st)).
Proof.
  destruct ev; simpl; try (split; [done|by right]);
    destruct (inFlight st) eqn:Hin; simpl; (split; [done|]);
    try (by right); left; by rewrite ?Hin.
Qed.

Lemma autoSave_cases (filePath : string) (st : State) :
  autoSave filePath st = st
  \/ (saving st = false /\ filePath <> EmptyString /\ debouncedContent st <> []
      /\ saving (autoSave filePath st) = true
      /\ inFlight (autoSave filePath st) = Some (debouncedContent st)
      /\ saves (autoSave filePath st)
         = saves st ++ [{| url := "/api/files/save"; path := filePath;
                           content := debouncedContent st |}]).
Proof.
  unfold autoSave. destruct (_ && _) eqn:Hcond; [|by left].
  apply andb_true_iff in Hcond as [Hne _]. apply bool_decide_eq_true in Hne.
  unfold saveContent. case_bool_decide as Hpath; simpl; [by left|].
  destruct (saving st) eqn:Hsaving; [by left|]. by right.
Qed.

Lemma step_cases (filePath : string) (st : State) (ev : Event) :
  step filePath st ev = update st ev
  \/ step filePath st ev = autoSave filePath (update st ev).
Proof. unfold step. cbv zeta. case_bool_decide; by (left + right). Qed.

#[local] Abbreviation serialized filePath events st :=
  ((saving st = true <-> is_Some (inFlight st))
   /\ length (saves st)
      <= length (List.filter isSaveResponse events) + (if saving st then 1 else 0)
   /\ Forall (fun r => url r = "/api/files/save" /\ path r = filePath
                       /\ content r <> [] /\ filePath <> EmptyString) (saves st)).

Lemma step_serialized (filePath : string) (events : list Event) (st : State) (ev : Event) :
  serialized filePath events st ->
  serialized filePath (events ++ [ev]) (step filePath st ev).
Proof.
  intros (Hflag & Hlen & Hall).
  rewrite List.filter_app, length_app. simpl.
  assert (Hupdate : serialized filePath (events ++ [ev]) (update st ev)).
  { rewrite List.filter_app, length_app. simpl.
    destruct (update_cases st ev) as [Hsaves [(Hev & Hin & Hs & Hi)|[Hs Hi]]].
    - rewrite Hsaves, Hs, Hi, Hev. simpl. split; [|split; [|done]].
      + split; [done|]. by intros [? ?].
      + destruct (saving st); lia.
    - rewrite Hsaves, Hs, Hi. split; [done|]. split; [|done].
      destruct (saving st); lia. }
  rewrite List.filter_app, length_app in Hupdate. simpl in Hupdate.
  destruct (step_cases filePath st ev) as [-> | ->]; [exact Hupdate|].
  destruct Hupdate as (Hflag' & Hlen' & Hall').
  destruct (autoSave_cases filePath (update st ev))
    as [->|(Hs & Hpath & Hne & -> & -> & ->)]; [done|].
  rewrite Hs in Hlen'. rewrite length_app. simpl. split; [|split].
  - done.
  - lia.
  - apply Forall_app. split; [done|]. by apply Forall_cons_2.
Qed.

(** X17. The save requests of the editor, after any sequence of events.
    They are sent one at a time: their number is at most the number of
    save responses received so far, plus one while a save is awaiting
    its response.  Each one goes to [/api/files/save] with the path of
    the editor and a content that is not empty; an editor without file
    path sends none. *)
Theorem saves_are_sent_one_at_a_time (filePath : string) (events : list Event) :
  length (saves (run filePath events))
    <= length (List.filter isSaveResponse events)
       + (if saving (run filePath events) then 1 else 0)
  /\ Forall (fun r => url r = "/api/files/save" /\ path r = filePath /\ content r <> [])
            (saves (run filePath events))
  /\ (filePath = EmptyString -> saves (run filePath events) = []).
Proof.
  assert (Hinv : serialized filePath events (run filePath events)).
  { induction events as [|ev events IH] using rev_ind.
    - split; [|split; [simpl; lia|done]]. split; [done|]. by intros [? ?].
    - rewrite editor_run_snoc. by apply step_serialized. }
  destruct Hinv as (_ & Hlen & Hall). split; [exact Hlen|]. split.
  - eapply Forall_impl; [exact Hall|]. by intros r (? & ? & ? & ?).
  - intros ->. destruct (saves (run EmptyString events)) as [|r rs]; [done|].
    by apply Forall_cons_1 in Hall as [(_ & _ & _ & ?) _].
Qed.

(** The theorem at an editor without file path, after an edit and a
    second of rest. *)
Lemma saves_are_sent_one_at_a_time_witness :
  saves (run EmptyString ([Loaded (lit "x"); Edit (lit "a")] ++ replicate 1000 Tick)) = [].
Proof.
  exact (proj2 (proj2 (saves_are_sent_one_at_a_time EmptyString
    ([Loaded (lit "x"); Edit (lit "a")] ++ replicate 1000 Tick))) eq_refl).
Defined.

Lemma tick_without_timer (filePath : string) (st : State) :
  timer (debounce st) = None -> step filePath st Tick = st.
Proof.
  intros Htimer. unfold step, update, debouncedContent. simpl. rewrite Htimer.
  rewrite bool_decide_eq_true_2 by done. destruct st as [[? ? ?] ? ? ? ? ? ?].
  simpl in *. by subst.
Qed.

Lemma ticks_without_timer (filePath : string) (st : State) (n : nat) :
  timer (debounce st) = None -> foldl (step filePath) st (replicate n Tick) = st.
Proof.
  intros Htimer. induction n as [|n IH]; [done|].
  simpl. by rewrite tick_without_timer.
Qed.

Lemma update_keeps_error (st : State) (ev : Event) :
  isLoaded ev = false -> is_Some (error st) -> is_Some (error (update st ev)).
Proof. destruct ev; try done; simpl; by destruct (inFlight st). Qed.

Lemma autoSave_error (filePath : string) (st : State) :
  error (autoSave filePath st) = error st /\ loading (autoSave filePath st) = loading st.
Proof.
  unfold autoSave. destruct (_ && _); [|done].
  unfold saveContent. by destruct (_ || _).
Qed.

Lemma update_loading (st : State) (ev : Event) :
  loading st = false -> loading (update st ev) = false.
Proof. destruct ev; try done; simpl; by destruct (inFlight st). Qed.

(** X18. A save that fails.  When the response to a save request is a
    rejection and no debounce delay is pending, no request is sent then
    or while time passes, the unsaved content stays as it is, and the
    saved content stays the one of the last success: a failed save is
    not tried again by itself.  From then on the error notice takes the
    place of the editor pane, through every later event that is not a
    fresh load of the file. *)
Theorem failed_save_is_not_retried (filePath : string) (st : State) :
  (timer (debounce st) = None -> is_Some (inFlight st) ->
   forall n,
     saves (foldl (step filePath) st (SaveRejected :: replicate n Tick)) = saves st
     /\ contentOf (foldl (step filePath) st (SaveRejected :: replicate n Tick))
        = contentOf st
     /\ originalContent (foldl (step filePath) st (SaveRejected :: replicate n Tick))
        = originalContent st
     /\ saving (foldl (step filePath) st (SaveRejected :: replicate n Tick)) = false
     /\ error (foldl (step filePath) st (SaveRejected :: replicate n Tick))
        = Some "Failed to save changes")
  /\ (is_Some (error st) -> loading st = false ->
      forall events, Forall (fun ev => isLoaded ev = false) events ->
        exists message,
          view (foldl (step filePath) st events) = ErrorNotice message).
Proof.
  split.
  - intros Htimer [contentToSave Hin] n.
    assert (Hstep : step filePath st SaveRejected =
      {| debounce := debounce st; originalContent := originalContent st;
         saving := false; inFlight := None; loading := loading st;
         error := Some "Failed to save changes"; saves := saves st |}).
    { unfold step, update, debouncedContent. simpl. rewrite Hin. simpl.
      by rewrite bool_decide_eq_true_2 by done. }
    change (foldl (step filePath) st (SaveRejected :: replicate n Tick))
      with (foldl (step filePath) (step filePath st SaveRejected) (replicate n Tick)).
    rewrite Hstep. by rewrite ticks_without_timer.
  - intros Herror Hloading events Hevents.
    enough (is_Some (error (foldl (step filePath) st events))
            /\ loading (foldl (step filePath) st events) = false) as [[message Hm] Hl].
    { exists message. unfold view. by rewrite Hl, Hm. }
    induction events as [|ev events IH] using rev_ind; [done|].
    apply Forall_app in Hevents as [Hevents Hev].
    apply Forall_cons_1 in Hev as [Hev _].
    destruct (IH Hevents) as [He Hl]. rewrite foldl_snoc.
    pose proof (update_keeps_error _ ev Hev He) as He'.
    pose proof (update_loading _ ev Hl) as Hl'.
    destruct (step_cases filePath (foldl (step filePath) st events) ev) as [-> | ->];
      [done|].
    destruct (autoSave_error filePath (update (foldl (step filePath) st events) ev))
      as [-> ->]. done.
Qed.

(** The theorem at a file that is loaded, edited and left for a second,
    whose save is then rejected: five seconds later the one request is
    still the only one, and the edit is still unsaved. *)
Lemma failed_save_is_not_retried_witness :
  saves (foldl (step "notes.md")
           (run "notes.md" ([Loaded (lit "x"); Edit (lit "a")] ++ replicate 1000 Tick))
           (SaveRejected :: replicate 5000 Tick))
  = saves (run "notes.md" ([Loaded (lit "x"); Edit (lit "a")] ++ replicate 1000 Tick))
  /\ contentOf (run "notes.md" ([Loaded (lit "x"); Edit (lit "a")] ++ replicate 1000 Tick))
     <> originalContent
          (run "notes.md" ([Loaded (lit "x"); Edit (lit "a")] ++ replicate 1000 Tick)).
Proof.
  split; [|by vm_compute].
  exact (proj1 (proj1 (failed_save_is_not_retried "notes.md"
    (run "notes.md" ([Loaded (lit "x"); Edit (lit "a")] ++ replicate 1000 Tick)))
    ltac:(by vm_compute) ltac:(vm_compute; by eexists) 5000)).
Defined.

(** The first load of a freshly mounted editor: however long the
    editor is then left alone, no save request is sent. *)
Lemma first_load_saves_nothing (filePath : string) (fileContent : JsString) (n : nat) :
  saves (run filePath (Loaded fileContent :: replicate n Tick)) = []
  /\ contentOf (run filePath (Loaded fileContent :: replicate n Tick)) = fileContent
  /\ originalContent (run filePath (Loaded fileContent :: replicate n Tick)) = fileContent.
Proof.
  enough (Hinv : let st := run filePath (Loaded fileContent :: replicate n Tick) in
    saves st = [] /\ contentOf st = fileContent /\ originalContent st = fileContent
    /\ (debouncedContent st = [] \/ debouncedContent st = fileContent)).
  { destruct Hinv as (? & ? & ? & _). done. }
  induction n as [|n IH].
  - unfold run. simpl. unfold step, update, contentOf, debouncedContent. simpl.
    case_decide as Hc; simpl.
    + subst. rewrite bool_decide_eq_true_2 by done. simpl. split; [done|].
      split; [done|]. split; [done|]. by left.
    + case_bool_decide as Hdeps; simpl.
      * split; [done|]. split; [done|]. split; [done|]. by left.
      * unfold autoSave, debouncedContent. simpl. split; [done|].
        split; [done|]. split; [done|]. by left.
  - replace (Loaded fileContent :: replicate (S n) Tick)
      with ((Loaded fileContent :: replicate n Tick) ++ [Tick]).
    2:{ change (Loaded fileContent :: replicate n Tick)
          with ([Loaded fileContent] ++ replicate n Tick).
        rewrite <- app_assoc. f_equal.
        change [Tick] with (replicate 1 Tick). rewrite <- replicate_add.
        f_equal. lia. }
    rewrite editor_run_snoc. cbv zeta in *.
    set (st := run filePath (Loaded fileContent :: replicate n Tick)) in *.
    clearbody st. destruct IH as (Hsaves & Hcontent & Horiginal & Hdebounced).
    destruct (editor_step_keeps filePath st Tick) as [Hd Ho].
    unfold contentOf, debouncedContent in *. rewrite Hd, Ho.
    assert (Hhook : value (debounce (update st Tick)) = fileContent
      /\ (debouncedValue (debounce (update st Tick)) = []
          \/ debouncedValue (debounce (update st Tick)) = fileContent)).
    { simpl. destruct (timer (debounce st)); [case_decide|]; simpl; by auto. }
    destruct Hhook as [Hvalue Hdeb].
    split; [|by split].
    destruct (step_cases filePath st Tick) as [-> | ->]; [done|].
    destruct (autoSave_cases filePath (update st Tick))
      as [->|(_ & _ & Hne & _ & _ & _)]; [done|].
    unfold autoSave, debouncedContent in *.
    destruct Hdeb as [Hdeb|Hdeb]; [by rewrite Hdeb in Hne|].
    rewrite (bool_decide_eq_false_2 (debouncedValue (debounce (update st Tick))
                                     <> originalContent (update st Tick))).
    + by rewrite andb_false_r.
    + intros Hdiff. apply Hdiff. by rewrite Hdeb.
Qed.

(** X19. Loads and saves.  The first load of a freshly mounted editor
    writes nothing: however long the editor is then left without an
    edit, no save request is sent, and the content and the saved content
    are the loaded one.  A later load in the same editor, after its file
    path has changed, does write: when no save is awaiting its response,
    the debounced content is not empty and differs from the loaded
    content, and the saved content differs from the loaded content, the
    editor posts the debounced content it still holds, that of the
    earlier file, at once and under the new file path. *)
Theorem only_the_first_load_saves_nothing (filePath : string) (fileContent : JsString) :
  (forall n,
     saves (run filePath (Loaded fileContent :: replicate n Tick)) = []
     /\ contentOf (run filePath (Loaded fileContent :: replicate n Tick)) = fileContent
     /\ originalContent (run filePath (Loaded fileContent :: replicate n Tick))
        = fileContent)
  /\ (forall st, filePath <> EmptyString -> saving st = false ->
        debouncedContent st <> [] -> debouncedContent st <> fileContent ->
        originalContent st <> fileContent ->
        saves (step filePath st (Loaded fileContent))
          = saves st ++ [{| url := "/api/files/save"; path := filePath;
                            content := debouncedContent st |}]
        /\ originalContent (step filePath st (Loaded fileContent)) = fileContent
        /\ contentOf (step filePath st (Loaded fileContent)) = fileContent).
Proof.
  split; [intros n; apply first_load_saves_nothing|].
  intros st Hpath Hsaving Hne Hnew Hold.
  assert (Hdebounced : debouncedValue (hookStep autoSaveDelay (debounce st) (Change fileContent))
                       = debouncedValue (debounce st))
    by apply change_keeps_debounced.
  assert (Hvalue : value (hookStep autoSaveDelay (debounce st) (Change fileContent))
                   = fileContent).
  { simpl. by case_decide. }
  unfold step, update, contentOf, debouncedContent in *. cbn [inputOf].
  cbn [debounce originalContent]. rewrite Hdebounced.
  rewrite bool_decide_eq_false_2 by (intros [_ ?]; by apply Hold).
  unfold autoSave, debouncedContent. cbn [debounce originalContent]. rewrite Hdebounced.
  rewrite !bool_decide_eq_true_2 by done. cbn [andb].
  unfold saveContent. cbn [saving]. rewrite Hsaving.
  rewrite bool_decide_eq_false_2 by done. cbn [orb].
  cbn [saves originalContent debounce]. by rewrite Hvalue.
Qed.

(** The theorem at an editor that has loaded [x] for [a.md] and is
    given the file [b.md] a second later: the content [x] is posted
    under the path [b.md]. *)
Lemma only_the_first_load_saves_nothing_witness :
  saves (run "a.md" ([Loaded (lit "x")] ++ replicate 1000 Tick)) = []
  /\ saves (step "b.md" (run "a.md" ([Loaded (lit "x")] ++ replicate 1000 Tick))
             (Loaded (lit "y")))
     = saves (run "a.md" ([Loaded (lit "x")] ++ replicate 1000 Tick))
       ++ [{| url := "/api/files/save"; path := "b.md";
              content := debouncedContent
                           (run "a.md" ([Loaded (lit "x")] ++ replicate 1000 Tick)) |}]
  /\ debouncedContent (run "a.md" ([Loaded (lit "x")] ++ replicate 1000 Tick)) = lit "x".
Proof.
  split; [exact (proj1 (proj1 (only_the_first_load_saves_nothing "a.md" (lit "x")) 1000))|].
  split; [|by vm_compute].
  exact (proj1 (proj2 (only_the_first_load_saves_nothing "b.md" (lit "y"))
    (run "a.md" ([Loaded (lit "x")] ++ replicate 1000 Tick))
    ltac:(discriminate) ltac:(by vm_compute) ltac:(by vm_compute)
    ltac:(by vm_compute) ltac:(by vm_compute))).
Defined.

(** X27. An edit made while a save is awaiting its response.  Let the
    response be a success, the editor have a file path, and the
    debounced content be by then a non-empty content other than the one
    just saved.  If the saved content was not yet the content of the
    finished request, the editor posts the debounced content at once as
    the next save, and the saved content becomes the one the finished
    request carried.  If the saved content was that content already (a
    load has set it meanwhile), the success changes nothing the
    auto-save effect depends on: nothing is posted and the edit stays
    unsaved. *)
Theorem edits_during_a_save_follow_it (filePath : string) (st : State)
    (contentToSave : JsString) :
  filePath <> EmptyString ->
  inFlight st = Some contentToSave ->
  debouncedContent st <> [] ->
  debouncedContent st <> contentToSave ->
  (originalContent st <> contentToSave ->
   saves (step filePath st SaveFulfilled)
     = saves st ++ [{| url := "/api/files/save"; path := filePath;
                       content := debouncedContent st |}]
   /\ originalContent (step filePath st SaveFulfilled) = contentToSave
   /\ saving (step filePath st SaveFulfilled) = true
   /\ inFlight (step filePath st SaveFulfilled) = Some (debouncedContent st))
  /\ (originalContent st = contentToSave ->
      saves (step filePath st SaveFulfilled) = saves st
      /\ originalContent (step filePath st SaveFulfilled) = contentToSave
      /\ debouncedContent (step filePath st SaveFulfilled) = debouncedContent st
      /\ saving (step filePath st SaveFulfilled) = false).
Proof.
  intros Hpath Hin Hne Hnew. split.
  - intros Hold.
    unfold step, update, debouncedContent in *. simpl. rewrite Hin. simpl.
    rewrite bool_decide_eq_false_2 by (intros [_ ?]; by apply Hold).
    unfold autoSave, debouncedContent. simpl.
    rewrite !bool_decide_eq_true_2 by done. simpl.
    unfold saveContent. simpl.
    by rewrite bool_decide_eq_false_2 by done.
  - intros Hold.
    unfold step, update, debouncedContent in *. simpl. rewrite Hin. simpl.
    by rewrite bool_decide_eq_true_2 by done.
Qed.

(** The theorem at the slow save: the content [ab], typed while the
    save of [a] was awaiting its response, is posted when that response
    arrives. *)
Lemma edits_during_a_save_follow_it_witness :
  saves (step "notes.md" (run "notes.md" slowSave) SaveFulfilled)
  = saves (run "notes.md" slowSave)
    ++ [{| url := "/api/files/save"; path := "notes.md";
           content := debouncedContent (run "notes.md" slowSave) |}]
  /\ debouncedContent (run "notes.md" slowSave) = lit "ab".
Proof.
  split; [|by vm_compute].
  exact (proj1 (proj1 (edits_during_a_save_follow_it "notes.md" (run "notes.md" slowSave)
    (lit "a") ltac:(discriminate) ltac:(by vm_compute) ltac:(by vm_compute)
    ltac:(by vm_compute)) ltac:(by vm_compute))).
Defined.

End EditorMore.


(** ** The zoom percentage of the PDF viewer *)

Module PDFViewerDisplayProofs.
Import PDFViewer PDFViewerDisplay PDFViewerProofs.

#[local] Open Scope float_scope.
#[local] Set Warnings "-inexact-float".

Lemma percent_of_reachable :
  Forall (fun s => match percent s with
                   | Some p => percent (handleZoomIn s) = Some (Z.min (p + 10) 200)
                               /\ percent (handleZoomOut s) = Some (Z.max (p - 10) 50)
                   | None => False
                   end) reachableScales.
Proof.
  unfold reachableScales.
  repeat (apply List.Forall_cons; [vm_compute; split; reflexivity|]).
  apply List.Forall_nil.
Qed.

Lemma percent_zoom (s : float) (p : Z) (op : ZoomOp) :
  In s reachableScales -> percent s = Some p ->
  percent (zoom s op) = Some (zoomPercent p op).
Proof.
  intros Hs Hp.
  pose proof (proj1 (List.Forall_forall _ _) percent_of_reachable s Hs) as H.
  cbv beta in H. rewrite Hp in H. destruct H as [Hin Hout].
  destruct op; simpl; [exact Hin|exact Hout|by vm_compute].
Qed.

(** X20. The zoom percentage on the toolbar.  The scale is a binary64
    number and the steps of 0.1 are not exact, so the scale drifts from
    the decimal values; the percentage shown, [Math.round(scale * 100)],
    does not: after any sequence of clicks it is the number reached by
    exact steps of ten from 100, kept between 50 and 200.  So it is
    always a multiple of ten from 50 to 200. *)
Theorem shown_percentage_is_exact (ops : list ZoomOp) :
  percent (scaleAfter ops) = Some (fold_left zoomPercent ops 100%Z)
  /\ (exists k, percent (scaleAfter ops) = Some (10 * k)%Z /\ (5 <= k <= 20)%Z).
Proof.
  assert (Hexact : percent (scaleAfter ops) = Some (fold_left zoomPercent ops 100%Z)).
  { induction ops as [|op ops IH] using rev_ind; [by vm_compute|].
    rewrite scaleAfter_snoc, fold_left_app. simpl.
    apply percent_zoom; [apply scaleAfter_reachable|exact IH]. }
  split; [exact Hexact|]. rewrite Hexact. clear Hexact.
  enough (exists k, fold_left zoomPercent ops 100%Z = (10 * k)%Z /\ (5 <= k <= 20)%Z)
    as (k & -> & Hk) by by exists k.
  induction ops as [|op ops IH] using rev_ind.
  - exists 10%Z. simpl. lia.
  - rewrite fold_left_app. simpl. destruct IH as (k & -> & Hk).
    destruct op; simpl.
    + exists (Z.min (k + 1) 20). lia.
    + exists (Z.max (k - 1) 5). lia.
    + exists 10%Z. lia.
Qed.

End PDFViewerDisplayProofs.

(** ** The reader and its responses *)

Module ReaderMore.
Import Js Reader ReaderProofs.

(** X21. The requests and the responses of the reader.  It posts one
    request for every change to a content that is not empty, in order,
    and none for an empty content.  A response is shown whichever
    request it answers: a fulfilled one puts its HTML, sanitized, on the
    page and ends the notice [Rendering...], even when a later request
    is still unanswered.  A change to the empty content empties the
    rendered HTML but leaves the loading flag and the error as they
    are, so an error notice of an earlier request stays on the page. *)
Theorem reader_requests_and_responses (sanitize : JsString -> JsString)
    (events : list Event) (st : State) :
  posted (run events)
    = omap (fun ev => match ev with
                      | ContentChanged (c :: cs) filePath =>
                          Some (renderRequest (c :: cs) filePath)
                      | _ => None
                      end) events
  /\ (forall html, view sanitize (step st (RenderFulfilled html))
                   = InnerHTML (sanitize html))
  /\ (forall filePath,
        renderedContent (step st (ContentChanged [] filePath)) = []
        /\ view sanitize (step st (ContentChanged [] filePath))
           = if loading st then Rendering
             else match error st with
                  | Some message => ErrorText message
                  | None => InnerHTML (sanitize [])
                  end).
Proof.
  split; [|split].
  - induction events as [|ev events IH] using rev_ind; [done|].
    rewrite run_snoc, omap_app. simpl. rewrite <- IH.
    destruct ev as [[|c cs] filePath|html|]; simpl; by rewrite ?app_nil_r.
  - done.
  - done.
Qed.

End ReaderMore.

(** ** The highlighted match of a search result *)

Module HighlightProofs.
Import Js Highlight.

Lemma clamp_le (len : nat) (i : Z) : clamp len i <= len.
Proof. unfold clamp. lia. Qed.

Lemma clamp_mono (len : nat) (i j : Z) : (i <= j)%Z -> clamp len i <= clamp len j.
Proof. unfold clamp. lia. Qed.

Lemma clamp_in_range (len : nat) (i : Z) :
  (0 <= i <= Z.of_nat len)%Z -> clamp len i = Z.to_nat i.
Proof. unfold clamp. lia. Qed.

Lemma prefix_take (text : JsString) (start : Z) :
  substring text 0 start = take (clamp (length text) start) text.
Proof.
  unfold substring. cbv zeta.
  replace (clamp (length text) 0) with 0 by (unfold clamp; lia).
  rewrite Nat.min_0_l, Nat.max_0_l, Nat.sub_0_r. done.
Qed.

Lemma suffix_drop (text : JsString) (end_ : Z) :
  substringFrom text end_ = drop (clamp (length text) end_) text.
Proof.
  unfold substringFrom, substring. cbv zeta.
  pose proof (clamp_le (length text) end_) as Hle.
  replace (clamp (length text) (Z.of_nat (length text))) with (length text)
    by (unfold clamp; lia).
  rewrite Nat.min_l, Nat.max_r by done.
  apply take_ge. rewrite length_drop. lia.
Qed.

(** X22. The three parts of a highlighted result.  When the start of
    the match is not after its end, wherever the two indices lie, the
    prefix, the match and the suffix put together are the text.  When
    both lie in the text, in that order, the match is the piece between
    them.  In every case the parts together are longer than the text by
    twice the amount by which the clamped start exceeds the clamped
    end: with a start after the end, [substring] swaps its arguments
    and a piece of the text is shown three times. *)
Theorem highlight_parts (text : JsString) (start end_ : Z) :
  ((start <= end_)%Z -> shown (highlightMatch text start end_) = text)
  /\ ((0 <= start <= end_)%Z -> (end_ <= Z.of_nat (length text))%Z ->
      match_ (highlightMatch text start end_)
      = take (Z.to_nat (end_ - start)) (drop (Z.to_nat start) text))
  /\ length (shown (highlightMatch text start end_))
     = length text + 2 * (clamp (length text) start - clamp (length text) end_).
Proof.
  unfold shown, highlightMatch. simpl.
  rewrite prefix_take, suffix_drop.
  pose proof (clamp_le (length text) start) as Hs.
  pose proof (clamp_le (length text) end_) as He.
  split; [|split].
  - intros Hle. apply (clamp_mono (length text)) in Hle.
    unfold substring. cbv zeta. rewrite Nat.min_l, Nat.max_r by done.
    set (a := clamp (length text) start) in *.
    set (b := clamp (length text) end_) in *.
    replace (drop b text) with (drop (b - a) (drop a text))
      by (rewrite drop_drop; f_equal; lia).
    by rewrite take_drop, take_drop.
  - intros Hstart Hend.
    unfold substring. cbv zeta.
    rewrite !clamp_in_range by lia.
    rewrite Nat.min_l, Nat.max_r by lia. f_equal. lia.
  - unfold substring. cbv zeta.
    rewrite !length_app, !length_take, !length_drop. lia.
Qed.

(** The theorem at the text [hello world] and the match from 6 to 11. *)
Lemma highlight_parts_witness :
  shown (highlightMatch (lit "hello world") 6 11) = lit "hello world"
  /\ match_ (highlightMatch (lit "hello world") 6 11) = lit "world".
Proof.
  split.
  - exact (proj1 (highlight_parts (lit "hello world") 6 11) ltac:(lia)).
  - exact (proj1 (proj2 (highlight_parts (lit "hello world") 6 11))
             ltac:(lia) ltac:(by vm_compute)).
Defined.

End HighlightProofs.

(** ** The requests of the search hook *)

Module UseSearchProofs.
Import Js UseSearch.

Lemma forallb_Forall {A} (f : A -> bool) (l : list A) :
  forallb f l = true <-> Forall (fun x => f x = true) l.
Proof.
  induction l as [|x l IH]; simpl.
  - split; [by constructor|done].
  - rewrite andb_true_iff, IH. split.
    + intros [? ?]. by apply Forall_cons_2.
    + intros H. by apply Forall_cons_1 in H.
Qed.

(** X23. The request of the search hook.  No request is sent exactly
    when the query is empty or made of white space only.  A request
    that is sent goes to [/api/search/query] with the query as it was
    given, not trimmed.  Its limit is never zero: a limit of zero, like
    a missing one, is sent as 100, and any other limit as it is.  A
    missing or empty sort order is sent as [relevance], and a refusal of
    the content ([include_content] false) is sent as it is. *)
Theorem searchFiles_request (q : JsString) (options : SearchOptions) :
  (searchFiles q options = None <-> Forall (fun c => isWhiteSpace c = true) q)
  /\ (forall r, searchFiles q options = Some r ->
        url r = "/api/search/query" /\ query r = q
        /\ 1 <= request_limit r
        /\ request_sort_by r <> EmptyString
        /\ (limit options = None \/ limit options = Some 0 -> request_limit r = 100)
        /\ (forall n, limit options = Some (S n) -> request_limit r = S n)
        /\ (sort_by options = None \/ sort_by options = Some EmptyString ->
            request_sort_by r = "relevance")
        /\ (include_content options = Some false -> request_include_content r = false)).
Proof.
  unfold searchFiles. split.
  - rewrite <- forallb_Forall. by destruct (forallb isWhiteSpace q).
  - intros r Hr. destruct (forallb isWhiteSpace q); [done|].
    injection Hr as <-. unfold searchRequest. simpl.
    split; [done|]. split; [done|]. split.
    { destruct (limit options) as [[|n]|]; simpl; lia. }
    split.
    { by destruct (sort_by options) as [[|a s]|]. }
    split.
    { by intros [-> | ->]. }
    split.
    { by intros n ->. }
    split.
    { by intros [-> | ->]. }
    by intros ->.
Qed.

(** The theorem at the query [ada] with a limit of zero, and at a query
    of two spaces. *)
Lemma searchFiles_request_witness :
  (exists r, searchFiles (lit "ada")
               {| case_sensitive := None; regex := None; include_content := None;
                  paths := None; limit := Some 0; offset := None; sort_by := None |}
             = Some r /\ request_limit r = 100)
  /\ searchFiles (lit "  ")
       {| case_sensitive := None; regex := None; include_content := None;
          paths := None; limit := Some 0; offset := None; sort_by := None |} = None.
Proof.
  split.
  - eexists. split; [reflexivity|].
    exact (proj1 (proj2 (proj2 (proj2 (proj2 (proj2 (searchFiles_request (lit "ada")
      {| case_sensitive := None; regex := None; include_content := None;
         paths := None; limit := Some 0; offset := None; sort_by := None |}) _ eq_refl)))))
      (or_intror eq_refl)).
  - apply (proj1 (searchFiles_request (lit "  ") _)).
    apply Forall_cons_2; [done|]. apply Forall_cons_2; [done|]. apply Forall_nil_2.
Defined.

End UseSearchProofs.


(** ** The generic request of the API service *)

Module ApiRequestProofs.
Import Js ApiRequest.

(** X24. How the generic request ends.  It returns only for a response
    that is [ok]: the parsed body when the content type names
    [application/json], the response itself otherwise.  For a response
    that is not [ok] it throws, whatever the body is; and a body that
    does not parse under a JSON content type makes it throw even when
    the response is [ok]. *)
Theorem request_returns_only_ok_responses {Json : Type} (detailOf : Json -> Detail)
    (fetched : Fetched Json) :
  (forall responseData, request detailOf fetched = ReturnedData responseData ->
     exists response, fetched = Responded response /\ ok response = true
       /\ isJson response = true /\ json response = Some responseData)
  /\ (forall response, request detailOf fetched = ReturnedResponse response ->
        fetched = Responded response /\ ok response = true /\ isJson response = false)
  /\ (forall response, fetched = Responded response -> ok response = false ->
        exists error, request detailOf fetched = Threw error)
  /\ (forall response, fetched = Responded response ->
        isJson response = true -> json response = None ->
        request detailOf fetched = Threw SyntaxError)
  /\ (forall response, fetched = Responded response -> ok response = true ->
        (isJson response = false -> request detailOf fetched = ReturnedResponse response)
        /\ (forall responseData, isJson response = true ->
              json response = Some responseData ->
              request detailOf fetched = ReturnedData responseData)).
Proof.
  split; [|split; [|split; [|split]]].
  - intros responseData Hreturned. destruct fetched as [|response]; [done|].
    exists response. simpl in Hreturned.
    destruct (isJson response); [|by destruct (ok response), (text response)].
    destruct (json response) as [data|]; [|done].
    destruct (ok response); simpl in Hreturned.
    + by injection Hreturned as ->.
    + by destruct (detailOf data).
  - intros response Hreturned. destruct fetched as [|response']; [done|].
    simpl in Hreturned. destruct (isJson response') eqn:Hjson.
    + destruct (json response') as [data|]; [|done].
      destruct (ok response'); [done|]. by destruct (detailOf data).
    + destruct (ok response') eqn:Hok; simpl in Hreturned.
      * by injection Hreturned as ->.
      * by destruct (text response').
  - intros response -> Hok. simpl. rewrite Hok. simpl.
    destruct (isJson response).
    + destruct (json response) as [data|]; [|by eexists].
      destruct (detailOf data); by eexists.
    + destruct (text response); by eexists.
  - intros response -> Hjson Hbody. simpl. by rewrite Hjson, Hbody.
  - intros response -> Hok. simpl. rewrite Hok. simpl. split.
    + by intros ->.
    + intros responseData -> ->. done.
Qed.

(** The theorem at a response of status 500 without body. *)
Lemma request_returns_only_ok_responses_witness :
  exists error,
    request (fun _ : unit => DetailFalsy)
      (Responded {| ok := false; contentType := Some (lit "text/plain");
                    json := None; text := EmptyString |})
    = Threw error.
Proof.
  exact (proj1 (proj2 (proj2 (request_returns_only_ok_responses
    (fun _ : unit => DetailFalsy)
    (Responded {| ok := false; contentType := Some (lit "text/plain");
                  json := None; text := EmptyString |}))))
    _ eq_refl eq_refl).
Defined.

(** X25. The headers of the generic request.  Every request carries a
    [Content-Type] and an [Authorization] header.  Without custom
    headers the first is [application/json] and the second is [Bearer]
    and the stored token, or the empty string when no token, or an
    empty one, is stored.  A custom header replaces the header of its
    name and leaves the others: the PDF export adds [Accept] beside the
    two, and the upload sends [multipart/form-data] as content type. *)
Theorem request_headers (storage customHeaders : gmap string string) :
  is_Some (headers storage customHeaders !! "Content-Type")
  /\ is_Some (headers storage customHeaders !! "Authorization")
  /\ headers storage ∅ !! "Content-Type" = Some "application/json"
  /\ (forall a t, storage !! "token" = Some (String a t) ->
        headers storage ∅ !! "Authorization" = Some ("Bearer " +:+ String a t))
  /\ (storage !! "token" = None \/ storage !! "token" = Some EmptyString ->
      headers storage ∅ !! "Authorization" = Some EmptyString)
  /\ (forall name value, customHeaders !! name = Some value ->
        headers storage customHeaders !! name = Some value)
  /\ (forall name, customHeaders !! name = None ->
        headers storage customHeaders !! name = headers storage ∅ !! name)
  /\ headers storage exportToPdf_headers !! "Accept" = Some "application/pdf"
  /\ headers storage exportToPdf_headers !! "Content-Type" = Some "application/json"
  /\ headers storage uploadFile_headers !! "Content-Type" = Some "multipart/form-data".
Proof.
  assert (Hcustom : forall name value, customHeaders !! name = Some value ->
            headers storage customHeaders !! name = Some value).
  { intros name value Hname. unfold headers. by rewrite lookup_union_l'. }
  assert (Hother : forall name, customHeaders !! name = None ->
            headers storage customHeaders !! name = headers storage ∅ !! name).
  { intros name Hname. unfold headers.
    by rewrite lookup_union_r, (left_id_L ∅ (∪)). }
  assert (Htype : headers storage ∅ !! "Content-Type" = Some "application/json").
  { unfold headers. by rewrite (left_id_L ∅ (∪)). }
  assert (Hauth : is_Some (headers storage ∅ !! "Authorization")).
  { unfold headers, getAuthHeaders. rewrite (left_id_L ∅ (∪)).
    rewrite lookup_insert_ne, lookup_insert_eq by done. by eexists. }
  split; [|split; [|split; [|split; [|split; [|split; [|split; [|split; [|split]]]]]]]].
  - destruct (customHeaders !! "Content-Type") as [value|] eqn:Hc.
    + rewrite (Hcustom _ _ Hc). by eexists.
    + rewrite (Hother _ Hc), Htype. by eexists.
  - destruct (customHeaders !! "Authorization") as [value|] eqn:Hc.
    + rewrite (Hcustom _ _ Hc). by eexists.
    + by rewrite (Hother _ Hc).
  - exact Htype.
  - intros a t Htoken. unfold headers, getAuthHeaders. rewrite (left_id_L ∅ (∪)).
    rewrite lookup_insert_ne, lookup_insert_eq by done. by rewrite Htoken.
  - intros Htoken. unfold headers, getAuthHeaders. rewrite (left_id_L ∅ (∪)).
    rewrite lookup_insert_ne, lookup_insert_eq by done.
    by destruct Htoken as [-> | ->].
  - exact Hcustom.
  - exact Hother.
  - done.
  - done.
  - done.
Qed.

(** The theorem at the storage of a signed-in client. *)
Lemma request_headers_witness :
  headers (<["token" := "abc"]> ∅) ∅ !! "Authorization" = Some "Bearer abc".
Proof.
  exact (proj1 (proj2 (proj2 (proj2 (request_headers (<["token" := "abc"]> ∅) ∅))))
    (Ascii.ascii_of_nat 97) "bc" eq_refl).
Defined.

End ApiRequestProofs.


(** ** The application as a whole: what outlasts a reload *)

Module ApplicationProofs.
Import Contexts ContextsProofs Application.

Lemma agree_insert (keys : list string) (s1 s2 : gmap string string) (k v : string) :
  agree keys s1 s2 -> agree keys (<[k := v]> s1) (<[k := v]> s2).
Proof.
  intros H k' Hk'. destruct (decide (k' = k)) as [->|Hne].
  - by rewrite !lookup_insert_eq.
  - rewrite !lookup_insert_ne by done. by apply H.
Qed.

Lemma agree_delete (keys : list string) (s1 s2 : gmap string string) (k : string) :
  agree keys s1 s2 -> agree keys (delete k s1) (delete k s2).
Proof.
  intros H k' Hk'. destruct (decide (k' = k)) as [->|Hne].
  - by rewrite !lookup_delete_eq.
  - rewrite !lookup_delete_ne by done. by apply H.
Qed.

Lemma agree_app (keys1 keys2 : list string) (s1 s2 : gmap string string) :
  agree (keys1 ++ keys2) s1 s2 <-> agree keys1 s1 s2 /\ agree keys2 s1 s2.
Proof.
  unfold agree. split.
  - intros H. split; intros k Hk; apply H, elem_of_app; [by left|by right].
  - intros [H1 H2] k [Hk|Hk]%elem_of_app; [by apply H1|by apply H2].
Qed.

(** Two clients that differ in their storages only, and there only
    outside [keys]. *)
#[local] Abbreviation alike keys c1 c2 :=
  (setStorage ∅ c1 = setStorage ∅ c2 /\ agree keys (localStorage c1) (localStorage c2)).

Ltac same_cells :=
  match goal with
  | H : setStorage ∅ ?c1 = setStorage ∅ ?c2 |- _ =>
      destruct c1, c2; unfold setStorage in H; simpl in H;
      injection H as -> -> -> -> -> -> ->
  end.

Section Alike.

Variable keys : list string.

Lemma alike_navigate (to : string) (c1 c2 : Client) :
  alike keys c1 c2 -> alike keys (navigate to c1) (navigate to c2).
Proof. intros [Heq Hagree]. same_cells. by split. Qed.

Lemma alike_setUser (u : option User) (c1 c2 : Client) :
  alike keys c1 c2 -> alike keys (setUser u c1) (setUser u c2).
Proof. intros [Heq Hagree]. same_cells. by split. Qed.

Lemma alike_setIsLoading (b : bool) (c1 c2 : Client) :
  alike keys c1 c2 -> alike keys (setIsLoading b c1) (setIsLoading b c2).
Proof. intros [Heq Hagree]. same_cells. by split. Qed.

Lemma alike_setError (e : option string) (c1 c2 : Client) :
  alike keys c1 c2 -> alike keys (setError e c1) (setError e c2).
Proof. intros [Heq Hagree]. same_cells. by split. Qed.

Lemma alike_setItem (k v : string) (c1 c2 : Client) :
  alike keys c1 c2 -> alike keys (localStorage_setItem k v c1) (localStorage_setItem k v c2).
Proof.
  intros [Heq Hagree]. same_cells. split; [done|]. simpl in *. by apply agree_insert.
Qed.

Lemma alike_removeItem (k : string) (c1 c2 : Client) :
  alike keys c1 c2 -> alike keys (localStorage_removeItem k c1) (localStorage_removeItem k c2).
Proof.
  intros [Heq Hagree]. same_cells. split; [done|]. simpl in *. by apply agree_delete.
Qed.

Lemma alike_logout (c1 c2 : Client) :
  alike keys c1 c2 -> alike keys (logout c1) (logout c2).
Proof.
  intros H. unfold logout. by apply alike_navigate, alike_setUser, alike_removeItem.
Qed.

Lemma alike_onResponseError (error : AxiosError) (c1 c2 : Client) :
  alike keys c1 c2 -> alike keys (onResponseError error c1) (onResponseError error c2).
Proof.
  intros H. unfold onResponseError. destruct (response error) as [r|]; [|done].
  case_decide; [|done]. by apply alike_navigate, alike_logout.
Qed.

Lemma alike_intercept {A} (outcome : Settled A) (c1 c2 : Client) :
  alike keys c1 c2 -> alike keys (intercept outcome c1) (intercept outcome c2).
Proof. intros H. destruct outcome; [done|]. by apply alike_onResponseError. Qed.

Lemma alike_login (tokenResponse : Settled string) (userResponse : Settled User)
    (c1 c2 : Client) :
  alike keys c1 c2 ->
  alike keys (login tokenResponse userResponse c1) (login tokenResponse userResponse c2).
Proof.
  intros H. unfold login. cbv zeta.
  pose proof (alike_setError None _ _ (alike_setIsLoading true _ _ H)) as Hstart.
  destruct tokenResponse as [access_token|error].
  - pose proof (alike_intercept userResponse _ _
      (alike_setItem "token" access_token _ _ (alike_intercept (Fulfilled access_token) _ _ Hstart)))
      as Huser.
    destruct userResponse as [userData|error].
    + by apply alike_setIsLoading, alike_navigate, alike_setUser.
    + by apply alike_setIsLoading, alike_setError.
  - apply alike_setIsLoading, alike_setError.
    by apply (alike_intercept (Rejected error)).
Qed.

Lemma alike_checkAuth (userResponse : Settled User) (c1 c2 : Client) :
  "token" ∈ keys ->
  alike keys c1 c2 -> alike keys (checkAuth userResponse c1) (checkAuth userResponse c2).
Proof.
  intros Htoken H. unfold checkAuth. rewrite <- (proj2 H "token" Htoken).
  destruct (localStorage c1 !! "token") as [[|a t]|].
  - by apply alike_setIsLoading.
  - pose proof (alike_intercept userResponse _ _ H) as Huser.
    destruct userResponse as [userData|error].
    + by apply alike_setIsLoading, alike_setUser.
    + by apply alike_setIsLoading, alike_removeItem.
  - by apply alike_setIsLoading.
Qed.

Lemma alike_toggleTheme (c1 c2 : Client) :
  alike keys c1 c2 -> alike keys (toggleTheme c1) (toggleTheme c2).
Proof.
  intros [Heq Hagree]. same_cells. split; [done|]. simpl in *. by apply agree_insert.
Qed.

Lemma alike_toggleLeftNav (c1 c2 : Client) :
  alike keys c1 c2 -> alike keys (toggleLeftNav c1) (toggleLeftNav c2).
Proof.
  intros [Heq Hagree]. same_cells. split; [done|]. simpl in *. by apply agree_insert.
Qed.

Lemma alike_step (op : Contexts.Operation) (c1 c2 : Client) :
  "token" ∈ keys ->
  alike keys c1 c2 -> alike keys (Contexts.step c1 op) (Contexts.step c2 op).
Proof.
  intros Htoken H. destruct op; simpl.
  - by apply alike_toggleTheme.
  - by apply alike_toggleLeftNav.
  - by apply alike_login.
  - by apply alike_logout.
  - by apply alike_checkAuth.
  - by apply alike_onResponseError.
Qed.

Lemma alike_load (s1 s2 : gmap string string) (url : string) :
  "theme" ∈ keys -> "leftNavCollapsed" ∈ keys ->
  agree keys s1 s2 -> alike keys (load s1 url) (load s2 url).
Proof.
  intros Htheme Hnav H. split; [|done].
  unfold load, setStorage, initialTheme, initialLeftNavCollapsed. simpl.
  by rewrite (H "theme" Htheme), (H "leftNavCollapsed" Hnav).
Qed.

End Alike.

Section Application.

Variable colorModeKeys : list string.
Variable colorMode_get : gmap string string -> option ColorMode.
Variable colorMode_set : ColorMode -> gmap string string -> gmap string string.
Variable Cells : Type.
Variable mountCells : string -> Cells.
Variable Handler : Type.
Variable handle : Handler -> Context -> Cells -> Cells * option string.

Hypothesis manager : keepsOnly colorModeKeys colorMode_get colorMode_set.

#[local] Abbreviation keys := (durableKeys colorModeKeys).
#[local] Abbreviation mount' := (mount colorMode_get mountCells).
#[local] Abbreviation step' := (step colorMode_get colorMode_set mountCells handle).
#[local] Abbreviation run' := (run colorMode_get colorMode_set mountCells handle).

(** Two worlds that differ in their storages only, and there only
    outside the durable entries. *)
#[local] Abbreviation worldsAlike w1 w2 :=
  (alike keys (client w1) (client w2) /\ colorMode w1 = colorMode w2 /\ cells w1 = cells w2).

Lemma owned_durable (k : string) : k ∈ ownedKeys -> k ∈ keys.
Proof. intros Hk. apply elem_of_app. by left. Qed.

Lemma token_durable : "token" ∈ keys.
Proof. apply owned_durable. apply (bool_decide_unpack _). by vm_compute. Qed.

Lemma theme_durable : "theme" ∈ keys.
Proof. apply owned_durable. apply (bool_decide_unpack _). by vm_compute. Qed.

Lemma leftNavCollapsed_durable : "leftNavCollapsed" ∈ keys.
Proof. apply owned_durable. apply (bool_decide_unpack _). by vm_compute. Qed.

Lemma agree_colorMode_set (mode : ColorMode) (s1 s2 : gmap string string) :
  agree keys s1 s2 -> agree keys (colorMode_set mode s1) (colorMode_set mode s2).
Proof.
  intros H k Hk. destruct (decide (k ∈ colorModeKeys)) as [Hin|Hout].
  - apply (set_local _ _ _ manager); [|done]. by apply (agree_app ownedKeys) in H as [_ ?].
  - rewrite !(set_frame _ _ _ manager) by done. by apply H.
Qed.

Lemma mount_alike (s1 s2 : gmap string string) (url : string) :
  agree keys s1 s2 -> worldsAlike (mount' s1 url) (mount' s2 url).
Proof.
  intros H. split; [|split; [|done]].
  - apply alike_load; [apply theme_durable|apply leftNavCollapsed_durable|done].
  - simpl. f_equal. apply (get_local _ _ _ manager).
    by apply (agree_app ownedKeys) in H as [_ ?].
Qed.

Lemma context_alike (w1 w2 : World Cells) :
  worldsAlike w1 w2 -> context w1 = context w2.
Proof.
  intros ([Heq _] & Hmode & _). unfold context. rewrite Hmode.
  destruct w1 as [c1 mode1 cells1], w2 as [c2 mode2 cells2]. simpl in *.
  by same_cells.
Qed.

Lemma step_alike (w1 w2 : World Cells) (op : Operation Handler) :
  worldsAlike w1 w2 -> worldsAlike (step' w1 op) (step' w2 op).
Proof.
  intros H. pose proof (context_alike _ _ H) as Hcontext.
  destruct H as (Hclient & Hmode & Hcells).
  destruct op as [op| |h|].
  - split; [|by split]. simpl. apply alike_step; [apply token_durable|done].
  - simpl. rewrite Hmode. split; [|by split]. simpl.
    destruct Hclient as [Heq Hagree]. split.
    + destruct w1 as [c1 mode1 cells1], w2 as [c2 mode2 cells2]. simpl in *.
      by same_cells.
    + by apply agree_colorMode_set.
  - simpl. rewrite Hcontext, Hcells.
    destruct (handle h (context w2) (cells w2)) as [cells' [to|]]; simpl.
    + split; [|by split]. by apply alike_navigate.
    + by split.
  - simpl.
    assert (Hlocation : location (client w1) = location (client w2))
      by exact (f_equal location (proj1 Hclient)).
    rewrite Hlocation. apply mount_alike. by destruct Hclient.
Qed.

Lemma run_alike (ops : list (Operation Handler)) (w1 w2 : World Cells) :
  worldsAlike w1 w2 -> worldsAlike (run' w1 ops) (run' w2 ops).
Proof.
  revert w1 w2. induction ops as [|op ops IH]; intros w1 w2 H; [done|].
  simpl. by apply IH, step_alike.
Qed.

Lemma step_frame (w : World Cells) (op : Operation Handler) (k : string) :
  k ∉ ownedKeys -> k ∉ colorModeKeys -> storage (step' w op) !! k = storage w !! k.
Proof.
  intros Howned Hmode. destruct op as [op| |h|]; unfold storage; simpl.
  - by apply provider_step_frame.
  - by apply (set_frame _ _ _ manager).
  - by destruct (handle h (context w) (cells w)) as [cells' [to|]].
  - done.
Qed.


End Application.

Lemma oneKey_keepsOnly : keepsOnly oneKey oneKey_get oneKey_set.
Proof.
  split.
  - intros mode s k Hk. unfold oneKey_set. rewrite lookup_insert_ne; [done|].
    intros <-. apply Hk. unfold oneKey. apply list_elem_of_singleton. done.
  - intros mode s1 s2 H. by apply agree_insert.
  - intros s1 s2 H. unfold oneKey_get. rewrite (H "color-mode"); [done|].
    unfold oneKey. by apply list_elem_of_singleton.
Qed.

Lemma leftBehind_agree : agree (durableKeys oneKey) leftBehindWithDraft leftBehind.
Proof.
  intros k Hk. unfold leftBehindWithDraft. rewrite lookup_insert_ne; [done|].
  intros <-. revert Hk. apply (bool_decide_unpack _). by vm_compute.
Qed.


End ApplicationProofs.
